(** * TabSnap: the fretboard mapping engine and the ASCII tab renderer

    A shallow embedding of the mapping core of [TabSnap.jsx]
    ([getCandidates], [optimizeChord], [fretboardMap], [renderAsciiTab])
    and of what the component computes with it (the platform of the URL,
    the demos, the tab built by [go], the grid cells, playback), the
    properties its specification states about the core, and further
    properties of the code.

    Numbers.  JavaScript numbers are IEEE 754 binary64 values.  Pitches,
    string indices and frets are integer valued; they are modelled by [Z],
    which agrees with binary64 arithmetic on safe integers (magnitude below
    2^53).  Costs are genuine fractions ([fret * 0.1], [span * 0.3], ...):
    they are modelled by [spec_float] at precision 53 and exponent bound
    1024, the Standard Library's executable specification of binary64, so
    that rounding, and therefore every comparison of two costs, is the one
    the program performs. *)

From Stdlib Require Import ZArith Lia Bool List String Ascii SpecFloat.
From stdpp Require Import base option list gmap sets strings pretty sorting.

Local Open Scope Z_scope.

(** ** JavaScript numbers *)

Module Num.

Definition prec : Z := 53.
Definition emax : Z := 1024.

Definition number : Type := spec_float.

Definition ofZ (z : Z) : number := binary_normalize prec emax z 0 false.

Definition mul : number -> number -> number := SFmul prec emax.
Definition add : number -> number -> number := SFadd prec emax.
Definition sub : number -> number -> number := SFsub prec emax.
Definition ltb : number -> number -> bool := SFltb.
Definition leb : number -> number -> bool := SFleb.

Definition zero : number := S754_zero false.
Definition Infinity : number := S754_infinity false.

(** The decimal literals of the source, as the nearest binary64 values. *)
Definition c0_1  : number := S754_finite false 7205759403792794 (-56).
Definition c0_05 : number := S754_finite false 7205759403792794 (-57).
Definition c0_3  : number := S754_finite false 5404319552844595 (-54).
Definition c0_2  : number := S754_finite false 7205759403792794 (-55).
Definition c0_5  : number := S754_finite false 4503599627370496 (-53).

End Num.

Import Num.

(** ** Exceptions

    The only failure the mapping core can meet on typed input is a
    [TypeError]: reading a property of [undefined]. *)

Inductive Exc (A : Type) : Type :=
  | Ok (a : A)
  | TypeError.
Arguments Ok {A} a.
Arguments TypeError {A}.

#[global] Instance Exc_ret : MRet Exc := fun A a => Ok a.
#[global] Instance Exc_bind : MBind Exc := fun A B f m =>
  match m with
  | Ok a => f a
  | TypeError => TypeError
  end.

(** [xs.map(f)] with a callback that may throw: the first exception wins. *)
Fixpoint mapE {A B : Type} (f : A -> Exc B) (l : list A) : Exc (list B) :=
  match l with
  | [] => Ok []
  | x :: r => y ← f x; ys ← mapE f r; Ok (y :: ys)
  end.

(** ** Data model *)

(** [{ string: s, fret }].  [string] is the name of Rocq's type of strings,
    so the two fields are [p_string] and [p_fret]. *)
Record Position : Type := mkPos { p_string : Z; p_fret : Z }.

#[global] Instance Position_eq_dec : EqDecision Position.
Proof. solve_decision. Defined.

(** An entry of [TUNINGS].  A key that is not one of the three presets
    reads [undefined], or a property of [Object.prototype] without [notes]:
    either way [getCandidates] throws at [open[s]] or before. *)
Record Tuning : Type := mkTuning { label : string; notes : list Z }.

Definition TUNINGS : gmap string Tuning :=
  <["standard" := mkTuning "Standard" [64; 59; 55; 50; 45; 40]]>
  (<["dropD" := mkTuning "Drop D" [64; 59; 55; 50; 45; 38]]>
  (<["halfDown" := mkTuning "½ Step Down" [63; 58; 54; 49; 44; 39]]> ∅)).

Definition STRING_LABELS : list string := ["e"; "B"; "G"; "D"; "A"; "E"].

(** ** getCandidates *)

(** One iteration of [for (let s = 0; s < 6; s++)].  An index past the end
    of [open] reads [undefined]; the subtraction is then [NaN] and both
    comparisons are false, so nothing is pushed.  The subtraction of line 16
    is a binary64 subtraction: it is the subtraction of [Z] as long as it
    does not round, which is so for pitches and open strings within [2^52]
    in magnitude ([safePitch] below), and so for every MIDI pitch. *)
Definition getCandidates_step (midiNote : Z) (open : list Z) (maxFret : Z)
    (candidates : list Position) (s : Z) : list Position :=
  match open !! Z.to_nat s with
  | Some o =>
      let fret := midiNote - o in
      if (0 <=? fret) && (fret <=? maxFret)
      then candidates ++ [mkPos s fret]
      else candidates
  | None => candidates
  end.

(** The loop of [getCandidates] over a given array of open-string pitches. *)
Definition getCandidates_open (midiNote : Z) (open : list Z) (maxFret : Z)
    : list Position :=
  fold_left (getCandidates_step midiNote open maxFret) (seqZ 0 6) [].

(** [TUNINGS[tuning].notes] throws when [tuning] is not a key of the table. *)
Definition getCandidates (midiNote : Z) (tuning : string) (maxFret : Z)
    : Exc (list Position) :=
  match TUNINGS !! tuning with
  | Some t => Ok (getCandidates_open midiNote (notes t) maxFret)
  | None => TypeError
  end.

(** The default value of the parameter [maxFret]. *)
Definition maxFret_default : Z := 22.

(** ** optimizeChord *)

(** A beam state [{ positions, cost, used }]. *)
Record State : Type :=
  mkState { positions : list Position; cost : number; used : gset Z }.

(** [Math.min(...xs)]: [Infinity] for no argument. *)
Definition Math_min (xs : list Z) : number :=
  match xs with
  | [] => Infinity
  | x :: r => ofZ (fold_left Z.min r x)
  end.

(** The callback of [lastPositions.map] (line 29); [lp] may be [undefined],
    and reading [lp.fret] then throws.  The two differences, the doubling
    and the sum are binary64 operations: they are those of [Z] as long as
    none rounds, which is so for positions on the six strings at frets
    below [2^52] ([safePosition] below). *)
Definition moveDistance (c : Position) (lp : option Position) : Exc Z :=
  match lp with
  | Some lp =>
      Ok (Z.abs (p_fret lp - p_fret c) + Z.abs (p_string lp - p_string c) * 2)
  | None => TypeError
  end.

(** Lines 27-31: the cost of candidate [c] on the single-pitch path. *)
Definition singleCost (c : Position) (lastPositions : list (option Position))
    : Exc number :=
  let cost := mul (ofZ (p_fret c)) c0_1 in
  cost ←
    (if (0 <? length lastPositions)%nat
     then ds ← mapE (moveDistance c) lastPositions;
          Ok (add cost (mul (Math_min ds) c0_5))
     else Ok cost);
  Ok (if p_fret c =? 0 then sub cost c0_3 else cost).

(** Lines 26-33: the loop over [candidateSets[0]], carrying [best] and
    [bestCost]. *)
Fixpoint singleLoop (lastPositions : list (option Position))
    (cands : list Position) (best : option Position) (bestCost : number)
    : Exc (option Position) :=
  match cands with
  | [] => Ok best
  | c :: rest =>
      cost ← singleCost c lastPositions;
      if ltb cost bestCost
      then singleLoop lastPositions rest (Some c) cost
      else singleLoop lastPositions rest best bestCost
  end.

(** Lines 42-43: the span over the non-zero frets. *)
Definition spanOf (frets : list Z) : Z :=
  match frets with
  | [] => 0
  | f :: r => fold_left Z.max r f - fold_left Z.min r f
  end.

Definition chordSpan (ps : list Position) (c : Position) : Z :=
  spanOf (filter (fun f => 0 < f) (map p_fret ps ++ [p_fret c])).

(** Lines 45-46. *)
Definition chordCost (stateCost : number) (c : Position) (span : Z) : number :=
  let cost := add (add stateCost (mul (ofZ (p_fret c)) c0_05))
                  (mul (ofZ span) c0_3) in
  if p_fret c =? 0 then sub cost c0_2 else cost.

(** Lines 41-48: the body of the loop over the candidates, for one state. *)
Definition expandStep (state : State) (next : list State) (c : Position)
    : list State :=
  if decide (p_string c ∈ used state) then next
  else
    let span := chordSpan (positions state) c in
    if 5 <? span then next
    else
      let cost := chordCost (cost state) c span in
      let u := {[ p_string c ]} ∪ used state in
      next ++ [mkState (positions state ++ [c]) cost u].

(** Lines 39-50: both loops, pushing onto [next]. *)
Definition expandBeam (beam : list State) (candidates : list Position)
    : list State :=
  fold_left (fun next state => fold_left (expandStep state) candidates next)
            beam [].

(** [Array.prototype.sort] is stable, and reads the sign of the comparator:
    negative puts the first argument first, anything else ([NaN] counts as
    zero) leaves the two in their order.  For a comparator that is a
    consistent order the result is the one of a stable insertion sort. *)
Definition cmpNeg (a b : State) : bool := ltb (sub (cost a) (cost b)) zero.

Fixpoint sortInsert (x : State) (l : list State) : list State :=
  match l with
  | [] => [x]
  | y :: r => if cmpNeg x y then x :: y :: r else y :: sortInsert x r
  end.

Definition sortByCost (l : list State) : list State :=
  fold_left (fun acc x => sortInsert x acc) l [].

(** Lines 38-52: one pitch. *)
Definition beamStep (beam : list State) (candidates : list Position)
    : list State :=
  take 20 (sortByCost (expandBeam beam candidates)).

Definition initialBeam : list State := [mkState [] zero ∅].

(** Lines 36-53. *)
Definition beamSearch (candidateSets : list (list Position)) : list State :=
  fold_left beamStep candidateSets initialBeam.

(** [candidateSets.map(cs => cs[0]).filter(Boolean)] *)
Definition firstCandidates (candidateSets : list (list Position))
    : list Position :=
  omap head candidateSets.

(** The elements of the returned array are positions, except on the
    single-pitch path with an empty candidate set, where [best] is still
    [candidateSets[0][0]], that is [undefined] ([None]). *)
Definition optimizeChord (candidateSets : list (list Position))
    (lastPositions : list (option Position)) : Exc (list (option Position)) :=
  match candidateSets with
  | [] => Ok []
  | [cands] =>
      best ← singleLoop lastPositions cands (head cands) Infinity;
      Ok [best]
  | _ =>
      match beamSearch candidateSets with
      | s :: _ => Ok (map Some (positions s))
      | [] => Ok (map Some (firstCandidates candidateSets))
      end
  end.

(** ** fretboardMap *)

(** The field [notes] of an input event: an array of pitches or one pitch. *)
Inductive Notes : Type :=
  | NoteArray (ns : list Z)
  | NoteScalar (n : Z).

(** The input events [{ time, duration, notes, chord }]; [chord] is [None]
    when the property is absent.  ([notes] already names a field of
    [Tuning]: the field is [ev_notes] here.) *)
Record NoteEvent : Type :=
  mkNoteEvent { time : number; duration : number; ev_notes : Notes;
                chord : option string }.

(** The mapped events [{ time, duration, positions, chord }], the fields
    prefixed to tell them from those of the input events and of the beam
    states; [chord] is [None] for [null], and a position is [None] for
    [undefined]. *)
Record TabEvent : Type :=
  mkTabEvent { tab_time : number; tab_duration : number;
               tab_positions : list (option Position);
               tab_chord : option string }.

(** [Array.isArray(ev.notes) ? ev.notes : [ev.notes]] *)
Definition notesOf (ev : NoteEvent) : list Z :=
  match ev_notes ev with
  | NoteArray ns => ns
  | NoteScalar n => [n]
  end.

(** [ev.chord || null]: the empty string is falsy. *)
Definition chordOrNull (c : option string) : option string :=
  match c with
  | Some "" => None
  | _ => c
  end.

(** Lines 61-65, the body of the loop over the events. *)
Definition mapEvent (tuning : string) (last : list (option Position))
    (ev : NoteEvent) : Exc TabEvent :=
  candidates ← mapE (fun n => getCandidates n tuning maxFret_default) (notesOf ev);
  best ← optimizeChord candidates last;
  Ok (mkTabEvent (time ev) (duration ev) best (chordOrNull (chord ev))).

Fixpoint fretboardLoop (tuning : string) (events : list NoteEvent)
    (results : list TabEvent) (last : list (option Position))
    : Exc (list TabEvent) :=
  match events with
  | [] => Ok results
  | ev :: rest =>
      r ← mapEvent tuning last ev;
      fretboardLoop tuning rest (results ++ [r]) (tab_positions r)
  end.

(** [tuning] defaults to ["standard"] in the source; here it is always
    given. *)
Definition fretboardMap (events : list NoteEvent) (tuning : string)
    : Exc (list TabEvent) :=
  fretboardLoop tuning events [] [].

(** ** renderAsciiTab *)

(** Strings stand for JavaScript strings, one character per code unit. *)

Definition PER_LINE : nat := 8.

Definition newline : string := String "010"%char "".

Fixpoint fillString (n : nat) (c : ascii) : string :=
  match n with
  | O => ""
  | S n => String c (fillString n c)
  end.

(** [s.padEnd(targetLength, c)] for a one-character filler: nothing is added
    (and nothing cut) when [s] is already that long.  The length counted is
    the number of characters of the Rocq string; it is the number of code
    units that JavaScript counts when every character is below 128
    ([isAscii] below). *)
Definition padEnd (s : string) (targetLength : nat) (c : ascii) : string :=
  s +:+ fillString (targetLength - String.length s) c.

(** Truthiness of [e.chord]: [null] and the empty string are falsy. *)
Definition truthy (c : option string) : bool :=
  match c with
  | None | Some "" => false
  | Some _ => true
  end.

(** [e.chord || ""] *)
Definition chordText (c : option string) : string :=
  match c with
  | Some s => s
  | None => ""
  end.

(** A loop whose body may throw. *)
Fixpoint foldE {A B : Type} (f : A -> B -> Exc A) (l : list B) (a : A)
    : Exc A :=
  match l with
  | [] => Ok a
  | x :: r => a' ← f a x; foldE f r a'
  end.

(** [ev.positions.find(p => p.string === s)]; the callback throws on an
    [undefined] element it reaches. *)
Fixpoint findByString (s : Z) (ps : list (option Position))
    : Exc (option Position) :=
  match ps with
  | [] => Ok None
  | None :: _ => TypeError
  | Some p :: r => if p_string p =? s then Ok (Some p) else findByString s r
  end.

(** Lines 81-83.  [String(pos.fret)] is the plain decimal text of the fret,
    [pretty], for a fret that is a safe integer (below [1e21] JavaScript
    prints every digit, and a safe integer is the number it is written
    as). *)
Definition rowStep (s : Z) (row : string) (ev : TabEvent) : Exc string :=
  pos ← findByString s (tab_positions ev);
  let f := match pos with
           | Some p => pretty (p_fret p)
           | None => "-"
           end in
  Ok (row +:+ "-" +:+ padEnd f 5 "-").

(** Lines 79-85; a missing entry of [STRING_LABELS] would concatenate as
    the text of [undefined]. *)
Definition renderRow (slice : list TabEvent) (s : Z) : Exc string :=
  row ← foldE (rowStep s) slice
        (default "undefined" (STRING_LABELS !! Z.to_nat s) +:+ "|");
  Ok (row +:+ "|").

(** Lines 74-88, the body of the loop over the chunks. *)
Definition renderChunk (tabEvents : list TabEvent) (lines : list string)
    (chunk : nat) : Exc (list string) :=
  let slice := take PER_LINE (drop chunk tabEvents) in
  let lines :=
    if existsb (fun e => truthy (tab_chord e)) slice
    then lines ++ ["    " +:+
           String.concat "" (map (fun e => padEnd (chordText (tab_chord e)) 6 " ") slice)]
    else lines in
  lines ← foldE (fun lines s => row ← renderRow slice s; Ok (lines ++ [row]))
          (seqZ 0 6) lines;
  Ok (lines ++ [""]).

(** The values [chunk] takes in
    [for (let chunk = 0; chunk < n; chunk += PER_LINE)]. *)
Definition chunkStarts (n : nat) : list nat :=
  filter (fun c => (c mod PER_LINE = 0)%nat) (seq 0 n).

Definition renderLines (tabEvents : list TabEvent) : Exc (list string) :=
  foldE (renderChunk tabEvents) (chunkStarts (length tabEvents)) [].

Definition renderAsciiTab (tabEvents : list TabEvent) : Exc string :=
  lines ← renderLines tabEvents;
  Ok (String.concat newline lines).

(** ** The application *)

(** The rest of [TabSnap.jsx] is the React component.  What it computes
    with the mapping core is embedded here: the platform read off the URL,
    the demo table, the tab that [go] builds, the playback started by
    [togglePlay], the cells of [TabGrid] and the text [copyAscii] copies.
    State setters are modelled by the state they set; timers by the
    callbacks they run, one call per firing. *)

(** [a / b] *)
Definition divide : number -> number -> number := SFdiv prec emax.

(** A decimal literal [n / d], [d] a power of ten: the nearest binary64
    value, which is what the correctly rounded quotient of the two integers
    is.  [dec 7 10] is [0.7]. *)
Definition dec (n d : Z) : number := divide (ofZ n) (ofZ d).

(** [m[k].field]: reading a field of a missing entry throws. *)
Definition getE {A : Type} (m : gmap string A) (k : string) : Exc A :=
  match m !! k with
  | Some a => Ok a
  | None => TypeError
  end.

(** [hay.includes(needle)] *)
Fixpoint includes (hay needle : string) : bool :=
  String.prefix needle hay
  || match hay with
     | "" => false
     | String _ rest => includes rest needle
     end.

(** Line 290; [None] is [null]. *)
Definition platform (url : string) : option string :=
  if includes url "tiktok" then Some "tiktok"
  else if includes url "youtu" then Some "youtube"
  else if includes url "instagram" then Some "instagram"
  else None.

Module PlatMeta.
Record t : Type := mk { l : string; c : string; i : string }.
End PlatMeta.

(** Line 291. *)
Definition platMeta : gmap string PlatMeta.t :=
  <["tiktok" := PlatMeta.mk "TikTok" "#ff0050" "♪"]>
  (<["youtube" := PlatMeta.mk "YouTube" "#f00" "▶"]>
  (<["instagram" := PlatMeta.mk "Instagram" "#e1306c" "◎"]> ∅)).

(** An entry of [DEMOS] (lines 94-155). *)
Module Demo.
Record t : Type :=
  mk { title : string; bpm : Z; tuning : string; events : list NoteEvent }.
End Demo.

Definition wonderwall : Demo.t :=
  Demo.mk "Wonderwall-style Progression" 87 "standard"
    [ mkNoteEvent (dec 0 1) (dec 5 10)
        (NoteArray [40; 47; 52; 55; 59; 64]) (Some "Em7");
      mkNoteEvent (dec 7 10) (dec 5 10)
        (NoteArray [43; 47; 50; 55; 59; 67]) (Some "G");
      mkNoteEvent (dec 14 10) (dec 5 10)
        (NoteArray [50; 57; 62; 66]) (Some "Dsus4");
      mkNoteEvent (dec 21 10) (dec 5 10)
        (NoteArray [45; 52; 57; 64]) (Some "A7sus4");
      mkNoteEvent (dec 28 10) (dec 5 10)
        (NoteArray [40; 47; 52; 55; 59; 64]) (Some "Em7");
      mkNoteEvent (dec 35 10) (dec 5 10)
        (NoteArray [43; 47; 50; 55; 59; 67]) (Some "G");
      mkNoteEvent (dec 42 10) (dec 5 10)
        (NoteArray [50; 57; 62; 66]) (Some "Dsus4");
      mkNoteEvent (dec 49 10) (dec 5 10)
        (NoteArray [45; 52; 57; 64]) (Some "A7sus4") ].

Definition blues : Demo.t :=
  Demo.mk "12-Bar Blues Riff in E" 120 "standard"
    [ mkNoteEvent (dec 0 1) (dec 25 100) (NoteArray [40]) None;
      mkNoteEvent (dec 25 100) (dec 25 100) (NoteArray [40]) None;
      mkNoteEvent (dec 5 10) (dec 25 100) (NoteArray [43]) None;
      mkNoteEvent (dec 75 100) (dec 25 100) (NoteArray [40]) None;
      mkNoteEvent (dec 10 10) (dec 25 100) (NoteArray [44]) None;
      mkNoteEvent (dec 125 100) (dec 25 100) (NoteArray [43]) None;
      mkNoteEvent (dec 15 10) (dec 25 100) (NoteArray [40]) None;
      mkNoteEvent (dec 175 100) (dec 25 100) (NoteArray [45]) None;
      mkNoteEvent (dec 20 10) (dec 25 100) (NoteArray [45]) None;
      mkNoteEvent (dec 225 100) (dec 25 100) (NoteArray [45]) None;
      mkNoteEvent (dec 25 10) (dec 25 100) (NoteArray [48]) None;
      mkNoteEvent (dec 275 100) (dec 25 100) (NoteArray [45]) None;
      mkNoteEvent (dec 30 10) (dec 25 100) (NoteArray [49]) None;
      mkNoteEvent (dec 325 100) (dec 25 100) (NoteArray [48]) None;
      mkNoteEvent (dec 35 10) (dec 25 100) (NoteArray [45]) None;
      mkNoteEvent (dec 375 100) (dec 25 100) (NoteArray [40]) None ].

Definition fingerpick : Demo.t :=
  Demo.mk "Fingerpicking Pattern in Am" 100 "standard"
    [ mkNoteEvent (dec 0 1) (dec 3 10) (NoteArray [45]) None;
      mkNoteEvent (dec 3 10) (dec 3 10) (NoteArray [60]) None;
      mkNoteEvent (dec 6 10) (dec 3 10) (NoteArray [57]) None;
      mkNoteEvent (dec 9 10) (dec 3 10) (NoteArray [64]) None;
      mkNoteEvent (dec 12 10) (dec 3 10) (NoteArray [57]) None;
      mkNoteEvent (dec 15 10) (dec 3 10) (NoteArray [60]) None;
      mkNoteEvent (dec 18 10) (dec 3 10) (NoteArray [43]) None;
      mkNoteEvent (dec 21 10) (dec 3 10) (NoteArray [60]) None;
      mkNoteEvent (dec 24 10) (dec 3 10) (NoteArray [55]) None;
      mkNoteEvent (dec 27 10) (dec 3 10) (NoteArray [64]) None;
      mkNoteEvent (dec 30 10) (dec 3 10) (NoteArray [55]) None;
      mkNoteEvent (dec 33 10) (dec 3 10) (NoteArray [60]) None;
      mkNoteEvent (dec 36 10) (dec 3 10) (NoteArray [40]) None;
      mkNoteEvent (dec 39 10) (dec 3 10) (NoteArray [59]) None;
      mkNoteEvent (dec 42 10) (dec 3 10) (NoteArray [55]) None;
      mkNoteEvent (dec 45 10) (dec 3 10) (NoteArray [64]) None;
      mkNoteEvent (dec 48 10) (dec 3 10) (NoteArray [55]) None;
      mkNoteEvent (dec 51 10) (dec 3 10) (NoteArray [59]) None ].
Definition DEMOS : gmap string Demo.t :=
  <["wonderwall" := wonderwall]>
  (<["blues" := blues]>
  (<["fingerpick" := fingerpick]> ∅)).

(** The line under the heading of the processing view (line 418). *)
Definition processingText (url demo : string) : Exc string :=
  if bool_decide (url ≠ "")
  then
    match platform url with
    | Some k => m ← getE platMeta k; Ok ("Transcribing from " +:+ PlatMeta.l m)
    | None => Ok "Transcribing from URL"
    end
  else d ← getE DEMOS demo; Ok ("Demo: " +:+ Demo.title d).

(** The state [tab]. *)
Module Tab.
Record t : Type :=
  mk { title : string; bpm : Z; tuning : string; events : list TabEvent }.
End Tab.

(** [xs.map((x, i) => f(x, i))] with a callback that may throw, counting
    from [i]. *)
Fixpoint mapEi {A B : Type} (f : A -> nat -> Exc B) (i : nat) (l : list A)
    : Exc (list B) :=
  match l with
  | [] => Ok []
  | x :: r => y ← f x i; ys ← mapEi f (S i) r; Ok (y :: ys)
  end.

(** Line 304:
    [mapped.map((m, i) => ({ ...m, chord: d.events[i].chord || null }))];
    [d.events[i]] past the end is [undefined], and reading its [chord]
    throws. *)
Definition withChords (events : list NoteEvent) (mapped : list TabEvent)
    : Exc (list TabEvent) :=
  mapEi (fun m i =>
           match events !! i with
           | Some ev =>
               Ok (mkTabEvent (tab_time m) (tab_duration m) (tab_positions m)
                              (chordOrNull (chord ev)))
           | None => TypeError
           end) 0 mapped.

(** Lines 302-305: the tab that the last firing of [tick] in [go] hands to
    [setTab], for the demo selected. *)
Definition goTab (demo : string) : Exc Tab.t :=
  d ← getE DEMOS demo;
  mapped ← fretboardMap (Demo.events d) (Demo.tuning d);
  withChords ← withChords (Demo.events d) mapped;
  Ok (Tab.mk (Demo.title d) (Demo.bpm d) (Demo.tuning d) withChords).

(** Lines 331-334: the text [copyAscii] writes to the clipboard; nothing
    when [tab] is [null]. *)
Definition copyAscii (tab : option Tab.t) : Exc (option string) :=
  match tab with
  | None => Ok None
  | Some tab => text ← renderAsciiTab (Tab.events tab); Ok (Some text)
  end.

(** Lines 203-204 and 222 of [TabGrid]: the cell of string [s] in the column
    of [ev], the fret shown or [None] for the dash. *)
Definition gridCell (ev : TabEvent) (s : Z) : Exc (option Z) :=
  pos ← findByString s (tab_positions ev);
  Ok (match pos with
      | Some pos => Some (p_fret pos)
      | None => None
      end).

(** Line 202: [[0,1,2,3,4,5].map(s => ...)]. *)
Definition gridColumn (ev : TabEvent) : Exc (list (option Z)) :=
  mapE (gridCell ev) [0; 1; 2; 3; 4; 5].

(** The playback state: [activeIdx], [playing], and the interval held by
    [timerRef], if one is running, with the [idx] its callback has
    captured. *)
Record Player : Type :=
  mkPlayer { activeIdx : Z; playing : bool; timerIdx : option Z }.

(** Line 318: the period of the interval, in milliseconds. *)
Definition intervalMs (tab : Tab.t) : number :=
  mul (divide (ofZ 60) (ofZ (Tab.bpm tab))) (ofZ 500).

(** Lines 312-324, [tab] being set. *)
Definition togglePlay (st : Player) : Player :=
  if playing st
  then mkPlayer (activeIdx st) false None
  else
    let idx := if activeIdx st <? 0 then 0 else activeIdx st in
    mkPlayer idx true (Some idx).

(** Lines 319-323: one firing of the interval; no interval, no firing. *)
Definition intervalTick (tab : Tab.t) (st : Player) : Player :=
  match timerIdx st with
  | None => st
  | Some idx =>
      let idx := idx + 1 in
      if Z.of_nat (length (Tab.events tab)) <=? idx
      then mkPlayer (-1) false None
      else mkPlayer idx (playing st) (Some idx)
  end.

(** [onTap={setActiveIdx}] (lines 193 and 457): a click on column [ci] of
    the grid. *)
Definition onTap (ci : Z) (st : Player) : Player :=
  mkPlayer ci (playing st) (timerIdx st).

(** * Definitions used in the statements and in the proofs *)

(** [x] is not [NaN] and has sign bit [s]. *)
Definition sgn (s : bool) (x : number) : Prop :=
  match x with
  | S754_zero s' | S754_infinity s' | S754_finite s' _ _ => s' = s
  | S754_nan => False
  end.

(** [x] is a zero or a finite number below [2 ^ K] in magnitude, held with
    an exponent no less than the least one, [-1074]. *)
Definition magBound (K : Z) (x : number) : Prop :=
  match x with
  | S754_zero _ => True
  | S754_finite _ m e => -1074 ≤ e ∧ Zdigits2 (Z.pos m) + e ≤ K
  | _ => False
  end.

(** The value of a finite number, counted in units of [2 ^ -1074], the
    least positive binary64 number. *)
Definition scaled (x : number) : Z :=
  match x with
  | S754_finite s m e => cond_Zopp s (Z.pos m * 2 ^ (e + 1074))
  | _ => 0
  end.

(** ** Where integers are exact *)

(** The safe integers of JavaScript ([Number.isSafeInteger]): every one of
    them is a binary64 number, and is printed by [String] in plain
    decimal. *)
Definition safeInteger (z : Z) : Prop := - 2 ^ 53 < z < 2 ^ 53.

(** Pitches within [2^52] in magnitude: the difference of two of them is
    within [2^53], so that line 16 subtracts them without rounding.  The
    MIDI pitches, 0 to 127, and the open strings of the presets are such. *)
Definition safePitch (z : Z) : Prop := - 2 ^ 52 ≤ z ≤ 2 ^ 52.

(** Positions on the six strings at a fret below [2^52], not negative.
    Between two of them the differences of line 29, the doubled string
    distance (at most 10) and their sum stay below [2^53]: no operation
    rounds before the multiplication by [0.5]. *)
Definition safePosition (p : Position) : Prop :=
  0 ≤ p_string p < 6 ∧ 0 ≤ p_fret p < 2 ^ 52.

(** ** Words of the specification, single-pitch path *)

(** [|Δfret| + 2*|Δstring|] between a candidate and a prior position. *)
Definition movement (c lp : Position) : Z :=
  Z.abs (p_fret lp - p_fret c) + 2 * Z.abs (p_string lp - p_string c).

(** The cost of the specification: [fret * 0.1], plus, when prior positions
    exist, [0.5 *] the least movement, minus [0.3] on an open string. *)
Definition specSingleCost (c : Position) (prior : list Position) : number :=
  let base := mul (ofZ (p_fret c)) c0_1 in
  let moved :=
    match prior with
    | [] => base
    | lp :: r =>
        add base
            (mul c0_5 (ofZ (foldr Z.min (movement c lp) (map (movement c) r))))
    end in
  if p_fret c =? 0 then sub moved c0_3 else moved.

(** [b], at index [i] of [l], has the least cost [K], and is the first to
    have it. *)
Definition firstMin (K : Position → number) (l : list Position) (i : nat)
    (b : Position) : Prop :=
  l !! i = Some b
  ∧ (∀ c, c ∈ l → ltb (K c) (K b) = false)
  ∧ (∀ j c, (j < i)%nat → l !! j = Some c → ltb (K b) (K c) = true).

(** What one string contributes: the position [(s, midiNote - open[s])]
    when its fret lies within [0, maxFret]. *)
Definition candidateAt (midiNote : Z) (open : list Z) (maxFret : Z) (s : Z)
    : option Position :=
  o ← open !! Z.to_nat s;
  if (0 <=? midiNote - o) && (midiNote - o <=? maxFret)
  then Some (mkPos s (midiNote - o)) else None.

(** ** Words of the specification, chord path *)

(** The string indices of an assignment. *)
Definition strings (ps : list Position) : list Z := map p_string ps.

(** The span: the greatest minus the least of the non-zero frets, and [0]
    when every fret is zero. *)
Definition specSpan (frets : list Z) : Z :=
  match filter (λ f, f ≠ 0) frets with
  | [] => 0
  | f :: r => foldr Z.max f r - foldr Z.min f r
  end.

(** Positions as the data model has them, and as [getCandidates] makes
    them: a string index among the six strings and a fret that is not
    negative. *)
Definition wfPosition (p : Position) : Prop :=
  0 ≤ p_string p < 6 ∧ 0 ≤ p_fret p.

(** An assignment for the chord [css]: one candidate per pitch, on pairwise
    distinct strings, within span 5. *)
Definition feasible (css : list (list Position)) (ps : list Position) : Prop :=
  Forall2 (λ p cs, p ∈ cs) ps css
  ∧ NoDup (strings ps)
  ∧ specSpan (map p_fret ps) ≤ 5.

(** The state reached from [s] by choosing [c] for the next pitch: the cost
    grows by [fret * 0.05 + span * 0.3], less [0.2] on an open string. *)
Definition specChild (s : State) (c : Position) : State :=
  let span := specSpan (map p_fret (positions s ++ [c])) in
  let k := add (add (cost s) (mul (ofZ (p_fret c)) c0_05))
               (mul (ofZ span) c0_3) in
  mkState (positions s ++ [c])
          (if p_fret c =? 0 then sub k c0_2 else k)
          ({[ p_string c ]} ∪ used s).

(** [c] may extend [s]: its string is not taken by a position of [s], and
    the span stays within 5. *)
Definition admissible (s : State) (c : Position) : Prop :=
  (p_string c ∉ strings (positions s))
  ∧ specSpan (map p_fret (positions s ++ [c])) ≤ 5.

#[global] Instance admissible_dec s c : Decision (admissible s c).
Proof. unfold admissible. apply _. Defined.

(** Every state, in beam order, extended by every admissible candidate, in
    candidate order. *)
Definition specExpand (beam : list State) (candidates : list Position)
    : list State :=
  s ← beam; (specChild s <$> filter (admissible s) candidates).

(** The cost the chord cost model gives an assignment, pitch by pitch. *)
Fixpoint pathCostFrom (acc : number) (chosen todo : list Position) : number :=
  match todo with
  | [] => acc
  | c :: r =>
      pathCostFrom (chordCost acc c (chordSpan chosen c)) (chosen ++ [c]) r
  end.

Definition pathCost (ps : list Position) : number := pathCostFrom zero [] ps.

(** What the loop of [expandStep] pushes for one candidate. *)
Definition expandOne (s : State) (c : Position) : option State :=
  if decide (p_string c ∈ used s) then None
  else if 5 <? chordSpan (positions s) c then None
  else Some (mkState (positions s ++ [c])
                     (chordCost (cost s) c (chordSpan (positions s) c))
                     ({[ p_string c ]} ∪ used s)).

(** A state of the beam after the pitches of [css]: one position per pitch,
    taken from its candidates, on pairwise distinct strings, [used] being
    the set of these strings, within span 5. *)
Definition goodState (css : list (list Position)) (s : State) : Prop :=
  Forall2 (λ p cs, p ∈ cs) (positions s) css
  ∧ NoDup (strings (positions s))
  ∧ used s = list_to_set (strings (positions s))
  ∧ specSpan (map p_fret (positions s)) ≤ 5
  ∧ cost s = pathCost (positions s).

(** [notes.map(n => getCandidates(n, tuning))] for a tuning whose
    open-string pitches are [open]. *)
Definition candidateSetsOf (open : list Z) (maxFret : Z) (pitches : list Z)
    : list (list Position) :=
  map (λ n, getCandidates_open n open maxFret) pitches.

Definition product (l : list nat) : nat := foldr Nat.mul 1%nat l.

(** The fixtures of the specification and of the demos. *)
Definition standardOpen : list Z := [64; 59; 55; 50; 45; 40].

Definition em7Pitches : list Z := [40; 47; 52; 55; 59; 64].

(** A chord whose only conflict-free assignment within span 5 lies high on
    the neck. *)
Definition highChord : list Z := [55; 70; 64; 73; 84].

Definition highChordAssignment : list Position :=
  [mkPos 5 15; mkPos 3 20; mkPos 4 19; mkPos 2 18; mkPos 0 20].

(** Frets that are safe integers, on which [Z] and binary64 agree. *)
Definition safeFret (p : Position) : Prop := p_fret p < 2 ^ 53.

(** [a] costs no more than [b], as finite numbers. *)
Definition costLe (a b : State) : Prop := scaled (cost a) ≤ scaled (cost b).

(** ** Words of the specification, sequence mapper *)

(** [r] is the mapped event of [ev] when [prev] are the last chosen
    positions: time and duration are copied, the label is [ev.chord || null],
    and the positions are those the optimizer picks, given [prev], for the
    candidate sets of the pitches of [ev]. *)
Definition mapsTo (open : list Z) (prev : list (option Position))
    (ev : NoteEvent) (r : TabEvent) : Prop :=
  tab_time r = time ev
  ∧ tab_duration r = duration ev
  ∧ tab_chord r = chordOrNull (chord ev)
  ∧ optimizeChord (candidateSetsOf open maxFret_default (notesOf ev)) prev
    = Ok (tab_positions r).

(** The mapped sequence [rs] of [events], threading the last chosen
    positions from [prev]: event by event, each mapped with the positions
    of the one before. *)
Fixpoint threaded (open : list Z) (prev : list (option Position))
    (events : list NoteEvent) (rs : list TabEvent) : Prop :=
  match events, rs with
  | [], [] => True
  | ev :: events', r :: rs' =>
      mapsTo open prev ev r ∧ threaded open (tab_positions r) events' rs'
  | _, _ => False
  end.

(** A single-pitch event whose pitch no string reaches. *)
Definition unreachableSingle (open : list Z) (ev : NoteEvent) : Prop :=
  ∃ n, notesOf ev = [n] ∧ getCandidates_open n open maxFret_default = [].

Definition lowNote : NoteEvent := mkNoteEvent zero c0_5 (NoteArray [30]) None.
Definition openE : NoteEvent := mkNoteEvent c0_5 c0_5 (NoteArray [40]) None.
Definition unlabelled : NoteEvent :=
  mkNoteEvent zero c0_5 (NoteArray [40]) (Some "").
Definition silent : NoteEvent := mkNoteEvent zero c0_5 (NoteArray []) None.

(** ** Words of the specification, renderer *)

(** The events the mapper makes when nothing is [undefined]. *)
Definition definedEvent (ev : TabEvent) : Prop :=
  Forall is_Some (tab_positions ev).

(** Every character is below 128: one character of the Rocq string for one
    code unit of the JavaScript string. *)
Definition isAscii (s : string) : Prop :=
  Forall (λ c, (nat_of_ascii c < 128)%nat) (list_ascii_of_string s).

(** The events whose text the model prints as the code does: the label, if
    any, is in ASCII, so that [padEnd] fills it as
    [String.prototype.padEnd] does; the string indices are safe integers
    and the frets safe integers that are not negative, which [String]
    prints in plain decimal. *)
Definition printable (ev : TabEvent) : Prop :=
  match tab_chord ev with
  | Some s => isAscii s
  | None => True
  end
  ∧ Forall (λ p, safeInteger (p_string p) ∧ 0 ≤ p_fret p < 2 ^ 53)
      (omap id (tab_positions ev)).

(** A labelled event: the chord Em7 with one position. *)
Definition em7Labelled : TabEvent :=
  mkTabEvent zero c0_5 [Some (mkPos 4 2)] (Some "Em7").

(** The event carries a label: its [chord] is a non-empty string. *)
Definition carriesLabel (ev : TabEvent) : Prop :=
  match tab_chord ev with
  | Some s => s ≠ ""
  | None => False
  end.

#[global] Instance carriesLabel_dec ev : Decision (carriesLabel ev).
Proof. unfold carriesLabel. destruct (tab_chord ev); apply _. Defined.

(** The first position of the event on string [s], if any. *)
Definition positionOn (s : Z) (ev : TabEvent) : option Position :=
  head (filter (λ p, p_string p = s) (omap id (tab_positions ev))).

(** The fret in decimal, or one dash. *)
Definition fretText (s : Z) (ev : TabEvent) : string :=
  match positionOn s ev with
  | Some p => pretty (p_fret p)
  | None => "-"
  end.

(** One column of a string row: a dash, then the fret text filled with
    dashes to five characters. *)
Definition specCell (s : Z) (ev : TabEvent) : string :=
  "-" +:+ padEnd (fretText s ev) 5 "-".

(** The letters of the six strings, e B G D A E. *)
Definition stringLetter (s : Z) : string :=
  match s with
  | 0 => "e" | 1 => "B" | 2 => "G" | 3 => "D" | 4 => "A" | 5 => "E"
  | _ => ""
  end.

(** A string row: the letter, a pipe, the columns of the events, a pipe. *)
Definition specRow (block : list TabEvent) (s : Z) : string :=
  stringLetter s +:+ "|"
  +:+ String.concat "" (map (specCell s) block) +:+ "|".

(** The label row: four spaces, then every label filled with spaces to six
    characters. *)

Definition specLabelRow (block : list TabEvent) : string :=
  "    " +:+ String.concat ""
    (map (λ e, padEnd (default "" (tab_chord e)) 6 " ") block).

(** The lines of one block: the label row when some event carries a label,
    the six string rows, one empty line. *)
Definition specBlock (block : list TabEvent) : list string :=
  (if decide (Exists carriesLabel block) then [specLabelRow block] else [])
  ++ map (specRow block) [0; 1; 2; 3; 4; 5] ++ [""].

(** The blocks of [PER_LINE] consecutive events the loop cuts. *)
Definition blocksOf (tabEvents : list TabEvent) : list (list TabEvent) :=
  (λ chunk, take PER_LINE (drop chunk tabEvents))
  <$> chunkStarts (length tabEvents).

Definition a3 : TabEvent := mkTabEvent zero c0_5 [Some (mkPos 4 3)] None.

(** ** Words of the further properties *)

(** The pitch a position sounds on strings tuned to [open]. *)
Definition pitchOf (open : list Z) (p : Position) : option Z :=
  o ← open !! Z.to_nat (p_string p); Some (o + p_fret p).

(** The positions of a mapped event, the [undefined] ones left out. *)
Definition chosen (r : TabEvent) : list Position := omap id (tab_positions r).

(** Some string reaches the pitch within the default fret bound. *)
Definition reachable (open : list Z) (n : Z) : Prop :=
  getCandidates_open n open maxFret_default ≠ [].

#[global] Instance reachable_dec open n : Decision (reachable open n).
Proof. unfold reachable. apply _. Defined.

(** The positions handed to the event after the mapped events [rs], the
    loop having started from [prev]. *)
Definition lastOf (prev : list (option Position)) (rs : list TabEvent)
    : list (option Position) :=
  match last rs with
  | Some r => tab_positions r
  | None => prev
  end.

#[global] Instance unreachableSingle_dec open ev :
  Decision (unreachableSingle open ev).
Proof.
  unfold unreachableSingle.
  destruct (notesOf ev) as [|n [|n' ns]].
  - right. by intros (n & ? & _).
  - destruct (decide (getCandidates_open n open maxFret_default = []))
      as [E|E].
    + left. by exists n.
    + right. by intros (? & [= <-] & ?).
  - right. by intros (? & ? & _).
Defined.

(** The positions of the fretboard as [getCandidates] draws them with the
    default fret bound: six strings, frets 0 to 22. *)
Definition onFretboard (p : Position) : Prop :=
  0 ≤ p_string p < 6 ∧ 0 ≤ p_fret p ≤ 22.

Definition fretboard : list Position :=
  s ← seqZ 0 6; f ← seqZ 0 23; [mkPos s f].

(** The cost of a first note at fret [f]: no prior position. *)
Definition firstCost (f : Z) : number := specSingleCost (mkPos 0 f) [].

(** Line 16 and line 29 operation by operation in binary64, to be compared
    with the integers of the model: the fret [midiNote - open[s]], the test
    [fret >= 0 && fret <= maxFret], and the movement
    [Math.abs(lp.fret - c.fret) + Math.abs(lp.string - c.string) * 2]. *)
Definition fret64 (midiNote o : Z) : number := sub (ofZ midiNote) (ofZ o).

Definition withinFrets64 (fret maxFret : number) : bool :=
  leb zero fret && leb fret maxFret.

Definition movement64 (c lp : Position) : number :=
  add (SFabs (sub (ofZ (p_fret lp)) (ofZ (p_fret c))))
      (mul (SFabs (sub (ofZ (p_string lp)) (ofZ (p_string c)))) (ofZ 2)).

(** The open-string pitches of the three presets. *)
Definition presetPitches : list Z :=
  [64; 59; 55; 50; 45; 40; 38; 63; 58; 54; 49; 44; 39].

(** The same binary64 datum. *)
Definition sameNumber (x y : number) : bool :=
  match x, y with
  | S754_zero s, S754_zero s' => Bool.eqb s s'
  | S754_infinity s, S754_infinity s' => Bool.eqb s s'
  | S754_nan, S754_nan => true
  | S754_finite s m e, S754_finite s' m' e' =>
      Bool.eqb s s' && (m =? m')%positive && (e =? e')
  | _, _ => false
  end.

(** The positions of a mapped event that the views display: for each of
    the six strings, the first position on that string. *)
Definition shown (ev : TabEvent) : list Position :=
  omap (λ s, positionOn s ev) [0; 1; 2; 3; 4; 5].

(** [needle] occurs in [hay]. *)
Definition occurs (needle hay : string) : Prop :=
  ∃ a b, hay = a +:+ needle +:+ b.

(** The index playback starts from: [activeIdx], or 0 when no column is
    active. *)
Definition startIdx (st : Player) : Z := Z.max 0 (activeIdx st).

(** The player after [k] firings of the interval. *)
Definition afterTicks (tab : Tab.t) (k : nat) (st : Player) : Player :=
  Nat.iter k (intervalTick tab) st.

(** * Properties *)

(** [H : x ∈ [a; b; ...]]: one goal per element, each closed by [tac]. *)
Ltac each_elem H tac :=
  repeat (apply elem_of_cons in H as [->|H]; [tac|]);
  by apply elem_of_nil in H.

(** Case analysis on the comparisons of exponents and mantissas that
    [SFcompare] makes. *)
Ltac compare_cases :=
  repeat match goal with
         | |- context [?x ?= ?y] => destruct (Z.compare_spec x y)
         | |- context [Pos.compare_cont Eq ?x ?y] =>
             change (Pos.compare_cont Eq x y) with (Pos.compare x y);
             destruct (Pos.compare_spec x y)
         end;
  simpl; try done; try lia.

(** ** The candidate generator *)

Lemma getCandidates_fold midiNote open maxFret l acc :
  fold_left (getCandidates_step midiNote open maxFret) l acc
  = acc ++ omap (candidateAt midiNote open maxFret) l.
Proof.
  revert acc. induction l as [|s l IH]; intros acc; simpl.
  - by rewrite app_nil_r.
  - rewrite IH. unfold getCandidates_step, candidateAt.
    destruct (open !! Z.to_nat s) as [o|]; simpl; [|done].
    destruct ((0 <=? midiNote - o) && (midiNote - o <=? maxFret)); [|done].
    by rewrite <- app_assoc.
Qed.

Lemma getCandidates_open_omap midiNote open maxFret :
  getCandidates_open midiNote open maxFret
  = omap (candidateAt midiNote open maxFret) [0; 1; 2; 3; 4; 5].
Proof. unfold getCandidates_open. by rewrite getCandidates_fold. Qed.

Lemma candidateAt_Some midiNote open maxFret s pos :
  candidateAt midiNote open maxFret s = Some pos ↔
  p_string pos = s ∧ open !! Z.to_nat s = Some (midiNote - p_fret pos)
  ∧ 0 ≤ p_fret pos ≤ maxFret.
Proof.
  unfold candidateAt. destruct pos as [s' f']; simpl.
  destruct (open !! Z.to_nat s) as [o|]; simpl.
  - destruct (Z.leb_spec 0 (midiNote - o)), (Z.leb_spec (midiNote - o) maxFret);
      simpl; split.
    all: try (intros [= <- <-]; repeat split; try lia; f_equal; lia).
    all: try discriminate.
    all: intros (-> & [= ->] & Hr); try lia.
    do 2 f_equal. lia.
  - split; [discriminate|]. by intros (_ & ? & _).
Qed.

Lemma getCandidates_open_elem midiNote open maxFret pos :
  pos ∈ getCandidates_open midiNote open maxFret ↔
  0 ≤ p_string pos < 6
  ∧ open !! Z.to_nat (p_string pos) = Some (midiNote - p_fret pos)
  ∧ 0 ≤ p_fret pos ≤ maxFret.
Proof.
  rewrite getCandidates_open_omap, list_elem_of_omap. split.
  - intros (s & Hs & Hc). apply candidateAt_Some in Hc as (<- & ? & ?).
    split; [|done].
    each_elem Hs lia.
  - intros (Hs & Ho & Hf). exists (p_string pos). split.
    + assert (p_string pos = 0 ∨ p_string pos = 1 ∨ p_string pos = 2
              ∨ p_string pos = 3 ∨ p_string pos = 4 ∨ p_string pos = 5)
        as Hc by lia.
      destruct Hc as [->|[->|[->|[->|[->| ->]]]]];
        repeat ((by left) || right).
    + by apply candidateAt_Some.
Qed.

Lemma omap_candidateAt_sorted midiNote open maxFret l :
  StronglySorted Z.lt l →
  StronglySorted Z.lt
    (map p_string (omap (candidateAt midiNote open maxFret) l)).
Proof.
  induction 1 as [|s l Hl IH Hall]; simpl; [constructor|].
  destruct (candidateAt midiNote open maxFret s) as [pos|] eqn:Hc; [|done].
  simpl. constructor; [done|].
  apply candidateAt_Some in Hc as (-> & _).
  apply Forall_forall. intros x Hx.
  apply list_elem_of_fmap in Hx as (q & -> & Hq).
  apply list_elem_of_omap in Hq as (s' & Hs' & Hq).
  apply candidateAt_Some in Hq as (-> & _).
  by eapply Forall_forall in Hall.
Qed.

Lemma getCandidates_open_none midiNote open maxFret :
  (∀ s o, open !! s = Some o → ¬ 0 ≤ midiNote - o ≤ maxFret) →
  getCandidates_open midiNote open maxFret = [].
Proof.
  intros Hnone.
  destruct (getCandidates_open midiNote open maxFret) as [|pos l] eqn:E;
    [done|].
  assert (pos ∈ getCandidates_open midiNote open maxFret) as Hin
    by (rewrite E; left).
  apply getCandidates_open_elem in Hin as (_ & Ho & Hf).
  exfalso. apply (Hnone _ _ Ho). lia.
Qed.

(** C4.  For every pitch and every array of open-string pitches within
    [2^52] in magnitude, where line 16 subtracts without rounding, and every
    [maxFret] that is a safe integer, [getCandidates] returns exactly the
    positions [(s, f)] with [0 <= s < 6], [f = midiNote - open[s]] and
    [0 <= f <= maxFret], in strictly ascending string order; the list is
    empty, and nothing fails, when no string satisfies the bound; for each
    preset of [TUNINGS] the array is the preset's [notes], six pitches
    within that range. *)
Theorem getCandidates_correct (midiNote : Z) (open : list Z) (maxFret : Z) :
  safePitch midiNote →
  Forall safePitch open →
  safeInteger maxFret →
  (∀ pos, pos ∈ getCandidates_open midiNote open maxFret ↔
          0 ≤ p_string pos < 6
          ∧ open !! Z.to_nat (p_string pos) = Some (midiNote - p_fret pos)
          ∧ 0 ≤ p_fret pos ≤ maxFret)
  ∧ StronglySorted Z.lt
      (map p_string (getCandidates_open midiNote open maxFret))
  ∧ ((∀ s o, open !! s = Some o → ¬ 0 ≤ midiNote - o ≤ maxFret) →
     getCandidates_open midiNote open maxFret = [])
  ∧ (∀ tuning t, TUNINGS !! tuning = Some t →
       length (notes t) = 6%nat
       ∧ Forall safePitch (notes t)
       ∧ getCandidates midiNote tuning maxFret
         = Ok (getCandidates_open midiNote (notes t) maxFret)).
Proof.
  intros _ _ _. split; [apply getCandidates_open_elem|]. split; [|split].
  - rewrite getCandidates_open_omap. apply omap_candidateAt_sorted.
    repeat (constructor; [|repeat (constructor; [lia|]); constructor]).
    constructor.
  - apply getCandidates_open_none.
  - intros tuning t Ht. unfold getCandidates. rewrite Ht.
    split; [|split; [|done]]; unfold TUNINGS in Ht.
    + repeat (apply lookup_insert_Some in Ht as [[_ <-]|[_ Ht]]; [done|]).
      by rewrite lookup_empty in Ht.
    + repeat (apply lookup_insert_Some in Ht as [[_ <-]|[_ Ht]];
        [repeat constructor; simpl; lia|]).
      by rewrite lookup_empty in Ht.
Qed.

Lemma getCandidates_correct_witness :
  getCandidates 64 "standard" 22 = Ok (getCandidates_open 64 standardOpen 22)
  ∧ getCandidates_open 0 standardOpen 22 = [].
Proof.
  assert (Forall safePitch standardOpen) as Hopen
    by (repeat constructor; simpl; lia).
  destruct (getCandidates_correct 64 standardOpen 22) as (_ & _ & _ & H4);
    [unfold safePitch; lia|done|unfold safeInteger; lia|].
  destruct (getCandidates_correct 0 standardOpen 22) as (_ & _ & H3 & _);
    [unfold safePitch; lia|done|unfold safeInteger; lia|].
  split.
  - by apply (H4 "standard" (mkTuning "Standard" standardOpen)).
  - apply H3. intros s o Hs. apply list_elem_of_lookup_2 in Hs.
    each_elem Hs lia.
Defined.



(** ** Facts about binary64 arithmetic *)

Lemma shr_1_nonneg mrs : 0 ≤ shr_m mrs → 0 ≤ shr_m (shr_1 mrs).
Proof. destruct mrs as [[|[p|p|]|[p|p|]] r s]; simpl; lia. Qed.

Lemma iter_shr_1_nonneg n mrs :
  0 ≤ shr_m mrs → 0 ≤ shr_m (SpecFloat.iter_pos shr_1 n mrs).
Proof.
  revert mrs. induction n as [n IH|n IH|]; intros mrs H; simpl;
    auto using shr_1_nonneg.
Qed.

Lemma shr_record_of_loc_m m l : shr_m (shr_record_of_loc m l) = m.
Proof. by destruct l as [|[]]. Qed.

Lemma shr_fexp_nonneg m e l :
  0 ≤ m → 0 ≤ shr_m (fst (shr_fexp prec emax m e l)).
Proof.
  intros Hm. unfold shr_fexp, shr.
  destruct (fexp prec emax (Zdigits2 m + e) - e) as [|n|n]; simpl;
    try apply iter_shr_1_nonneg; by rewrite shr_record_of_loc_m.
Qed.

Lemma round_nearest_even_nonneg m l : 0 ≤ m → 0 ≤ round_nearest_even m l.
Proof.
  intros Hm. destruct l as [|[]]; simpl; try lia. destruct (Z.even m); lia.
Qed.

Lemma binary_round_aux_sgn s m e l :
  0 ≤ m → sgn s (binary_round_aux prec emax s m e l).
Proof.
  intros Hm. unfold binary_round_aux.
  pose proof (shr_fexp_nonneg m e l Hm) as H1.
  destruct (shr_fexp prec emax m e l) as [mrs' e'] eqn:E1. simpl in H1.
  pose proof (shr_fexp_nonneg _ e' loc_Exact
    (round_nearest_even_nonneg _ (loc_of_shr_record mrs') H1)) as H2.
  destruct (shr_fexp prec emax _ e' loc_Exact) as [mrs'' e''] eqn:E2.
  simpl in H2. destruct (shr_m mrs'') as [|q|q]; simpl; [done| |lia].
  by destruct (e'' <=? emax - prec).
Qed.

Lemma binary_round_sgn s m e : sgn s (binary_round prec emax s m e).
Proof.
  unfold binary_round.
  destruct (shl_align m e _) as [mz ez]. by apply binary_round_aux_sgn.
Qed.

Lemma binary_normalize_nonneg z e : 0 ≤ z → sgn false (binary_normalize prec emax z e false).
Proof. destruct z; simpl; [done| |lia]. intros _. apply binary_round_sgn. Qed.

Lemma binary_normalize_not_nan z e sz : binary_normalize prec emax z e sz ≠ S754_nan.
Proof.
  destruct z as [|p|p]; simpl; [done| |].
  - pose proof (binary_round_sgn false p e). by destruct binary_round.
  - pose proof (binary_round_sgn true p e). by destruct binary_round.
Qed.

Lemma ofZ_nonneg z : 0 ≤ z → sgn false (ofZ z).
Proof. apply binary_normalize_nonneg. Qed.

Lemma mul_finite_sgn sx x sy my ey :
  sgn sx x → sgn (xorb sx sy) (mul x (S754_finite sy my ey)).
Proof.
  destruct x as [s|s| |s m e]; simpl; try congruence; intros <-.
  by apply binary_round_aux_sgn.
Qed.

Lemma add_nonneg x y : sgn false x → sgn false y → sgn false (add x y).
Proof.
  destruct x as [s|s| |s m e], y as [s'|s'| |s' m' e']; simpl;
    try congruence; try (by intros -> ->).
  intros -> ->. unfold cond_Zopp. by apply binary_normalize_nonneg.
Qed.

Lemma sub_finite_not_nan x sy my ey :
  x ≠ S754_nan → sub x (S754_finite sy my ey) ≠ S754_nan.
Proof.
  destruct x as [s|s| |s m e]; simpl; try congruence. intros _.
  apply binary_normalize_not_nan.
Qed.

Lemma sgn_not_nan s x : sgn s x → x ≠ S754_nan.
Proof. by destruct x. Qed.

(** The order [ltb] on numbers that are not [NaN]. *)

Lemma ltb_irrefl a : ltb a a = false.
Proof.
  unfold ltb, SFltb. destruct a as [s|[]| |[] m e]; simpl; try done;
    rewrite ?Z.compare_refl, ?Pos.compare_cont_refl; try done; by destruct s.
Qed.

Lemma ltb_negtrans k a b :
  a ≠ S754_nan → ltb k b = true → ltb a b = false → ltb k a = true.
Proof.
  unfold ltb, SFltb.
  destruct k as [sk|[]| |[] mk ek], a as [sa|[]| |[] ma ea],
    b as [sb|[]| |[] mb eb]; simpl; try done; intros _.
  all: compare_cases.
Qed.

Lemma ltb_asym a b : ltb a b = true → ltb b a = false.
Proof.
  unfold ltb, SFltb.
  destruct a as [sa|[]| |[] ma ea], b as [sb|[]| |[] mb eb]; simpl; try done.
  all: compare_cases.
Qed.

Lemma not_lt_Infinity x : x ≠ S754_nan → ltb x Infinity = false → x = Infinity.
Proof. by destruct x as [s|[]| |[] m e]. Qed.

Lemma mul_comm x y : mul x y = mul y x.
Proof.
  destruct x as [s|s| |s m e], y as [s'|s'| |s' m' e']; simpl;
    rewrite ?(xorb_comm s s'); try done.
  by rewrite (Pos.mul_comm m m'), (Z.add_comm e e').
Qed.

(** ** Magnitudes in binary64 arithmetic *)

Lemma digits2_pos_size p : digits2_pos p = Pos.size p.
Proof. induction p as [p IH|p IH|]; simpl; by rewrite ?IH. Qed.

Lemma Zdigits2_bounds m :
  0 < m → 2 ^ (Zdigits2 m - 1) ≤ m < 2 ^ Zdigits2 m.
Proof.
  destruct m as [|p|p]; try lia. intros _. simpl. rewrite digits2_pos_size.
  pose proof (Pos.size_gt p) as Hgt. pose proof (Pos.size_le p) as Hle.
  apply Pos2Z.pos_lt_pos in Hgt. apply Pos2Z.pos_le_pos in Hle.
  rewrite Pos2Z.inj_pow in Hgt, Hle.
  change (Z.pos p~0) with (2 * Z.pos p) in Hle.
  split; [|done].
  replace (Z.pos (Pos.size p)) with (Z.succ (Z.pos (Pos.size p) - 1)) in Hle
    by lia.
  rewrite Z.pow_succ_r in Hle by lia. lia.
Qed.

Lemma Zdigits2_nonneg m : 0 ≤ Zdigits2 m.
Proof. by destruct m. Qed.

Lemma Zdigits2_pos m : 0 < m → 0 < Zdigits2 m.
Proof. by destruct m. Qed.

Lemma Zdigits2_le m k : 0 ≤ m → 0 ≤ k → m < 2 ^ k → Zdigits2 m ≤ k.
Proof.
  intros Hm Hk Hlt. destruct (decide (m = 0)) as [->|Hne]; [done|].
  destruct (Zdigits2_bounds m) as [Hlo _]; [lia|].
  assert (2 ^ (Zdigits2 m - 1) < 2 ^ k) as Hpow by lia.
  apply Z.pow_lt_mono_r_iff in Hpow; lia.
Qed.

Lemma Zdigits2_ge m k : 0 ≤ k → 2 ^ k ≤ m → k < Zdigits2 m.
Proof.
  intros Hk Hle. assert (0 < m) as Hm by (pose proof (Z.pow_pos_nonneg 2 k); lia).
  destruct (Zdigits2_bounds m Hm) as [_ Hhi].
  assert (2 ^ k < 2 ^ Zdigits2 m) as Hpow by lia.
  apply Z.pow_lt_mono_r_iff in Hpow; [done|lia|]. apply Zdigits2_nonneg.
Qed.

Lemma shr_1_half r : 0 ≤ shr_m r → shr_m (shr_1 r) = shr_m r / 2.
Proof.
  destruct r as [[|[p|p|]|p] b c]; simpl; try lia; intros _.
  - done.
  - apply Z.div_unique with 1; lia.
  - apply Z.div_unique with 0; lia.
  - done.
Qed.

Lemma iter_shr_1_div n : ∀ r,
  0 ≤ shr_m r →
  shr_m (SpecFloat.iter_pos shr_1 n r) = shr_m r / 2 ^ Z.pos n.
Proof.
  induction n as [n IH|n IH|]; intros r Hr; simpl SpecFloat.iter_pos.
  - rewrite IH, IH, shr_1_half by auto using iter_shr_1_nonneg, shr_1_nonneg.
    pose proof (Z.pow_pos_nonneg 2 (Z.pos n)) as Hp.
    rewrite !Z.div_div by lia. f_equal.
    change (Z.pos n~1) with (2 * Z.pos n + 1).
    replace (2 * Z.pos n + 1) with (1 + Z.pos n + Z.pos n) by lia.
    rewrite !Z.pow_add_r by lia. lia.
  - rewrite IH, IH by auto using iter_shr_1_nonneg.
    pose proof (Z.pow_pos_nonneg 2 (Z.pos n)) as Hp.
    rewrite !Z.div_div by lia. f_equal.
    change (Z.pos n~0) with (2 * Z.pos n).
    replace (2 * Z.pos n) with (Z.pos n + Z.pos n) by lia.
    rewrite !Z.pow_add_r by lia. lia.
  - by rewrite shr_1_half.
Qed.

Lemma fexp_64 x : fexp prec emax x = Z.max (x - 53) (-1074).
Proof. done. Qed.

Lemma shr_fexp_exact m e :
  0 ≤ m →
  (fexp prec emax (Zdigits2 m + e) - e ≤ 0 →
   shr_fexp prec emax m e loc_Exact = (Build_shr_record m false false, e))
  ∧ (0 < fexp prec emax (Zdigits2 m + e) - e →
     ∃ mrs, shr_fexp prec emax m e loc_Exact
            = (mrs, fexp prec emax (Zdigits2 m + e))
       ∧ shr_m mrs = m / 2 ^ (fexp prec emax (Zdigits2 m + e) - e)).
Proof.
  intros Hm. unfold shr_fexp, shr.
  destruct (fexp prec emax (Zdigits2 m + e) - e) as [|n|n] eqn:E;
    (split; [try done; lia|]); try lia.
  intros _. eexists. split.
  - f_equal. lia.
  - by rewrite iter_shr_1_div.
Qed.

Lemma round_nearest_even_range q l :
  q ≤ round_nearest_even q l ≤ q + 1.
Proof. destruct l as [|[]]; simpl; try lia. destruct (Z.even q); lia. Qed.

Lemma div_pow2_small m n : 0 ≤ m → 0 ≤ n → Zdigits2 m ≤ n → m / 2 ^ n = 0.
Proof.
  intros Hm Hn Hd. apply Z.div_small.
  destruct (decide (m = 0)) as [->|Hne].
  - pose proof (Z.pow_pos_nonneg 2 n). lia.
  - destruct (Zdigits2_bounds m) as [_ Hhi]; [lia|].
    pose proof (Z.pow_le_mono_r 2 (Zdigits2 m) n). lia.
Qed.

Lemma div_pow2_range m n :
  0 < m → 0 ≤ n → n < Zdigits2 m →
  2 ^ (Zdigits2 m - n - 1) ≤ m / 2 ^ n < 2 ^ (Zdigits2 m - n).
Proof.
  intros Hm Hn Hd. destruct (Zdigits2_bounds m Hm) as [Hlo Hhi].
  pose proof (Z.pow_pos_nonneg 2 n) as Hp.
  split.
  - apply Z.div_le_lower_bound; [lia|].
    rewrite <- Z.pow_add_r by lia.
    by replace (n + (Zdigits2 m - n - 1)) with (Zdigits2 m - 1) by lia.
  - apply Z.div_lt_upper_bound; [lia|].
    rewrite <- Z.pow_add_r by lia.
    by replace (n + (Zdigits2 m - n)) with (Zdigits2 m) by lia.
Qed.

Lemma binary_round_aux_bound s m e K :
  0 < m → Zdigits2 m + e ≤ K → -1074 ≤ K → K ≤ 900 →
  magBound (K + 1) (binary_round_aux prec emax s m e loc_Exact)
  ∧ (-1074 ≤ e →
     ∃ m' e', binary_round_aux prec emax s m e loc_Exact = S754_finite s m' e').
Proof.
  intros Hm HK Hlo Hhi. unfold binary_round_aux.
  destruct (shr_fexp_exact m e) as [HA HB]; [lia|].
  pose proof (Zdigits2_pos m Hm) as Hd.
  pose proof (div_pow2_range m) as Hrange.
  pose proof (div_pow2_small m) as Hsmall.
  rewrite fexp_64 in *.
  remember (Zdigits2 m) as d eqn:Ed.
  destruct (Z_le_gt_dec (Z.max (d + e - 53) (-1074) - e) 0) as [Hn|Hn].
  - rewrite (HA Hn). simpl. rewrite (HA Hn). simpl.
    clear HA HB Hrange Hsmall.
    destruct m as [|p|p]; try lia.
    assert ((e <=? emax - prec) = true) as ->
      by (apply Z.leb_le; unfold emax, prec; lia).
    split; [simpl in Ed |- *; rewrite <- Ed; lia|]. intros _. by eexists _, _.
  - destruct (HB ltac:(lia)) as (mrs & -> & Hm1). clear HA HB.
    remember (Z.max (d + e - 53) (-1074) - e) as n eqn:En.
    remember (Z.max (d + e - 53) (-1074)) as e1 eqn:Ee1.
    pose proof (round_nearest_even_range (shr_m mrs) (loc_of_shr_record mrs))
      as Hr.
    remember (round_nearest_even (shr_m mrs) (loc_of_shr_record mrs)) as m2
      eqn:Em2.
    assert (0 ≤ shr_m mrs) as Hm1pos.
    { rewrite Hm1. apply Z.div_pos; [lia|]. apply Z.pow_pos_nonneg; lia. }
    assert (m2 < 2 ^ Z.max (d - n + 1) 1
            ∧ (-1074 ≤ e → 1 ≤ m2)
            ∧ (m2 = 0 → e < -1074)) as (Hm2hi & Hm2lo & Hm2z).
    { destruct (Z_lt_le_dec n d) as [Hlt|Hge].
      - destruct (Hrange n Hm ltac:(lia) Hlt) as [H1 H2].
        rewrite <- Hm1 in H1, H2. clear Hrange Hsmall Hm1.
        pose proof (Z.pow_pos_nonneg 2 (d - n - 1) ltac:(lia) ltac:(lia)).
        replace (Z.max (d - n + 1) 1) with (Z.succ (d - n)) by lia.
        rewrite Z.pow_succ_r by lia. repeat split; lia.
      - rewrite (Hsmall n) in Hm1 by lia. clear Hrange Hsmall.
        replace (Z.max (d - n + 1) 1) with 1 by lia.
        repeat split; lia. }
    clear Hrange Hsmall Hm1.
    destruct (shr_fexp_exact m2 e1) as [HA HB]; [lia|].
    rewrite fexp_64 in *.
    assert (Zdigits2 m2 ≤ Z.max (d - n + 1) 1) as Hd2
      by (apply Zdigits2_le; lia).
    pose proof (Zdigits2_bounds m2) as Hb2.
    pose proof (Zdigits2_nonneg m2) as Hd2pos.
    remember (Zdigits2 m2) as d2 eqn:Ed2.
    destruct (Z_le_gt_dec (Z.max (d2 + e1 - 53) (-1074) - e1) 0)
      as [Hn2|Hn2].
    + rewrite (HA Hn2). simpl. clear HA HB Hb2 Hm2hi.
      destruct m2 as [|p2|p2]; [| |lia].
      * split; [done|]. intros He. specialize (Hm2z eq_refl). lia.
      * assert ((e1 <=? emax - prec) = true) as ->
          by (apply Z.leb_le; unfold emax, prec; lia).
        split; [simpl in Ed2 |- *; rewrite <- Ed2; lia|]. intros _.
        by eexists _, _.
    + destruct (HB ltac:(lia)) as (mrs2 & -> & Hm3). clear HA HB.
      assert (d2 = 54) as Hd54 by lia. subst d2.
      replace (Z.max (Zdigits2 m2 + e1 - 53) (-1074) - e1) with 1 in Hm3
        by lia.
      assert (0 < m2) as Hm2pos by (destruct m2; simpl in Hd54; lia).
      specialize (Hb2 Hm2pos). rewrite Hd54 in Hb2.
      change (2 ^ (54 - 1)) with (2 ^ 53) in Hb2.
      assert (2 ^ 52 ≤ shr_m mrs2 < 2 ^ 53) as Hm3r.
      { rewrite Hm3. change (2 ^ 1) with 2. clear -Hb2. split.
        - apply Z.div_le_lower_bound; lia.
        - apply Z.div_lt_upper_bound; lia. }
      clear Hm3 Hm2hi Hb2.
      destruct (shr_m mrs2) as [|p3|p3]; [lia| |lia].
      assert ((Z.max (Zdigits2 m2 + e1 - 53) (-1074) <=? emax - prec) = true)
        as -> by (apply Z.leb_le; unfold emax, prec; lia).
      split; [|intros _; by eexists _, _].
      assert (Zdigits2 (Z.pos p3) ≤ 53) as Hd3 by (apply Zdigits2_le; lia).
      unfold magBound. clear Hm3r. lia.
Qed.

Lemma Zdigits2_shift m k :
  0 < m → 0 ≤ k → Zdigits2 (m * 2 ^ k) = Zdigits2 m + k.
Proof.
  intros Hm Hk. destruct (Zdigits2_bounds m Hm) as [Hlo Hhi].
  pose proof (Zdigits2_pos m Hm) as Hd.
  pose proof (Z.pow_pos_nonneg 2 k ltac:(lia) Hk) as Hp.
  assert (2 ^ (Zdigits2 m + k - 1) ≤ m * 2 ^ k < 2 ^ (Zdigits2 m + k))
    as [H1 H2].
  { replace (Zdigits2 m + k - 1) with (Zdigits2 m - 1 + k) by lia.
    rewrite !Z.pow_add_r by lia. nia. }
  apply Z.le_antisymm.
  - apply Zdigits2_le; lia.
  - pose proof (Zdigits2_ge (m * 2 ^ k) (Zdigits2 m + k - 1) ltac:(lia) H1).
    lia.
Qed.

Lemma iter_xO m d : Z.pos (Pos.iter xO m d) = Z.pos m * 2 ^ Z.pos d.
Proof.
  induction d as [|d IH] using Pos.peano_ind.
  - simpl. lia.
  - rewrite Pos.iter_succ, Pos2Z.inj_succ, Z.pow_succ_r by lia.
    change (Z.pos (Pos.iter xO m d)~0) with (2 * Z.pos (Pos.iter xO m d)).
    rewrite IH. lia.
Qed.

Lemma shl_align_spec m e e' :
  snd (shl_align m e e') = Z.min e e'
  ∧ Z.pos (fst (shl_align m e e')) = Z.pos m * 2 ^ (e - Z.min e e').
Proof.
  unfold shl_align. destruct (e' - e) as [|d|d] eqn:E; simpl.
  - replace (Z.min e e') with e by lia. rewrite Z.sub_diag. lia.
  - replace (Z.min e e') with e by lia. rewrite Z.sub_diag. lia.
  - replace (Z.min e e') with e' by lia.
    replace (e - e') with (Z.pos d) by lia. split; [done|apply iter_xO].
Qed.

Lemma magBound_mono K K' x : K ≤ K' → magBound K x → magBound K' x.
Proof. destruct x; simpl; try done. lia. Qed.

Lemma binary_round_bound s m e K :
  Zdigits2 (Z.pos m) + e ≤ K → -1074 ≤ e → K ≤ 900 →
  magBound (K + 1) (binary_round prec emax s m e)
  ∧ ∃ m' e', binary_round prec emax s m e = S754_finite s m' e'.
Proof.
  intros HK He Hhi. unfold binary_round.
  destruct (shl_align_spec m e (fexp prec emax (Z.pos (digits2_pos m) + e)))
    as [Hez Hmz].
  destruct (shl_align m e _) as [mz ez]. simpl in Hez, Hmz.
  rewrite fexp_64 in Hez, Hmz.
  assert (Zdigits2 (Z.pos mz) + ez = Zdigits2 (Z.pos m) + e) as Hdig.
  { rewrite Hmz, Zdigits2_shift by lia. lia. }
  pose proof (Zdigits2_pos (Z.pos m) ltac:(lia)) as Hd.
  destruct (binary_round_aux_bound s (Z.pos mz) ez K) as [Hb Hf];
    [lia|lia|lia|lia|].
  split; [done|]. apply Hf. clear Hmz. lia.
Qed.

Lemma binary_normalize_bound z e K sz :
  Zdigits2 z + e ≤ K → -1074 ≤ e → K ≤ 900 →
  magBound (K + 1) (binary_normalize prec emax z e sz)
  ∧ (z < 0 → ∃ m' e', binary_normalize prec emax z e sz = S754_finite true m' e')
  ∧ (0 < z → ∃ m' e', binary_normalize prec emax z e sz = S754_finite false m' e')
  ∧ (z = 0 → binary_normalize prec emax z e sz = S754_zero sz).
Proof.
  intros HK He Hhi. destruct z as [|p|p]; simpl.
  - repeat split; try done; lia.
  - destruct (binary_round_bound false p e K HK He Hhi) as [Hb Hf].
    repeat split; try done; lia.
  - destruct (binary_round_bound true p e K HK He Hhi) as [Hb Hf].
    repeat split; try done; lia.
Qed.

Lemma ofZ_bound z : 0 ≤ z < 2 ^ 53 → magBound 54 (ofZ z).
Proof.
  intros Hz. unfold ofZ.
  refine (proj1 (binary_normalize_bound z 0 53 false _ _ _)); [|lia|lia].
  pose proof (Zdigits2_le z 53). lia.
Qed.

Lemma mul_bound Kx Ky x y :
  magBound Kx x → magBound Ky y → -1074 ≤ Kx + Ky ≤ 900 →
  magBound (Kx + Ky + 1) (mul x y).
Proof.
  destruct x as [sx|sx| |sx mx ex], y as [sy|sy| |sy my ey]; simpl; try done.
  intros [Hex Hx] [Hey Hy] HK.
  apply (binary_round_aux_bound _ (Z.pos (mx * my)) (ex + ey) (Kx + Ky));
    try lia.
  destruct (Zdigits2_bounds (Z.pos mx)) as [_ H1]; [lia|].
  destruct (Zdigits2_bounds (Z.pos my)) as [_ H2]; [lia|].
  pose proof (Zdigits2_pos (Z.pos mx) ltac:(lia)).
  pose proof (Zdigits2_pos (Z.pos my) ltac:(lia)).
  assert (Zdigits2 (Z.pos (mx * my)) ≤ Zdigits2 (Z.pos mx) + Zdigits2 (Z.pos my)).
  { apply Zdigits2_le; [lia|lia|]. rewrite Z.pow_add_r by lia.
    rewrite Pos2Z.inj_mul. nia. }
  clear H1 H2. simpl in *. lia.
Qed.

Lemma Zdigits2_abs_le z k : 0 ≤ k → Z.abs z < 2 ^ k → Zdigits2 z ≤ k.
Proof.
  intros Hk Hz. destruct z as [|p|p]; [done| |].
  - apply Zdigits2_le; lia.
  - change (Zdigits2 (Z.neg p)) with (Zdigits2 (Z.pos p)).
    apply Zdigits2_le; lia.
Qed.

Lemma shl_align_fst m e ez :
  ez ≤ e → Z.pos (fst (shl_align m e ez)) = Z.pos m * 2 ^ (e - ez).
Proof.
  intros He. destruct (shl_align_spec m e ez) as [_ H].
  by replace (Z.min e ez) with ez in H by lia.
Qed.

Lemma aligned_lt K m e ez :
  -1074 ≤ ez ≤ e → Zdigits2 (Z.pos m) + e ≤ K →
  Z.pos (fst (shl_align m e ez)) < 2 ^ (K - ez).
Proof.
  intros He HK. rewrite shl_align_fst by lia.
  destruct (Zdigits2_bounds (Z.pos m)) as [_ Hhi]; [lia|].
  pose proof (Zdigits2_pos (Z.pos m) ltac:(lia)) as Hd.
  pose proof (Z.pow_pos_nonneg 2 (e - ez) ltac:(lia) ltac:(lia)) as Hp.
  assert (2 ^ Zdigits2 (Z.pos m) * 2 ^ (e - ez) ≤ 2 ^ (K - ez)) as Hle.
  { rewrite <- Z.pow_add_r by lia. apply Z.pow_le_mono_r; lia. }
  nia.
Qed.

Lemma aligned_sum_digits K mx ex my ey z :
  -1074 ≤ ex → -1074 ≤ ey →
  Zdigits2 (Z.pos mx) + ex ≤ K → Zdigits2 (Z.pos my) + ey ≤ K →
  Z.abs z ≤ Z.pos (fst (shl_align mx ex (Z.min ex ey)))
            + Z.pos (fst (shl_align my ey (Z.min ex ey))) →
  Zdigits2 z + Z.min ex ey ≤ K + 1.
Proof.
  intros Hex Hey Hx Hy Hz.
  pose proof (aligned_lt K mx ex (Z.min ex ey) ltac:(lia) Hx) as H1.
  pose proof (aligned_lt K my ey (Z.min ex ey) ltac:(lia) Hy) as H2.
  pose proof (Zdigits2_pos (Z.pos mx) ltac:(lia)) as Hd.
  assert (Zdigits2 z ≤ K - Z.min ex ey + 1); [|lia].
  apply Zdigits2_abs_le; [lia|].
  rewrite Z.pow_add_r by lia. lia.
Qed.

Lemma add_bound K x y :
  magBound K x → magBound K y → K ≤ 898 → magBound (K + 2) (add x y).
Proof.
  intros Hx Hy HK.
  destruct x as [sx|sx| |sx mx ex], y as [sy|sy| |sy my ey]; try done.
  - by destruct sx, sy.
  - eapply magBound_mono; [|exact Hy]. lia.
  - eapply magBound_mono; [|exact Hx]. lia.
  - destruct Hx as [Hex Hx], Hy as [Hey Hy].
    unfold add, SFadd. cbv zeta.
    fold (magBound (K + 2)). replace (K + 2) with (K + 1 + 1) by lia.
    refine (proj1 (binary_normalize_bound _ _ (K + 1) _ _ _ _)); [|lia|lia].
    apply (aligned_sum_digits K mx ex my ey); try done.
    unfold cond_Zopp.
    generalize (fst (shl_align mx ex (Z.min ex ey)))
               (fst (shl_align my ey (Z.min ex ey))).
    intros p q. destruct sx, sy; lia.
Qed.

Lemma sub_bound K x y :
  magBound K x → magBound K y → K ≤ 898 → magBound (K + 2) (sub x y).
Proof.
  intros Hx Hy HK.
  destruct x as [sx|sx| |sx mx ex], y as [sy|sy| |sy my ey]; try done.
  - by destruct sx, sy.
  - simpl. simpl in Hy. lia.
  - eapply magBound_mono; [|exact Hx]. lia.
  - destruct Hx as [Hex Hx], Hy as [Hey Hy].
    unfold sub, SFsub. cbv zeta.
    fold (magBound (K + 2)). replace (K + 2) with (K + 1 + 1) by lia.
    refine (proj1 (binary_normalize_bound _ _ (K + 1) _ _ _ _)); [|lia|lia].
    apply (aligned_sum_digits K mx ex my ey); try done.
    unfold cond_Zopp.
    generalize (fst (shl_align mx ex (Z.min ex ey)))
               (fst (shl_align my ey (Z.min ex ey))).
    intros p q. destruct sx, sy; lia.
Qed.

Lemma scaled_aligned s m e ez :
  -1074 ≤ ez ≤ e →
  scaled (S754_finite s m e)
  = cond_Zopp s (Z.pos (fst (shl_align m e ez))) * 2 ^ (ez + 1074).
Proof.
  intros He. simpl. rewrite shl_align_fst by lia.
  replace (e + 1074) with (e - ez + (ez + 1074)) by lia.
  rewrite Z.pow_add_r by lia. unfold cond_Zopp. destruct s; lia.
Qed.

(** On finite numbers the sign of a difference tells which is less. *)
Lemma sub_negative K a b :
  magBound K a → magBound K b → K ≤ 898 →
  ltb (sub a b) zero = bool_decide (scaled a < scaled b).
Proof.
  intros Ha Hb HK.
  destruct a as [sa|sa| |sa ma ea], b as [sb|sb| |sb mb eb]; try done.
  - by destruct sa, sb.
  - simpl. unfold cond_Zopp.
    pose proof (Z.pow_pos_nonneg 2 (eb + 1074) ltac:(lia)).
    destruct Hb as [Heb _]. specialize (H ltac:(lia)).
    destruct sb; simpl; symmetry;
      [apply bool_decide_eq_false|apply bool_decide_eq_true]; lia.
  - simpl. unfold cond_Zopp.
    pose proof (Z.pow_pos_nonneg 2 (ea + 1074) ltac:(lia)).
    destruct Ha as [Hea _]. specialize (H ltac:(lia)).
    destruct sa; simpl; symmetry;
      [apply bool_decide_eq_true|apply bool_decide_eq_false]; lia.
  - destruct Ha as [Hea Ha], Hb as [Heb Hb].
    rewrite (scaled_aligned sa ma ea (Z.min ea eb)) by lia.
    rewrite (scaled_aligned sb mb eb (Z.min ea eb)) by lia.
    unfold sub, SFsub. cbv zeta.
    assert (Zdigits2 (cond_Zopp sa (Z.pos (fst (shl_align ma ea (Z.min ea eb))))
              - cond_Zopp sb (Z.pos (fst (shl_align mb eb (Z.min ea eb)))))
            + Z.min ea eb ≤ K + 1) as Hdig.
    { apply (aligned_sum_digits K ma ea mb eb); try done.
      unfold cond_Zopp.
      generalize (fst (shl_align ma ea (Z.min ea eb)))
                 (fst (shl_align mb eb (Z.min ea eb))).
      intros p q. destruct sa, sb; lia. }
    pose proof (Z.pow_pos_nonneg 2 (Z.min ea eb + 1074) ltac:(lia) ltac:(lia))
      as Hp.
    revert Hdig.
    generalize (cond_Zopp sa (Z.pos (fst (shl_align ma ea (Z.min ea eb)))))
               (cond_Zopp sb (Z.pos (fst (shl_align mb eb (Z.min ea eb))))).
    intros u w Hdig.
    destruct (binary_normalize_bound (u - w) (Z.min ea eb) (K + 1) false)
      as (_ & Hneg & Hpos & Hzero); [done|lia|lia|].
    destruct (Z.lt_trichotomy (u - w) 0) as [Hz|[Hz|Hz]].
    + destruct (Hneg Hz) as (m' & e' & ->). simpl.
      symmetry. apply bool_decide_eq_true. nia.
    + rewrite (Hzero Hz). simpl.
      symmetry. apply bool_decide_eq_false. nia.
    + destruct (Hpos Hz) as (m' & e' & ->). simpl.
      symmetry. apply bool_decide_eq_false. nia.
Qed.

(** ** The single-pitch path *)

Lemma foldr_min_init l x a :
  foldr Z.min (Z.min x a) l = Z.min a (foldr Z.min x l).
Proof. induction l as [|b l IH]; simpl; [|rewrite IH]; lia. Qed.

Lemma fold_left_min l x : fold_left Z.min l x = foldr Z.min x l.
Proof.
  revert x. induction l as [|a l IH]; intros x; simpl; [done|].
  by rewrite IH, foldr_min_init.
Qed.

Lemma mapE_moveDistance c prior :
  mapE (moveDistance c) (Some <$> prior) = Ok (map (movement c) prior).
Proof.
  induction prior as [|lp r IH]; [done|]. rewrite fmap_cons. simpl.
  rewrite IH. simpl. unfold movement. do 3 f_equal. lia.
Qed.

Lemma singleCost_spec c prior :
  singleCost c (Some <$> prior) = Ok (specSingleCost c prior).
Proof.
  unfold singleCost, specSingleCost. rewrite length_fmap.
  destruct prior as [|lp r].
  - done.
  - change (0 <? length (lp :: r))%nat with true. cbv iota.
    rewrite mapE_moveDistance. cbn -[mul add sub ofZ].
    by rewrite fold_left_min, (mul_comm c0_5).
Qed.

Lemma specSingleCost_not_nan c prior :
  0 ≤ p_fret c → specSingleCost c prior ≠ S754_nan.
Proof.
  intros Hf. unfold specSingleCost.
  assert (sgn false (mul (ofZ (p_fret c)) c0_1)) as Hbase.
  { apply (mul_finite_sgn false _ false). by apply ofZ_nonneg. }
  assert (sgn false
    match prior with
    | [] => mul (ofZ (p_fret c)) c0_1
    | lp :: r => add (mul (ofZ (p_fret c)) c0_1)
        (mul c0_5 (ofZ (foldr Z.min (movement c lp) (map (movement c) r))))
    end) as Hmoved.
  { destruct prior as [|lp r]; [done|]. apply add_nonneg; [done|].
    rewrite mul_comm. apply (mul_finite_sgn false _ false), ofZ_nonneg.
    assert (∀ l x, 0 ≤ x → Forall (Z.le 0) l → 0 ≤ foldr Z.min x l) as Hmin.
    { induction l as [|a l IH]; simpl; intros x Hx Hl; [done|].
      apply Forall_cons in Hl as [Ha Hl]. specialize (IH x Hx Hl). lia. }
    apply Hmin; [unfold movement; lia|].
    apply Forall_forall. intros x Hx.
    apply list_elem_of_fmap in Hx as (q & -> & _). unfold movement. lia. }
  destruct (p_fret c =? 0).
  - apply sub_finite_not_nan. by eapply sgn_not_nan.
  - by eapply sgn_not_nan.
Qed.

Lemma firstMin_keep K l i b c :
  firstMin K l i b → ltb (K c) (K b) = false → firstMin K (l ++ [c]) i b.
Proof.
  intros (Hi & Hmin & Hfirst) Hc. split; [|split].
  - by apply lookup_app_l_Some.
  - intros c' [Hin| ->%list_elem_of_singleton]%elem_of_app; auto.
  - intros j c' Hj Hl. apply (Hfirst j c' Hj).
    apply lookup_lt_Some in Hi.
    by rewrite lookup_app_l in Hl by lia.
Qed.

Lemma firstMin_replace K l i b c :
  (∀ c', c' ∈ l → K c' ≠ S754_nan) →
  firstMin K l i b → ltb (K c) (K b) = true →
  firstMin K (l ++ [c]) (length l) c.
Proof.
  intros Hnan (Hi & Hmin & Hfirst) Hc.
  assert (∀ c', c' ∈ l → ltb (K c) (K c') = true) as Hlt.
  { intros c' Hin. apply (ltb_negtrans _ _ (K b)); auto. }
  split; [|split].
  - by rewrite lookup_app_r, Nat.sub_diag by lia.
  - intros c' [Hin| ->%list_elem_of_singleton]%elem_of_app.
    + by apply ltb_asym, Hlt.
    + apply ltb_irrefl.
  - intros j c' Hj Hl. rewrite lookup_app_l in Hl by lia.
    apply Hlt. by eapply list_elem_of_lookup_2.
Qed.

Lemma singleLoop_firstMin prior rest :
  ∀ seen i b,
    Forall (λ c, 0 ≤ p_fret c) (seen ++ rest) →
    firstMin (λ c, specSingleCost c prior) seen i b →
    ∃ i' b',
      firstMin (λ c, specSingleCost c prior) (seen ++ rest) i' b'
      ∧ singleLoop (Some <$> prior) rest (Some b) (specSingleCost b prior)
        = Ok (Some b').
Proof.
  induction rest as [|c rest IH]; intros seen i b Hall Hmin.
  - rewrite app_nil_r. by exists i, b.
  - simpl. rewrite singleCost_spec. simpl.
    replace (seen ++ c :: rest) with ((seen ++ [c]) ++ rest) in *
      by by rewrite <- app_assoc.
    destruct (ltb (specSingleCost c prior) (specSingleCost b prior)) eqn:E.
    + apply (IH _ (length seen)); [done|].
      eapply firstMin_replace; [|done..].
      intros c' Hin. apply specSingleCost_not_nan.
      eapply Forall_forall in Hall; [done|]. set_solver.
    + apply (IH _ i); [done|]. by apply firstMin_keep.
Qed.

(** C3.  A single pitch with candidates on the six strings at frets below
    [2^52], the prior positions, [prior], being such positions too, so that
    the movement of line 29 is computed without rounding: each candidate is
    given the cost of the specification, computed in binary64, and
    [optimizeChord] returns the candidate of least cost, the first one in
    generator order among those of least cost.  Pitch 40 in standard tuning
    with no prior positions gives string 5, fret 0, at cost [-0.3]. *)
Theorem single_pitch_choice (cands prior : list Position) :
  cands ≠ [] →
  Forall safePosition cands →
  Forall safePosition prior →
  (∀ c, c ∈ cands → singleCost c (Some <$> prior) = Ok (specSingleCost c prior))
  ∧ (∃ i best,
       firstMin (λ c, specSingleCost c prior) cands i best
       ∧ optimizeChord [cands] (Some <$> prior) = Ok [Some best])
  ∧ (getCandidates 40 "standard" maxFret_default ≫= (λ cs, optimizeChord [cs] []))
    = Ok [Some (mkPos 5 0)]
  ∧ specSingleCost (mkPos 5 0) [] = S754_finite true 5404319552844595 (-54).
Proof.
  intros Hne Hsafe _.
  assert (Forall (λ c, 0 ≤ p_fret c) cands) as Hall.
  { eapply Forall_impl; [exact Hsafe|]. by intros c (_ & ? & _). }
  clear Hsafe. split; [intros c _; apply singleCost_spec|].
  split; [|by vm_compute].
  destruct cands as [|c rest]; [done|]. clear Hne.
  unfold optimizeChord. simpl. rewrite singleCost_spec. simpl.
  assert (specSingleCost c prior ≠ S754_nan) as Hnan.
  { apply specSingleCost_not_nan. by apply Forall_cons in Hall as [? _]. }
  assert (firstMin (λ c, specSingleCost c prior) [c] 0 c) as Hfirst.
  { split; [done|]. split.
    - intros c' ->%list_elem_of_singleton. apply ltb_irrefl.
    - intros j c' Hj. lia. }
  destruct (singleLoop_firstMin prior rest [c] 0%nat c Hall Hfirst)
    as (i & best & Hmin & Hloop).
  exists i, best. split; [done|].
  destruct (ltb (specSingleCost c prior) Infinity) eqn:E.
  - by rewrite Hloop.
  - rewrite <- (not_lt_Infinity _ Hnan E). by rewrite Hloop.
Qed.

Lemma single_pitch_choice_witness :
  ∃ i best,
    firstMin (λ c, specSingleCost c [mkPos 5 0])
      [mkPos 4 3; mkPos 5 8] i best
    ∧ optimizeChord [[mkPos 4 3; mkPos 5 8]] [Some (mkPos 5 0)]
      = Ok [Some best].
Proof.
  destruct (single_pitch_choice [mkPos 4 3; mkPos 5 8] [mkPos 5 0])
    as (_ & H & _).
  - done.
  - repeat constructor; simpl; lia.
  - repeat constructor; simpl; lia.
  - exact H.
Defined.

(** Costs are rounded.  After the positions (4, 6) and (5, 0) the candidates
    (4, 6) and (5, 1) would cost the same in exact arithmetic, [0.6 + 0] and
    [0.1 + 0.5]; in binary64 [6 * 0.1] is [0.6000000000000001], and the
    second candidate is returned, not the first. *)
Remark rounded_costs_are_not_tied :
  optimizeChord [[mkPos 4 6; mkPos 5 1]] [Some (mkPos 4 6); Some (mkPos 5 0)]
  = Ok [Some (mkPos 5 1)]
  ∧ ltb (specSingleCost (mkPos 5 1) [mkPos 4 6; mkPos 5 0])
        (specSingleCost (mkPos 4 6) [mkPos 4 6; mkPos 5 0]) = true.
Proof. split; by vm_compute. Qed.


(** ** The beam search: structure *)

Lemma expandStep_fold s cands next :
  fold_left (expandStep s) cands next = next ++ omap (expandOne s) cands.
Proof.
  revert next. induction cands as [|c cands IH]; intros next; simpl.
  - by rewrite app_nil_r.
  - rewrite IH. unfold expandStep, expandOne.
    destruct (decide (p_string c ∈ used s)); [done|].
    destruct (5 <? chordSpan (positions s) c); [done|].
    by rewrite <- app_assoc.
Qed.

Lemma expandBeam_bind beam cands :
  expandBeam beam cands = beam ≫= λ s, omap (expandOne s) cands.
Proof.
  unfold expandBeam.
  assert (∀ acc, fold_left
    (λ next state, fold_left (expandStep state) cands next) beam acc
    = acc ++ (beam ≫= λ s, omap (expandOne s) cands)) as H.
  { induction beam as [|s beam IH]; intros acc; simpl.
    - by rewrite app_nil_r.
    - by rewrite IH, expandStep_fold, app_assoc. }
  apply H.
Qed.

Lemma foldr_max_init l x a :
  foldr Z.max (Z.max x a) l = Z.max a (foldr Z.max x l).
Proof. induction l as [|b l IH]; simpl; [|rewrite IH]; lia. Qed.

Lemma fold_left_max l x : fold_left Z.max l x = foldr Z.max x l.
Proof.
  revert x. induction l as [|a l IH]; intros x; simpl; [done|].
  by rewrite IH, foldr_max_init.
Qed.

Lemma filter_pos_nonzero (l : list Z) :
  Forall (Z.le 0) l → filter (λ f, 0 < f) l = filter (λ f, f ≠ 0) l.
Proof.
  induction 1 as [|x l Hx Hl IH]; [done|].
  rewrite !filter_cons, IH.
  destruct (decide (0 < x)), (decide (x ≠ 0)); (done || lia).
Qed.

Lemma chordSpan_spec ps c :
  Forall (λ p, 0 ≤ p_fret p) (ps ++ [c]) →
  chordSpan ps c = specSpan (map p_fret (ps ++ [c])).
Proof.
  intros H. unfold chordSpan, specSpan, spanOf.
  rewrite map_app. simpl. rewrite filter_pos_nonzero.
  - destruct (filter _ _) as [|f r]; [done|].
    by rewrite fold_left_max, fold_left_min.
  - change [p_fret c] with (map p_fret [c]). rewrite <- map_app.
    by apply Forall_fmap.
Qed.

Lemma expandOne_spec s c :
  used s = list_to_set (strings (positions s)) →
  Forall (λ p, 0 ≤ p_fret p) (positions s ++ [c]) →
  expandOne s c = if decide (admissible s c) then Some (specChild s c) else None.
Proof.
  intros Hu Hf. unfold expandOne, admissible, specChild, chordCost.
  rewrite (chordSpan_spec _ _ Hf), Hu.
  destruct (decide (p_string c ∈ list_to_set (strings (positions s))))
    as [Hin|Hin]; rewrite elem_of_list_to_set in Hin.
  - rewrite decide_False; [done|]. by intros [? _].
  - destruct (Z.ltb_spec 5 (specSpan (map p_fret (positions s ++ [c])))).
    + rewrite decide_False; [done|]. intros [_ ?]. lia.
    + by rewrite decide_True.
Qed.

Lemma omap_expandOne s cands :
  used s = list_to_set (strings (positions s)) →
  Forall (λ p, 0 ≤ p_fret p) (positions s) →
  Forall (λ p, 0 ≤ p_fret p) cands →
  omap (expandOne s) cands = specChild s <$> filter (admissible s) cands.
Proof.
  intros Hu Hs. induction 1 as [|c cands Hc Hcs IH]; [done|].
  csimpl. rewrite filter_cons, IH, expandOne_spec; [|done|].
  - by destruct (decide (admissible s c)).
  - apply Forall_app. split; [done|]. by apply Forall_singleton.
Qed.

Lemma sortInsert_perm x l : sortInsert x l ≡ₚ x :: l.
Proof.
  induction l as [|y l IH]; simpl; [done|].
  destruct (cmpNeg x y); [done|]. by rewrite IH, Permutation_swap.
Qed.

Lemma sortByCost_perm l : sortByCost l ≡ₚ l.
Proof.
  unfold sortByCost.
  assert (∀ acc, fold_left (λ acc x, sortInsert x acc) l acc ≡ₚ acc ++ l) as H.
  { induction l as [|x l IH]; intros acc; simpl.
    - by rewrite app_nil_r.
    - rewrite IH, sortInsert_perm. simpl. apply Permutation_middle. }
  apply H.
Qed.

Lemma beamStep_elem s beam cands :
  s ∈ beamStep beam cands → s ∈ expandBeam beam cands.
Proof.
  unfold beamStep. intros H%subseteq_take.
  by rewrite sortByCost_perm in H.
Qed.

Lemma beamSearch_snoc css cs :
  beamSearch (css ++ [cs]) = beamStep (beamSearch css) cs.
Proof. unfold beamSearch. by rewrite fold_left_app. Qed.

Lemma pathCostFrom_snoc acc chosen todo c :
  pathCostFrom acc chosen (todo ++ [c])
  = chordCost (pathCostFrom acc chosen todo) c (chordSpan (chosen ++ todo) c).
Proof.
  revert acc chosen. induction todo as [|d todo IH]; intros acc chosen; simpl.
  - by rewrite app_nil_r.
  - by rewrite IH, <- app_assoc.
Qed.

Lemma goodState_frets css s :
  Forall (Forall wfPosition) css → goodState css s →
  Forall (λ p, 0 ≤ p_fret p) (positions s).
Proof.
  intros Hwf (Hin & _). revert Hwf.
  induction Hin as [|p cs ps css Hp Hin IH]; intros Hwf; [done|].
  apply Forall_cons in Hwf as [Hcs Hcss]. constructor; [|by apply IH].
  eapply Forall_forall in Hcs; [|done]. apply Hcs.
Qed.

Lemma wfPosition_frets cs :
  Forall wfPosition cs → Forall (λ p, 0 ≤ p_fret p) cs.
Proof. intros H. eapply Forall_impl; [done|]. by intros p [_ ?]. Qed.

Lemma goodState_child css cs s c :
  Forall (Forall wfPosition) css → Forall wfPosition cs →
  goodState css s → c ∈ cs → admissible s c →
  goodState (css ++ [cs]) (specChild s c).
Proof.
  intros Hwf Hcs Hs Hc [Hfree Hspan].
  pose proof (goodState_frets _ _ Hwf Hs) as Hfr.
  destruct Hs as (Hin & Hnd & Hu & Hsp & Hcost).
  unfold goodState, specChild. simpl. split; [|split; [|split; [|split]]].
  - apply Forall2_app; [done|]. by constructor.
  - unfold strings. rewrite map_app. apply NoDup_app. split; [done|]. split.
    + intros x Hx ->%list_elem_of_singleton. by apply Hfree.
    + apply NoDup_singleton.
  - unfold strings. rewrite map_app, list_to_set_app_L, Hu. simpl.
    by rewrite (right_id_L ∅ (∪)), (comm_L (∪)).
  - done.
  - unfold pathCost. rewrite pathCostFrom_snoc. simpl.
    fold (pathCost (positions s)). rewrite <- Hcost. unfold chordCost.
    rewrite chordSpan_spec; [done|].
    apply Forall_app. split; [done|]. apply Forall_singleton.
    eapply Forall_forall in Hcs; [|done]. apply Hcs.
Qed.

Lemma specExpand_elem s' beam cands :
  s' ∈ specExpand beam cands ↔
  ∃ s c, s ∈ beam ∧ c ∈ cands ∧ admissible s c ∧ s' = specChild s c.
Proof.
  unfold specExpand. rewrite list_elem_of_bind. split.
  - intros (s & Hs' & Hs). apply list_elem_of_fmap in Hs' as (c & -> & Hc).
    apply list_elem_of_filter in Hc as [Ha Hc]. by exists s, c.
  - intros (s & c & Hs & Hc & Ha & ->). exists s. split; [|done].
    apply list_elem_of_fmap. exists c. split; [done|].
    by apply list_elem_of_filter.
Qed.

Lemma expandBeam_spec css beam cands :
  Forall (Forall wfPosition) css → Forall wfPosition cands →
  Forall (goodState css) beam →
  expandBeam beam cands = specExpand beam cands.
Proof.
  intros Hwf Hcs Hbeam. rewrite expandBeam_bind. unfold specExpand.
  induction Hbeam as [|s beam Hs Hbeam IH]; [done|].
  csimpl. rewrite IH. f_equal.
  apply omap_expandOne; [apply Hs| |by apply wfPosition_frets].
  by eapply goodState_frets.
Qed.

Lemma goodState_initial : Forall (goodState []) initialBeam.
Proof.
  apply Forall_singleton. unfold goodState. simpl.
  repeat split; try done; constructor.
Qed.

Lemma beamSearch_good css :
  Forall (Forall wfPosition) css → Forall (goodState css) (beamSearch css).
Proof.
  induction css as [|cs css IH] using rev_ind; intros Hwf.
  - apply goodState_initial.
  - apply Forall_app in Hwf as [Hwf Hcs]. rewrite Forall_singleton in Hcs.
    rewrite beamSearch_snoc. apply Forall_forall. intros s' Hs'.
    apply beamStep_elem in Hs'.
    specialize (IH Hwf).
    rewrite (expandBeam_spec css _ _ Hwf Hcs IH) in Hs'.
    apply specExpand_elem in Hs' as (s & c & Hs & Hc & Ha & ->).
    apply goodState_child; auto.
    by eapply Forall_forall in IH.
Qed.

(** ** The span, pairwise *)

Lemma foldr_max_elem (f : Z) r :
  foldr Z.max f r ∈ f :: r ∧ ∀ x, x ∈ f :: r → x ≤ foldr Z.max f r.
Proof.
  induction r as [|a r [IH1 IH2]]; simpl.
  - split; [left|]. by intros x ->%list_elem_of_singleton.
  - split.
    + destruct (Z.max_spec a (foldr Z.max f r)) as [[_ ->]|[_ ->]].
      * apply elem_of_cons in IH1 as [->|?]; [left|do 2 right]; done.
      * right; left.
    + intros x Hx. assert (x = a ∨ x ∈ f :: r) as [->|Hx'].
      { apply elem_of_cons in Hx as [->|Hx]; [right; left|].
        apply elem_of_cons in Hx as [->|Hx]; [by left|right; by right]. }
      * lia.
      * specialize (IH2 x Hx'). lia.
Qed.

Lemma foldr_min_elem (f : Z) r :
  foldr Z.min f r ∈ f :: r ∧ ∀ x, x ∈ f :: r → foldr Z.min f r ≤ x.
Proof.
  induction r as [|a r [IH1 IH2]]; simpl.
  - split; [left|]. by intros x ->%list_elem_of_singleton.
  - split.
    + destruct (Z.min_spec a (foldr Z.min f r)) as [[_ ->]|[_ ->]].
      * right; left.
      * apply elem_of_cons in IH1 as [->|?]; [left|do 2 right]; done.
    + intros x Hx. assert (x = a ∨ x ∈ f :: r) as [->|Hx'].
      { apply elem_of_cons in Hx as [->|Hx]; [right; left|].
        apply elem_of_cons in Hx as [->|Hx]; [by left|right; by right]. }
      * lia.
      * specialize (IH2 x Hx'). lia.
Qed.

(** The span is within [d] exactly when any two non-zero frets are. *)
Lemma specSpan_le frets d :
  0 ≤ d →
  specSpan frets ≤ d ↔ ∀ x y, x ∈ frets → y ∈ frets → x ≠ 0 → y ≠ 0 → x - y ≤ d.
Proof.
  intros Hd. unfold specSpan.
  destruct (filter (λ f, f ≠ 0) frets) as [|f r] eqn:E.
  - split; [|done]. intros _ x y Hx Hy Hx0 Hy0.
    assert (x ∈ filter (λ f, f ≠ 0) frets) as Hin
      by by apply list_elem_of_filter.
    rewrite E in Hin. by apply elem_of_nil in Hin.
  - destruct (foldr_max_elem f r) as [Hmax1 Hmax2].
    destruct (foldr_min_elem f r) as [Hmin1 Hmin2].
    rewrite <- E in Hmax1, Hmax2, Hmin1, Hmin2. split.
    + intros H x y Hx Hy Hx0 Hy0.
      assert (x ≤ foldr Z.max f r)
        by by apply Hmax2, list_elem_of_filter.
      assert (foldr Z.min f r ≤ y)
        by by apply Hmin2, list_elem_of_filter.
      lia.
    + intros H. apply list_elem_of_filter in Hmax1 as [? ?].
      apply list_elem_of_filter in Hmin1 as [? ?]. by apply H.
Qed.

Lemma specSpan_nonneg frets : 0 ≤ specSpan frets.
Proof.
  unfold specSpan. destruct (filter _ frets) as [|f r]; [done|].
  destruct (foldr_max_elem f r) as [Hmax1 Hmax2].
  destruct (foldr_min_elem f r) as [Hmin1 Hmin2].
  specialize (Hmax2 _ Hmin1). lia.
Qed.

Lemma specSpan_prefix l x d : 0 ≤ d → specSpan (l ++ [x]) ≤ d → specSpan l ≤ d.
Proof.
  intros Hd. rewrite !specSpan_le by done. intros H a b Ha Hb.
  apply H; apply elem_of_app; by left.
Qed.

(** ** The chord path: what is returned *)

Lemma optimizeChord_chord cs1 cs2 css last :
  optimizeChord (cs1 :: cs2 :: css) last
  = Ok (Some <$> match beamSearch (cs1 :: cs2 :: css) with
                 | s :: _ => positions s
                 | [] => firstCandidates (cs1 :: cs2 :: css)
                 end).
Proof. unfold optimizeChord. by destruct (beamSearch _). Qed.

Lemma getCandidates_open_wf midiNote open maxFret :
  Forall wfPosition (getCandidates_open midiNote open maxFret).
Proof.
  apply Forall_forall. intros pos Hpos.
  apply getCandidates_open_elem in Hpos as (Hs & _ & Hf). split; lia.
Qed.

Lemma candidateSetsOf_wf open maxFret pitches :
  Forall (Forall wfPosition) (candidateSetsOf open maxFret pitches).
Proof.
  unfold candidateSetsOf. apply Forall_fmap, Forall_forall. intros p _.
  apply getCandidates_open_wf.
Qed.

Lemma goodState_length css s :
  goodState css s → length (positions s) = length css.
Proof. intros (H & _). by eapply Forall2_length. Qed.

Lemma goodState_strings css s :
  Forall (Forall wfPosition) css → goodState css s →
  Forall (λ x, 0 ≤ x < 6) (strings (positions s)).
Proof.
  intros Hwf (Hin & _). revert Hwf.
  induction Hin as [|p cs ps css Hp Hin IH]; intros Hwf; [constructor|].
  apply Forall_cons in Hwf as [Hcs Hcss]. simpl. constructor; [|by apply IH].
  eapply Forall_forall in Hcs; [|done]. apply Hcs.
Qed.

(** Six strings hold at most six positions. *)
Lemma goodState_at_most_six css s :
  Forall (Forall wfPosition) css → goodState css s → (length css ≤ 6)%nat.
Proof.
  intros Hwf Hs. rewrite <- (goodState_length _ _ Hs).
  pose proof (goodState_strings _ _ Hwf Hs) as Hb.
  destruct Hs as (_ & Hnd & _).
  assert (strings (positions s) ⊆+ [0; 1; 2; 3; 4; 5]) as Hsub.
  { apply NoDup_submseteq; [done|]. intros x Hx.
    eapply Forall_forall in Hb; [|done].
    assert (x = 0 ∨ x = 1 ∨ x = 2 ∨ x = 3 ∨ x = 4 ∨ x = 5) as Hc by lia.
    destruct Hc as [->|[->|[->|[->|[->| ->]]]]];
      repeat ((by left) || right). }
  apply submseteq_length in Hsub. unfold strings in Hsub.
  by rewrite length_map in Hsub.
Qed.

Lemma beamSearch_empty_past_six css :
  Forall (Forall wfPosition) css → (6 < length css)%nat → beamSearch css = [].
Proof.
  intros Hwf Hlen. pose proof (beamSearch_good css Hwf) as Hgood.
  destruct (beamSearch css) as [|s beam]; [done|].
  apply Forall_cons in Hgood as [Hs _].
  pose proof (goodState_at_most_six _ _ Hwf Hs). lia.
Qed.

Lemma firstCandidates_heads css :
  Forall (λ cs, cs ≠ []) css →
  Forall2 (λ p cs, head cs = Some p) (firstCandidates css) css.
Proof.
  unfold firstCandidates. induction 1 as [|cs css Hcs Hcss IH]; [constructor|].
  csimpl. destruct cs as [|c cs]; [done|]. simpl. by constructor.
Qed.

Lemma beamStep_nil_l cs : beamStep [] cs = [].
Proof. done. Qed.

Lemma beamStep_nil_r beam : beamStep beam [] = [].
Proof.
  unfold beamStep. rewrite expandBeam_bind.
  assert (beam ≫= (λ s, omap (expandOne s) []) = []) as ->; [|done].
  induction beam as [|s beam IH]; [done|]. by csimpl.
Qed.

Lemma fold_beamStep_nil css : fold_left beamStep css [] = [].
Proof.
  induction css as [|cs css IH]; [done|]. cbn [fold_left].
  by rewrite beamStep_nil_l.
Qed.

Lemma beamSearch_empty_set css :
  [] ∈ css → beamSearch css = [].
Proof.
  unfold beamSearch. generalize initialBeam.
  induction css as [|cs css IH]; intros beam Hin.
  - by apply elem_of_nil in Hin.
  - cbn [fold_left]. apply elem_of_cons in Hin as [<-|Hin].
    + by rewrite beamStep_nil_r, fold_beamStep_nil.
    + by apply IH.
Qed.

(** C6.  Seven pitches, whatever they are, each with a candidate: the beam
    is empty after the last pitch (six strings cannot take seven positions),
    having held a state when the search began, and [optimizeChord] returns
    the first candidate of every candidate set, seven positions, with no
    check of strings or span. *)
Theorem seven_pitches_fall_back (pitches open : list Z) (maxFret : Z)
    (last : list (option Position)) :
  length pitches = 7%nat →
  Forall (λ cs, cs ≠ []) (candidateSetsOf open maxFret pitches) →
  beamSearch (candidateSetsOf open maxFret pitches) = []
  ∧ (∃ i, (i < 7)%nat
       ∧ beamSearch (take i (candidateSetsOf open maxFret pitches)) ≠ []
       ∧ beamSearch (take (S i) (candidateSetsOf open maxFret pitches)) = [])
  ∧ optimizeChord (candidateSetsOf open maxFret pitches) last
    = Ok (Some <$> firstCandidates (candidateSetsOf open maxFret pitches))
  ∧ Forall2 (λ p cs, head cs = Some p)
      (firstCandidates (candidateSetsOf open maxFret pitches))
      (candidateSetsOf open maxFret pitches)
  ∧ length (firstCandidates (candidateSetsOf open maxFret pitches)) = 7%nat.
Proof.
  intros Hlen Hne.
  pose proof (candidateSetsOf_wf open maxFret pitches) as Hwf.
  assert (length (candidateSetsOf open maxFret pitches) = 7%nat) as Hlen'
    by (unfold candidateSetsOf; by rewrite length_map).
  assert (beamSearch (candidateSetsOf open maxFret pitches) = []) as Hempty
    by (apply beamSearch_empty_past_six; [done|lia]).
  pose proof (firstCandidates_heads _ Hne) as Hheads.
  split; [done|]. split; [|split; [|split; [done|]]].
  - assert (∀ n, (n ≤ 7)%nat →
      beamSearch (take n (candidateSetsOf open maxFret pitches)) = [] →
      ∃ i, (i < 7)%nat
        ∧ beamSearch (take i (candidateSetsOf open maxFret pitches)) ≠ []
        ∧ beamSearch (take (S i) (candidateSetsOf open maxFret pitches)) = [])
      as Hfirst.
    { induction n as [|n IH]; intros Hn He.
      - by rewrite take_0 in He.
      - destruct (beamSearch (take n (candidateSetsOf open maxFret pitches)))
          as [|s b] eqn:E.
        + apply IH; [lia|done].
        + exists n. split; [lia|]. by rewrite E. }
    apply (Hfirst 7%nat); [done|].
    by rewrite <- Hlen', firstn_all.
  - destruct (candidateSetsOf open maxFret pitches) as [|cs1 [|cs2 css]];
      [done..|].
    by rewrite optimizeChord_chord, Hempty.
  - apply Forall2_length in Hheads. lia.
Qed.

Lemma seven_pitches_fall_back_witness :
  optimizeChord (candidateSetsOf standardOpen 22 [52; 55; 59; 60; 62; 64; 67]) []
  = Ok (Some <$> firstCandidates
          (candidateSetsOf standardOpen 22 [52; 55; 59; 60; 62; 64; 67])).
Proof.
  apply (seven_pitches_fall_back [52; 55; 59; 60; 62; 64; 67] standardOpen 22 []).
  - done.
  - vm_compute. by repeat constructor.
Defined.


Lemma omap_length_le {A B} (f : A → option B) l :
  (length (omap f l) ≤ length l)%nat.
Proof.
  induction l as [|x l IH]; [done|]. csimpl. destruct (f x); simpl; lia.
Qed.

Lemma expandBeam_length beam cs :
  (length (expandBeam beam cs) ≤ length beam * length cs)%nat.
Proof.
  rewrite expandBeam_bind. induction beam as [|s beam IH]; [done|].
  csimpl. rewrite length_app.
  pose proof (omap_length_le (expandOne s) cs). lia.
Qed.

Lemma beamStep_length beam cs :
  (length (beamStep beam cs) ≤ length beam * length cs)%nat.
Proof.
  unfold beamStep. rewrite length_take, sortByCost_perm.
  pose proof (expandBeam_length beam cs). lia.
Qed.

Lemma product_snoc l x : product (l ++ [x]) = (product l * x)%nat.
Proof.
  unfold product. induction l as [|y l IH]; simpl; [lia|]. rewrite IH. lia.
Qed.

Lemma beamSearch_length css :
  (length (beamSearch css) ≤ product (length <$> css))%nat.
Proof.
  induction css as [|cs css IH] using rev_ind; [done|].
  rewrite beamSearch_snoc, fmap_app. simpl. rewrite product_snoc.
  pose proof (beamStep_length (beamSearch css) cs). nia.
Qed.

Lemma feasible_snoc_inv css cs ps :
  feasible (css ++ [cs]) ps →
  ∃ ps' c, ps = ps' ++ [c] ∧ feasible css ps' ∧ c ∈ cs
    ∧ p_string c ∉ strings ps'.
Proof.
  intros (Hin & Hnd & Hsp).
  apply Forall2_app_inv_r in Hin as (ps' & l & Hps' & Hl & ->).
  inversion Hl as [|c ? l' ? Hc Hnil]; subst. inversion Hnil; subst.
  unfold strings in Hnd |- *. rewrite map_app in Hnd, Hsp.
  apply NoDup_app in Hnd as (Hnd & Hfresh & _).
  exists ps', c. repeat split; try done.
  - by eapply specSpan_prefix.
  - intros Hx. apply (Hfresh _ Hx). left.
Qed.

(** While nothing is cut, the beam holds every feasible assignment. *)
Lemma beamSearch_complete css :
  Forall (Forall wfPosition) css →
  (product (length <$> css) ≤ 20)%nat →
  ∀ ps, feasible css ps → ∃ s, s ∈ beamSearch css ∧ positions s = ps.
Proof.
  induction css as [|cs css IH] using rev_ind; intros Hwf Hprod ps Hps.
  - destruct Hps as (Hin & _). inversion Hin; subst.
    exists (mkState [] zero ∅). split; [left|done].
  - apply feasible_snoc_inv in Hps as Hinv.
    destruct Hinv as (ps' & c & -> & Hps' & Hc & Hfresh).
    apply Forall_app in Hwf as [Hwf Hcs]. rewrite Forall_singleton in Hcs.
    rewrite fmap_app in Hprod. simpl in Hprod. rewrite product_snoc in Hprod.
    assert (0 < length cs)%nat as Hpos.
    { destruct cs; [by apply elem_of_nil in Hc|simpl; lia]. }
    destruct (IH Hwf ltac:(nia) ps' Hps') as (s & Hs & <-).
    pose proof (beamSearch_good css Hwf) as Hgood.
    exists (specChild s c). split; [|done].
    rewrite beamSearch_snoc. unfold beamStep.
    rewrite take_ge.
    + rewrite sortByCost_perm, (expandBeam_spec css) by done.
      apply specExpand_elem. exists s, c. repeat split; try done.
      destruct Hps as (_ & _ & Hsp). by rewrite map_app in Hsp |- *.
    + rewrite sortByCost_perm.
      pose proof (expandBeam_length (beamSearch css) cs).
      pose proof (beamSearch_length css). nia.
Qed.

Lemma optimizeChord_survivor css last s beam :
  (2 ≤ length css)%nat → beamSearch css = s :: beam →
  optimizeChord css last = Ok (Some <$> positions s).
Proof.
  intros Hlen Hs. destruct css as [|cs1 [|cs2 css]]; [simpl in Hlen; lia..|].
  by rewrite optimizeChord_chord, Hs.
Qed.

Lemma optimizeChord_fallback css last :
  (2 ≤ length css)%nat → beamSearch css = [] →
  optimizeChord css last = Ok (Some <$> firstCandidates css).
Proof.
  intros Hlen Hs. destruct css as [|cs1 [|cs2 css]]; [simpl in Hlen; lia..|].
  by rewrite optimizeChord_chord, Hs.
Qed.

Lemma goodState_feasible css s : goodState css s → feasible css (positions s).
Proof. by intros (? & ? & _ & ? & _). Qed.

(** C1, as the bounded beam allows it.  For a chord of at least two pitches
    with candidate sets as the generator makes them: when the beam holds a
    state after the last pitch, [optimizeChord] returns one candidate per
    pitch, on pairwise distinct strings, within span 5; when the beam is
    empty it returns the first candidates instead; and the beam does hold a
    state whenever a conflict-free assignment within span 5 exists and the
    sizes of the candidate sets before the last multiply to at most 20, so
    that the beam never had to cut. *)
Theorem chord_distinct_strings (css : list (list Position))
    (last : list (option Position)) :
  (2 ≤ length css)%nat →
  Forall (Forall wfPosition) css →
  (beamSearch css ≠ [] →
   ∃ ps, optimizeChord css last = Ok (Some <$> ps)
     ∧ length ps = length css
     ∧ NoDup (strings ps)
     ∧ feasible css ps)
  ∧ (beamSearch css = [] →
     optimizeChord css last = Ok (Some <$> firstCandidates css))
  ∧ ((∃ ps, feasible css ps) →
     (product (length <$> take (length css - 1) css) ≤ 20)%nat →
     beamSearch css ≠ []).
Proof.
  intros Hlen Hwf. split; [|split].
  - intros Hne. destruct (beamSearch css) as [|s beam] eqn:E; [done|].
    pose proof (beamSearch_good css Hwf) as Hgood. rewrite E in Hgood.
    apply Forall_cons in Hgood as [Hs _].
    exists (positions s). split; [by eapply optimizeChord_survivor|].
    split; [by apply goodState_length|].
    split; [apply Hs|by apply goodState_feasible].
  - by apply optimizeChord_fallback.
  - intros [ps Hps] Hprod.
    destruct css as [|cs css _] using rev_ind; [simpl in Hlen; lia|].
    rewrite length_app, Nat.add_sub in Hprod. simpl in Hprod.
    rewrite take_app_length in Hprod.
    apply Forall_app in Hwf as [Hwf Hcs]. rewrite Forall_singleton in Hcs.
    apply feasible_snoc_inv in Hps as Hinv.
    destruct Hinv as (ps' & c & -> & Hps' & Hc & Hfresh).
    destruct (beamSearch_complete css Hwf Hprod ps' Hps') as (s & Hs & <-).
    assert (specChild s c ∈ expandBeam (beamSearch css) cs) as Hchild.
    { rewrite (expandBeam_spec css); [|done|done|by apply beamSearch_good].
      apply specExpand_elem. exists s, c. repeat split; try done.
      destruct Hps as (_ & _ & Hsp). by rewrite map_app in Hsp |- *. }
    rewrite beamSearch_snoc. unfold beamStep.
    rewrite <- sortByCost_perm in Hchild.
    destruct (sortByCost (expandBeam (beamSearch css) cs)); [|done].
    by apply elem_of_nil in Hchild.
Qed.

Lemma chord_distinct_strings_witness :
  ∃ ps, optimizeChord (candidateSetsOf standardOpen 22 em7Pitches) []
        = Ok (Some <$> ps)
    ∧ length ps = 6%nat ∧ NoDup (strings ps).
Proof.
  assert (2 ≤ length (candidateSetsOf standardOpen 22 em7Pitches))%nat as H2
    by (vm_compute; lia).
  destruct (chord_distinct_strings (candidateSetsOf standardOpen 22 em7Pitches)
              [] H2 (candidateSetsOf_wf _ _ _)) as (H & _ & _).
  destruct H as (ps & Hps & Hlen & Hnd & _).
  - by vm_compute.
  - exists ps. split; [done|]. split; [|done]. by rewrite Hlen.
Defined.

(** The counterexample to C1 as stated: every pitch of [highChord] is
    reachable in standard tuning and [highChordAssignment] places the five
    pitches on five strings within span 5, yet the beam ends empty and four
    of the five positions returned are on string 0. *)
Lemma chord_beam_loses_assignment :
  Forall (λ cs, cs ≠ []) (candidateSetsOf standardOpen 22 highChord)
  ∧ feasible (candidateSetsOf standardOpen 22 highChord) highChordAssignment
  ∧ optimizeChord (candidateSetsOf standardOpen 22 highChord) []
    = Ok (Some <$> [mkPos 2 0; mkPos 0 6; mkPos 0 0; mkPos 0 9; mkPos 0 20])
  ∧ ¬ NoDup (strings [mkPos 2 0; mkPos 0 6; mkPos 0 0; mkPos 0 9; mkPos 0 20]).
Proof.
  split; [|split; [|split]].
  - vm_compute. by repeat constructor.
  - unfold feasible. split; [|split].
    + vm_compute. repeat constructor; repeat ((by left) || right).
    + vm_compute. repeat constructor; rewrite ?elem_of_cons, ?elem_of_nil;
        intuition discriminate.
    + by vm_compute.
  - by vm_compute.
  - vm_compute. intros H. apply NoDup_cons in H as [_ H].
    apply NoDup_cons in H as [H _]. apply H. right; left.
Qed.

(** ** The beam search: costs and order *)

Lemma chordCost_bound K k c span :
  54 ≤ K ≤ 880 → magBound K k →
  0 ≤ p_fret c < 2 ^ 53 → 0 ≤ span < 2 ^ 53 →
  magBound (K + 6) (chordCost k c span).
Proof.
  intros HK Hk Hf Hs. unfold chordCost.
  assert (magBound K (mul (ofZ (p_fret c)) c0_05)) as H1.
  { apply (magBound_mono 51); [lia|].
    apply (mul_bound 54 (-4)); [by apply ofZ_bound|simpl; lia|lia]. }
  assert (magBound (K + 2) (mul (ofZ span) c0_3)) as H2.
  { apply (magBound_mono 54); [lia|].
    apply (mul_bound 54 (-1)); [by apply ofZ_bound|simpl; lia|lia]. }
  pose proof (add_bound K _ _ Hk H1 ltac:(lia)) as H3.
  pose proof (add_bound (K + 2) _ _ H3 H2 ltac:(lia)) as H4.
  replace (K + 2 + 2) with (K + 4) in H4 by lia.
  destruct (p_fret c =? 0).
  - replace (K + 6) with (K + 4 + 2) by lia.
    apply sub_bound; [done| |lia]. simpl. lia.
  - eapply magBound_mono; [|exact H4]. lia.
Qed.

Lemma specChild_cost_bound css cs s c :
  Forall (Forall wfPosition) css → Forall wfPosition cs →
  Forall safeFret cs →
  goodState css s → c ∈ cs → admissible s c →
  magBound (54 + 6 * Z.of_nat (length css)) (cost s) →
  magBound (54 + 6 * Z.of_nat (length (css ++ [cs]))) (cost (specChild s c)).
Proof.
  intros Hwf Hcs Hsafe Hs Hc [_ Hspan] Hb.
  pose proof (goodState_at_most_six _ _ Hwf Hs) as Hlen.
  rewrite length_app. simpl length.
  replace (54 + 6 * Z.of_nat (length css + 1))
    with (54 + 6 * Z.of_nat (length css) + 6) by lia.
  pose proof (specSpan_nonneg (map p_fret (positions s ++ [c]))) as Hs0.
  eapply Forall_forall in Hcs; [|done]. eapply Forall_forall in Hsafe; [|done].
  destruct Hcs as [_ Hf0]. unfold safeFret in Hsafe.
  apply (chordCost_bound _ (cost s) c); try done; lia.
Qed.

Lemma beamSearch_cost_bound css :
  Forall (Forall wfPosition) css → Forall (Forall safeFret) css →
  Forall (λ s, magBound (54 + 6 * Z.of_nat (length css)) (cost s))
         (beamSearch css).
Proof.
  induction css as [|cs css IH] using rev_ind; intros Hwf Hsafe.
  - by apply Forall_singleton.
  - apply Forall_app in Hwf as [Hwf Hcs]. rewrite Forall_singleton in Hcs.
    apply Forall_app in Hsafe as [Hsafe Hcsafe].
    rewrite Forall_singleton in Hcsafe.
    specialize (IH Hwf Hsafe).
    pose proof (beamSearch_good css Hwf) as Hgood.
    rewrite beamSearch_snoc. apply Forall_forall. intros s' Hs'.
    apply beamStep_elem in Hs'.
    rewrite (expandBeam_spec css _ _ Hwf Hcs Hgood) in Hs'.
    apply specExpand_elem in Hs' as (s & c & Hs & Hc & Ha & ->).
    apply specChild_cost_bound; try done.
    + by eapply Forall_forall in Hgood.
    + by eapply Forall_forall in IH.
Qed.

Lemma sortInsert_sorted x l :
  (∀ a b, a ∈ x :: l → b ∈ x :: l →
          cmpNeg a b = bool_decide (scaled (cost a) < scaled (cost b))) →
  StronglySorted costLe l → StronglySorted costLe (sortInsert x l).
Proof.
  intros Hcmp Hl. induction Hl as [|y l Hl IH Hy]; simpl.
  - repeat constructor.
  - rewrite (Hcmp x y) by (rewrite !elem_of_cons; auto).
    destruct (decide (scaled (cost x) < scaled (cost y))) as [Hlt|Hge].
    + rewrite (bool_decide_eq_true_2 _ Hlt). constructor; [by constructor|].
      constructor; [unfold costLe; lia|].
      eapply Forall_impl; [done|]. unfold costLe. intros z Hz. lia.
    + rewrite (bool_decide_eq_false_2 _ Hge). constructor.
      * apply IH. intros a b Ha Hb. apply Hcmp.
        -- apply elem_of_cons in Ha as [->|Ha]; [by left|by do 2 right].
        -- apply elem_of_cons in Hb as [->|Hb]; [by left|by do 2 right].
      * rewrite sortInsert_perm. constructor; [unfold costLe; lia|done].
Qed.

Lemma sortByCost_sorted l :
  (∀ a b, a ∈ l → b ∈ l →
          cmpNeg a b = bool_decide (scaled (cost a) < scaled (cost b))) →
  StronglySorted costLe (sortByCost l).
Proof.
  intros Hcmp. unfold sortByCost.
  assert (∀ done todo acc, l = done ++ todo → acc ≡ₚ done →
            StronglySorted costLe acc →
            StronglySorted costLe
              (fold_left (λ acc x, sortInsert x acc) todo acc)) as H.
  { intros seen todo. revert seen.
    induction todo as [|x todo IH]; intros seen acc El Hperm Hacc; [done|].
    simpl. apply (IH (seen ++ [x])).
    - by rewrite <- app_assoc.
    - rewrite sortInsert_perm, Hperm. by rewrite Permutation_cons_append.
    - apply sortInsert_sorted; [|done]. intros a b Ha Hb.
      assert (∀ c, c ∈ x :: acc → c ∈ l) as Hin.
      { intros c Hc'. rewrite El, elem_of_app, elem_of_cons.
        apply elem_of_cons in Hc' as [->|Hc']; [by right; left|].
        left. by rewrite <- Hperm. }
      apply Hcmp; by apply Hin. }
  apply (H [] l []); [done|done|constructor].
Qed.

(** The sort is stable: states of equal cost keep their order. *)
Lemma sortInsert_stable k x l :
  (∀ a b, a ∈ x :: l → b ∈ x :: l →
          cmpNeg a b = bool_decide (scaled (cost a) < scaled (cost b))) →
  StronglySorted costLe l →
  filter (λ s, scaled (cost s) = k) (sortInsert x l)
  = filter (λ s, scaled (cost s) = k) l
    ++ filter (λ s, scaled (cost s) = k) [x].
Proof.
  intros Hcmp Hl. induction Hl as [|y l Hl IH Hy]; [done|]. simpl.
  rewrite (Hcmp x y) by (rewrite !elem_of_cons; auto).
  destruct (decide (scaled (cost x) < scaled (cost y))) as [Hlt|Hge].
  - rewrite (bool_decide_eq_true_2 _ Hlt).
    rewrite (filter_cons _ x), (filter_cons _ x []), filter_nil.
    destruct (decide (scaled (cost x) = k)) as [Hk|Hk];
      [|by rewrite app_nil_r].
    assert (filter (λ s, scaled (cost s) = k) (y :: l) = []) as ->; [|done].
    destruct (filter (λ s, scaled (cost s) = k) (y :: l)) as [|z zs] eqn:E;
      [done|].
    assert (z ∈ filter (λ s, scaled (cost s) = k) (y :: l)) as Hz
      by (rewrite E; left).
    apply list_elem_of_filter in Hz as [Hzk Hz].
    apply elem_of_cons in Hz as [->|Hz]; [lia|].
    eapply Forall_forall in Hy; [|done]. unfold costLe in Hy. lia.
  - rewrite (bool_decide_eq_false_2 _ Hge).
    rewrite (filter_cons _ y), (filter_cons _ y l), IH.
    + by destruct (decide (scaled (cost y) = k)).
    + intros a b Ha Hb. apply Hcmp.
      * apply elem_of_cons in Ha as [->|Ha]; [by left|by do 2 right].
      * apply elem_of_cons in Hb as [->|Hb]; [by left|by do 2 right].
Qed.

Lemma sortByCost_stable k l :
  (∀ a b, a ∈ l → b ∈ l →
          cmpNeg a b = bool_decide (scaled (cost a) < scaled (cost b))) →
  filter (λ s, scaled (cost s) = k) (sortByCost l)
  = filter (λ s, scaled (cost s) = k) l.
Proof.
  intros Hcmp. unfold sortByCost.
  assert (∀ seen todo acc, l = seen ++ todo → acc ≡ₚ seen →
            StronglySorted costLe acc →
            filter (λ s, scaled (cost s) = k)
              (fold_left (λ acc x, sortInsert x acc) todo acc)
            = filter (λ s, scaled (cost s) = k) acc
              ++ filter (λ s, scaled (cost s) = k) todo) as H.
  { intros seen todo. revert seen.
    induction todo as [|x todo IH]; intros seen acc El Hperm Hacc.
    - simpl. by rewrite filter_nil, app_nil_r.
    - assert (∀ a b, a ∈ x :: acc → b ∈ x :: acc →
                cmpNeg a b = bool_decide (scaled (cost a) < scaled (cost b)))
        as Hcmp'.
      { assert (∀ c, c ∈ x :: acc → c ∈ l) as Hin.
        { intros c Hc'. rewrite El, elem_of_app, elem_of_cons.
          apply elem_of_cons in Hc' as [->|Hc']; [by right; left|].
          left. by rewrite <- Hperm. }
        intros a b Ha Hb. apply Hcmp; by apply Hin. }
      simpl. rewrite (IH (seen ++ [x])).
      + rewrite (sortInsert_stable k x acc Hcmp' Hacc), <- app_assoc.
        f_equal. by rewrite <- filter_app.
      + by rewrite <- app_assoc.
      + rewrite sortInsert_perm, Hperm. by rewrite Permutation_cons_append.
      + by apply sortInsert_sorted. }
  rewrite (H [] l []); [done|done|done|constructor].
Qed.

Lemma cmpNeg_scaled K a b :
  magBound K (cost a) → magBound K (cost b) → K ≤ 898 →
  cmpNeg a b = bool_decide (scaled (cost a) < scaled (cost b)).
Proof. intros Ha Hb HK. unfold cmpNeg. by apply (sub_negative K). Qed.

(** C2.  The chord path, pitch by pitch, for candidates on the six strings
    with frets that are safe non-negative integers.  The beam starts as the
    one empty state and the beam after a pitch is one step from the beam
    before it, in the order of the list.  The step expands every state, in
    order, with every candidate whose string no position of the state has
    and that keeps the span (greatest minus least non-zero fret) within 5;
    the cost of the new state is the state's cost plus [fret * 0.05] plus
    [span * 0.3], less [0.2] on an open string, a finite number.  The new
    beam is the first 20 of these states sorted by ascending cost, states
    of equal cost staying in the order of their expansion.  With at
    least two pitches, [optimizeChord] returns the positions of the first
    state of the last beam, and no state expanded at the last pitch costs
    less. *)
Theorem chord_beam_search (css : list (list Position)) (cs : list Position)
    (last : list (option Position)) :
  Forall (Forall wfPosition) (css ++ [cs]) →
  Forall (Forall safeFret) (css ++ [cs]) →
  beamSearch [] = [mkState [] zero ∅]
  ∧ beamSearch (css ++ [cs]) = beamStep (beamSearch css) cs
  ∧ expandBeam (beamSearch css) cs = specExpand (beamSearch css) cs
  ∧ Forall (λ s, magBound 102 (cost s)) (specExpand (beamSearch css) cs)
  ∧ (∃ sorted,
       sorted ≡ₚ specExpand (beamSearch css) cs
       ∧ StronglySorted costLe sorted
       ∧ (∀ k, filter (λ s, scaled (cost s) = k) sorted
               = filter (λ s, scaled (cost s) = k)
                   (specExpand (beamSearch css) cs))
       ∧ beamSearch (css ++ [cs]) = take 20 sorted)
  ∧ (length (beamSearch (css ++ [cs])) ≤ 20)%nat
  ∧ ((1 ≤ length css)%nat →
     ∀ s beam, beamSearch (css ++ [cs]) = s :: beam →
       optimizeChord (css ++ [cs]) last = Ok (Some <$> positions s)
       ∧ ∀ s', s' ∈ specExpand (beamSearch css) cs → costLe s s').
Proof.
  intros Hwf Hsafe.
  apply Forall_app in Hwf as [Hwf Hcs]. rewrite Forall_singleton in Hcs.
  apply Forall_app in Hsafe as [Hsafe Hcsafe].
  rewrite Forall_singleton in Hcsafe.
  pose proof (beamSearch_good css Hwf) as Hgood.
  pose proof (beamSearch_cost_bound css Hwf Hsafe) as Hcost.
  pose proof (expandBeam_spec css _ _ Hwf Hcs Hgood) as Hexp.
  assert (Forall (λ s, magBound 102 (cost s))
            (specExpand (beamSearch css) cs)) as Hbound.
  { apply Forall_forall. intros s' Hs'.
    apply specExpand_elem in Hs' as (s & c & Hs & Hc & Ha & ->).
    eapply Forall_forall in Hgood; [|done].
    eapply Forall_forall in Hcost; [|done].
    pose proof (goodState_at_most_six _ _ Hwf Hgood) as Hlen.
    pose proof (specChild_cost_bound css cs s c Hwf Hcs Hcsafe Hgood Hc Ha Hcost)
      as Hb.
    eapply magBound_mono; [|exact Hb]. rewrite length_app. simpl. lia. }
  assert (∀ a b, a ∈ specExpand (beamSearch css) cs →
            b ∈ specExpand (beamSearch css) cs →
            cmpNeg a b = bool_decide (scaled (cost a) < scaled (cost b)))
    as Hcmp.
  { intros a b Ha Hb.
    eapply Forall_forall in Ha; [|exact Hbound].
    eapply Forall_forall in Hb; [|exact Hbound].
    by apply (cmpNeg_scaled 102). }
  pose proof (sortByCost_sorted _ Hcmp) as Hsorted.
  assert (beamSearch (css ++ [cs])
          = take 20 (sortByCost (specExpand (beamSearch css) cs))) as Hstep.
  { rewrite beamSearch_snoc. unfold beamStep. by rewrite Hexp. }
  split; [done|]. split; [apply beamSearch_snoc|]. split; [done|].
  split; [done|]. split; [|split].
  - exists (sortByCost (specExpand (beamSearch css) cs)).
    split; [apply sortByCost_perm|]. split; [done|]. split; [|done].
    intros k. by apply sortByCost_stable.
  - rewrite Hstep, length_take. lia.
  - intros Hlen s beam Hs. split.
    + apply (optimizeChord_survivor _ _ s beam); [|done].
      rewrite length_app. simpl. lia.
    + intros s' Hs'. rewrite Hstep in Hs.
      rewrite <- (sortByCost_perm (specExpand (beamSearch css) cs)) in Hs'.
      destruct (sortByCost (specExpand (beamSearch css) cs)) as [|s0 rest];
        [done|].
      simpl in Hs. injection Hs as -> _.
      apply StronglySorted_inv in Hsorted as [_ Hall].
      apply elem_of_cons in Hs' as [->|Hs']; [unfold costLe; lia|].
      by eapply Forall_forall in Hall.
Qed.

Lemma chord_beam_search_witness :
  ∃ sorted,
    sorted ≡ₚ specExpand
      (beamSearch (take 5 (candidateSetsOf standardOpen 22 em7Pitches)))
      [mkPos 0 0; mkPos 1 5; mkPos 2 9; mkPos 3 14; mkPos 4 19]
    ∧ StronglySorted costLe sorted
    ∧ beamSearch (candidateSetsOf standardOpen 22 em7Pitches) = take 20 sorted.
Proof.
  destruct (chord_beam_search
              (take 5 (candidateSetsOf standardOpen 22 em7Pitches))
              [mkPos 0 0; mkPos 1 5; mkPos 2 9; mkPos 3 14; mkPos 4 19] [])
    as (_ & _ & _ & _ & (sorted & H1 & H2 & _ & H3) & _).
  - apply (candidateSetsOf_wf standardOpen 22 em7Pitches).
  - apply Forall_forall. intros cs Hcs. apply Forall_forall. intros p Hp.
    assert (Forall wfPosition cs ∧ Forall (λ p, p_fret p ≤ 22) cs) as [_ H22].
    { split.
      - pose proof (candidateSetsOf_wf standardOpen 22 em7Pitches) as Hwf.
        by eapply Forall_forall in Hwf.
      - apply Forall_forall. intros q Hq.
        change (take 5 (candidateSetsOf standardOpen 22 em7Pitches)
                ++ [[mkPos 0 0; mkPos 1 5; mkPos 2 9; mkPos 3 14; mkPos 4 19]])
          with (candidateSetsOf standardOpen 22 em7Pitches) in Hcs.
        unfold candidateSetsOf in Hcs.
        apply list_elem_of_fmap in Hcs as (n & -> & _).
        apply getCandidates_open_elem in Hq. lia. }
    eapply Forall_forall in H22; [|done]. unfold safeFret. lia.
  - by exists sorted.
Defined.

(** ** The chord path: the unreachable pitch and the demo chord *)

(** C5, where the code fails it.  With the single candidate set empty the
    returned array is not empty: it holds [undefined].  The chord path does
    drop such a pitch: with an empty set among two or more, it returns the
    first candidates of the other sets.  After an unreachable single pitch
    the next single pitch cannot be mapped, and the mapped event cannot be
    rendered. *)
Theorem unreachable_single_pitch_returns_undefined
    (last : list (option Position)) :
  optimizeChord [[]] last = Ok [None]
  ∧ (∀ css, (2 ≤ length css)%nat → [] ∈ css →
       optimizeChord css last = Ok (Some <$> omap head css))
  ∧ fretboardMap [lowNote] "standard"
    = Ok [mkTabEvent zero c0_5 [None] None]
  ∧ fretboardMap [lowNote; openE] "standard" = TypeError
  ∧ renderAsciiTab [mkTabEvent zero c0_5 [None] None] = TypeError.
Proof.
  split; [done|]. split; [|by vm_compute].
  intros css Hlen Hin. apply optimizeChord_fallback; [done|].
  by apply beamSearch_empty_set.
Qed.

(** C7.  The chord [40,47,52,55,59,64] in standard tuning, with no prior
    positions: six positions on six strings, frets within [0,22]; the
    returned state is the first of the beam, its cost is the cost of its
    positions under the chord cost model, and that cost is no greater than
    the cost of the first candidates of the six pitches. *)
Theorem em7_fixture :
  mapE (λ n, getCandidates n "standard" maxFret_default) em7Pitches
  = Ok (candidateSetsOf standardOpen 22 em7Pitches)
  ∧ ∃ s beam ps,
      beamSearch (candidateSetsOf standardOpen 22 em7Pitches) = s :: beam
      ∧ positions s = ps
      ∧ optimizeChord (candidateSetsOf standardOpen 22 em7Pitches) []
        = Ok (Some <$> ps)
      ∧ ps = [mkPos 5 0; mkPos 4 2; mkPos 3 2; mkPos 2 0; mkPos 1 0; mkPos 0 0]
      ∧ length ps = 6%nat
      ∧ NoDup (strings ps)
      ∧ Forall (λ p, 0 ≤ p_fret p ≤ 22) ps
      ∧ cost s = pathCost ps
      ∧ leb (pathCost ps)
            (pathCost (firstCandidates
                         (candidateSetsOf standardOpen 22 em7Pitches)))
        = true.
Proof.
  split; [by vm_compute|].
  destruct (beamSearch (candidateSetsOf standardOpen 22 em7Pitches))
    as [|s beam] eqn:E; [by vm_compute in E|].
  exists s, beam, (positions s).
  assert (positions s
          = [mkPos 5 0; mkPos 4 2; mkPos 3 2; mkPos 2 0; mkPos 1 0; mkPos 0 0]
          ∧ cost s = pathCost (positions s)) as [Hps Hcost].
  { assert (head (beamSearch (candidateSetsOf standardOpen 22 em7Pitches))
            = Some s) as Hs by by rewrite E.
    vm_compute in Hs. injection Hs as <-. split; by vm_compute. }
  split; [done|]. split; [done|].
  split; [by apply (optimizeChord_survivor _ _ s beam); [vm_compute; lia|]|].
  rewrite Hps. split; [done|]. split; [done|]. split.
  { vm_compute. repeat constructor; rewrite ?elem_of_cons, ?elem_of_nil;
      intuition discriminate. }
  split; [repeat constructor; simpl; lia|]. split; [by rewrite <- Hps|].
  by vm_compute.
Qed.

(** ** The sequence mapper *)

Lemma mapE_getCandidates tuning t maxFret ns :
  TUNINGS !! tuning = Some t →
  mapE (λ n, getCandidates n tuning maxFret) ns
  = Ok (candidateSetsOf (notes t) maxFret ns).
Proof.
  intros Ht. induction ns as [|n ns IH]; [done|].
  simpl. rewrite IH. unfold getCandidates. by rewrite Ht.
Qed.

Lemma singleLoop_defined prior rest b k :
  ∃ b', singleLoop (Some <$> prior) rest (Some b) k = Ok (Some b').
Proof.
  revert b k. induction rest as [|c rest IH]; intros b k; simpl.
  - by exists b.
  - rewrite singleCost_spec. simpl.
    destruct (ltb (specSingleCost c prior) k); apply IH.
Qed.

Lemma all_defined (l : list (option Position)) :
  Forall is_Some l → ∃ ps, l = Some <$> ps.
Proof.
  induction 1 as [|x l [p ->] _ [ps ->]]; [by exists []|]. by exists (p :: ps).
Qed.

Lemma fmap_Some_defined (ps : list Position) :
  Forall is_Some (Some <$> ps).
Proof. apply Forall_fmap, Forall_forall. by eexists. Qed.

(** Unless it is given a single empty candidate set, the optimizer returns
    positions, all defined, whenever the last positions are. *)
Lemma optimizeChord_defined css last :
  Forall is_Some last → css ≠ [[]] →
  ∃ ps, optimizeChord css last = Ok (Some <$> ps).
Proof.
  intros [prior ->]%all_defined Hne.
  destruct css as [|cs1 [|cs2 css]].
  - by exists [].
  - destruct cs1 as [|c cs]; [done|]. unfold optimizeChord. simpl.
    rewrite singleCost_spec. simpl.
    destruct (ltb (specSingleCost c prior) Infinity);
      destruct (singleLoop_defined prior cs c (specSingleCost c prior))
        as [b Hb];
      destruct (singleLoop_defined prior cs c Infinity) as [b' Hb'];
      rewrite ?Hb, ?Hb'; simpl; by eexists [_].
  - rewrite optimizeChord_chord. by eexists.
Qed.

Lemma fretboardLoop_threaded tuning t events :
  TUNINGS !! tuning = Some t →
  ∀ acc last,
    Forall is_Some last →
    Forall (λ ev, ¬ unreachableSingle (notes t) ev) events →
    ∃ rs, fretboardLoop tuning events acc last = Ok (acc ++ rs)
      ∧ threaded (notes t) last events rs.
Proof.
  intros Ht. induction events as [|ev events IH]; intros acc last Hlast Hev.
  - exists []. by rewrite app_nil_r.
  - apply Forall_cons in Hev as [Hev Hevs].
    assert (candidateSetsOf (notes t) maxFret_default (notesOf ev) ≠ [[]])
      as Hne.
    { intros Heq. apply Hev. unfold candidateSetsOf in Heq.
      destruct (notesOf ev) as [|n [|n' ns]] eqn:En; try done.
      exists n. split; [done|]. by injection Heq. }
    destruct (optimizeChord_defined _ _ Hlast Hne) as [ps Hps].
    simpl. unfold mapEvent.
    rewrite (mapE_getCandidates _ _ _ _ Ht). simpl. rewrite Hps. simpl.
    destruct (IH (acc ++ [mkTabEvent (time ev) (duration ev) (Some <$> ps)
                            (chordOrNull (chord ev))])
                 (Some <$> ps) (fmap_Some_defined ps) Hevs)
      as (rs & Hrs & Hthr).
    exists (mkTabEvent (time ev) (duration ev) (Some <$> ps)
              (chordOrNull (chord ev)) :: rs).
    split; [by rewrite Hrs, <- app_assoc|]. by repeat split.
Qed.

Lemma threaded_length open prev events rs :
  threaded open prev events rs → length rs = length events.
Proof.
  revert prev rs. induction events as [|ev events IH]; intros prev [|r rs];
    simpl; try done.
  intros [_ H]. f_equal. by eapply IH.
Qed.

(** C9, as the code has it.  For a preset tuning and a sequence in which no
    single-pitch event has an unreachable pitch, [fretboardMap] returns a
    sequence of the same length in which every event copies the time and
    the duration of its input event and carries the label [ev.chord || null]
    (the label itself, except that an empty label becomes [null]); its
    positions are the optimizer's for the candidate sets of the event, given
    the positions of the previous output event, and none for the first. *)
Theorem fretboardMap_threads (events : list NoteEvent) (tuning : string)
    (t : Tuning) :
  TUNINGS !! tuning = Some t →
  Forall (λ ev, ¬ unreachableSingle (notes t) ev) events →
  ∃ rs, fretboardMap events tuning = Ok rs
    ∧ length rs = length events
    ∧ threaded (notes t) [] events rs
    ∧ ∀ i ev r, events !! i = Some ev → rs !! i = Some r →
        tab_time r = time ev
        ∧ tab_duration r = duration ev
        ∧ tab_chord r = chordOrNull (chord ev).
Proof.
  intros Ht Hev.
  destruct (fretboardLoop_threaded tuning t events Ht [] [] (Forall_nil_2 _) Hev)
    as (rs & Hrs & Hthr).
  exists rs. split; [done|]. split; [by eapply threaded_length|].
  split; [done|]. clear Hrs Hev. generalize dependent (@nil (option Position)).
  revert rs. induction events as [|ev events IH]; intros [|r rs] prev Hthr i e r';
    try done.
  destruct Hthr as [(Ht1 & Ht2 & Ht3 & _) Hthr]. destruct i as [|i]; simpl.
  - by intros [= <-] [= <-].
  - by eapply IH.
Qed.

Lemma fretboardMap_threads_witness :
  ∃ rs, fretboardMap [openE; unlabelled] "standard" = Ok rs
    ∧ length rs = 2%nat.
Proof.
  destruct (fretboardMap_threads [openE; unlabelled] "standard"
              (mkTuning "Standard" standardOpen)) as (rs & Hrs & Hlen & _).
  - by vm_compute.
  - apply Forall_cons; split; [|apply Forall_cons; split; [|apply Forall_nil_2]];
      intros (n & [= <-] & Hc); by vm_compute in Hc.
  - by exists rs.
Defined.

(** The counterexample to C9 as stated: an event labelled with the empty
    string is mapped to an event whose label is [null]. *)
Lemma empty_label_becomes_null :
  fretboardMap [unlabelled] "standard"
  = Ok [mkTabEvent zero c0_5 [Some (mkPos 5 0)] None]
  ∧ chord unlabelled ≠ None.
Proof. split; by vm_compute. Qed.

(** C10, as the code has it.  Nothing is validated and nothing fails: an
    event without pitches is mapped to an event without positions, whatever
    the last positions are, and a negative fret bound leaves every pitch
    without candidates. *)
Theorem malformed_input_is_mapped (tuning : string) (t : Tuning) :
  TUNINGS !! tuning = Some t →
  (∀ last, optimizeChord [] last = Ok [])
  ∧ (∀ ev last, notesOf ev = [] →
       mapEvent tuning last ev
       = Ok (mkTabEvent (time ev) (duration ev) [] (chordOrNull (chord ev))))
  ∧ (∀ midiNote maxFret, maxFret < 0 →
       getCandidates midiNote tuning maxFret = Ok []).
Proof.
  intros Ht. split; [done|]. split.
  - intros ev last Hn. unfold mapEvent. by rewrite Hn.
  - intros midiNote maxFret Hneg. unfold getCandidates. rewrite Ht. f_equal.
    apply getCandidates_open_none. intros s o _. lia.
Qed.

Lemma malformed_input_is_mapped_witness :
  fretboardMap [silent] "standard" = Ok [mkTabEvent zero c0_5 [] None]
  ∧ getCandidates 40 "standard" (-1) = Ok [].
Proof.
  destruct (malformed_input_is_mapped "standard"
              (mkTuning "Standard" standardOpen)) as (_ & Hev & Hneg).
  - by vm_compute.
  - split; [|by apply Hneg].
    unfold fretboardMap. cbn [fretboardLoop]. by rewrite (Hev silent []).
Defined.

(** The counterexample to C10 as stated: an empty pitch set and a negative
    fret bound are both answered with a result, not with an error. *)
Lemma malformed_input_no_error :
  fretboardMap [silent] "standard" = Ok [mkTabEvent zero c0_5 [] None]
  ∧ getCandidates 40 "standard" (-1) = Ok [].
Proof. split; by vm_compute. Qed.

(** ** The renderer *)

Lemma append_cons x (a b : string) : String x a +:+ b = String x (a +:+ b).
Proof. done. Qed.

Lemma append_assoc (a b c : string) : (a +:+ b) +:+ c = a +:+ b +:+ c.
Proof.
  induction a as [|x a IH]; [done|]. by rewrite !append_cons, IH.
Qed.

Lemma append_nil_r (a : string) : a +:+ "" = a.
Proof. induction a as [|x a IH]; [done|]. by rewrite append_cons, IH. Qed.

Lemma length_append (a b : string) :
  String.length (a +:+ b) = (String.length a + String.length b)%nat.
Proof.
  induction a as [|x a IH]; [done|]. rewrite append_cons. simpl.
  by rewrite IH.
Qed.

Lemma length_fillString n c : String.length (fillString n c) = n.
Proof. induction n as [|n IH]; simpl; [done|]. by rewrite IH. Qed.

Lemma length_padEnd s n c :
  String.length (padEnd s n c) = (String.length s `max` n)%nat.
Proof. unfold padEnd. rewrite length_append, length_fillString. lia. Qed.

Lemma concat_empty_cons (x : string) xs :
  String.concat "" (x :: xs) = x +:+ String.concat "" xs.
Proof. destruct xs; simpl; [by rewrite append_nil_r|done]. Qed.

Lemma findByString_defined s (ps : list (option Position)) :
  Forall is_Some ps →
  findByString s ps
  = Ok (head (filter (λ p, p_string p = s) (omap id ps))).
Proof.
  induction 1 as [|o ps [p ->] _ IH]; [done|].
  csimpl. rewrite filter_cons.
  destruct (Z.eqb_spec (p_string p) s), (decide (p_string p = s)); done.
Qed.

Lemma rowStep_spec s row ev :
  definedEvent ev → rowStep s row ev = Ok (row +:+ specCell s ev).
Proof.
  intros Hev. unfold rowStep, specCell, fretText, positionOn.
  by rewrite (findByString_defined _ _ Hev).
Qed.

Lemma foldE_rowStep s slice row :
  Forall definedEvent slice →
  foldE (rowStep s) slice row
  = Ok (row +:+ String.concat "" (map (specCell s) slice)).
Proof.
  intros H. revert row. induction H as [|ev slice Hev _ IH]; intros row.
  - simpl. by rewrite append_nil_r.
  - cbn [foldE]. rewrite (rowStep_spec _ _ _ Hev). simpl mbind.
    unfold mbind, Exc_bind. rewrite IH. cbn [map].
    by rewrite concat_empty_cons, append_assoc.
Qed.

Lemma renderRow_spec slice s :
  Forall definedEvent slice → s ∈ [0; 1; 2; 3; 4; 5] →
  renderRow slice s = Ok (specRow slice s).
Proof.
  intros H Hs. unfold renderRow, specRow. rewrite (foldE_rowStep _ _ _ H).
  unfold mbind, Exc_bind. rewrite !append_assoc. do 2 f_equal.
  each_elem Hs done.
Qed.

Lemma foldE_rows slice strs lines :
  Forall definedEvent slice → strs ⊆ [0; 1; 2; 3; 4; 5] →
  foldE (λ lines s, row ← renderRow slice s; Ok (lines ++ [row])) strs lines
  = Ok (lines ++ map (specRow slice) strs).
Proof.
  intros H. revert lines. induction strs as [|s strs IH]; intros lines Hsub.
  - simpl. by rewrite app_nil_r.
  - cbn [foldE]. rewrite (renderRow_spec _ _ H) by (apply Hsub; left).
    unfold mbind, Exc_bind. rewrite IH.
    + cbn [map]. by rewrite <- app_assoc.
    + intros x Hx. apply Hsub. by right.
Qed.

Lemma truthy_carriesLabel ev :
  truthy (tab_chord ev) = true ↔ carriesLabel ev.
Proof.
  unfold carriesLabel. by destruct (tab_chord ev) as [[|c s]|].
Qed.

Lemma existsb_carriesLabel slice :
  existsb (λ e, truthy (tab_chord e)) slice
  = bool_decide (Exists carriesLabel slice).
Proof.
  destruct (existsb _ slice) eqn:E; symmetry.
  - apply bool_decide_eq_true. apply existsb_exists in E as (e & Hin & He).
    apply Exists_exists. exists e.
    split; [by apply list_elem_of_In|by apply truthy_carriesLabel].
  - apply bool_decide_eq_false. intros (e & Hin & He)%Exists_exists.
    assert (existsb (λ e, truthy (tab_chord e)) slice = true) as Ht;
      [|congruence].
    apply existsb_exists. exists e.
    split; [by apply list_elem_of_In|by apply truthy_carriesLabel].
Qed.

Lemma renderChunk_spec tabEvents lines chunk :
  Forall definedEvent tabEvents →
  renderChunk tabEvents lines chunk
  = Ok (lines ++ specBlock (take PER_LINE (drop chunk tabEvents))).
Proof.
  intros H.
  assert (Forall definedEvent (take PER_LINE (drop chunk tabEvents))) as Hs.
  { by apply Forall_take, Forall_drop. }
  unfold renderChunk, specBlock. rewrite existsb_carriesLabel.
  change (seqZ 0 6) with [0; 1; 2; 3; 4; 5].
  rewrite (foldE_rows _ _ _ Hs) by done. unfold mbind, Exc_bind.
  unfold specLabelRow.
  destruct (decide (Exists carriesLabel (take PER_LINE (drop chunk tabEvents))))
    as [He|He].
  - rewrite (bool_decide_eq_true_2 _ He).
    by rewrite <- !app_assoc.
  - rewrite (bool_decide_eq_false_2 _ He). by rewrite <- !app_assoc.
Qed.

Lemma foldE_renderChunk tabEvents starts lines :
  Forall definedEvent tabEvents →
  foldE (renderChunk tabEvents) starts lines
  = Ok (lines ++ concat (specBlock <$>
          ((λ chunk, take PER_LINE (drop chunk tabEvents)) <$> starts))).
Proof.
  intros H. revert lines. induction starts as [|c starts IH]; intros lines.
  - simpl. by rewrite app_nil_r.
  - cbn [foldE]. rewrite (renderChunk_spec _ _ _ H). unfold mbind, Exc_bind.
    rewrite IH. rewrite !fmap_cons. cbn [concat]. by rewrite <- app_assoc.
Qed.

Lemma renderLines_spec tabEvents :
  Forall definedEvent tabEvents →
  renderLines tabEvents = Ok (concat (specBlock <$> blocksOf tabEvents)).
Proof. intros H. unfold renderLines. by rewrite foldE_renderChunk. Qed.

Lemma pretty_N_go_length k : ∀ x s,
  (x < 10 ^ N.of_nat k)%N →
  (String.length (pretty_N_go x s) ≤ String.length s + k)%nat.
Proof.
  induction k as [|k IH]; intros x s Hx.
  - assert (x = 0%N) as -> by (simpl in Hx; lia).
    rewrite pretty_N_go_0. lia.
  - destruct (decide (x = 0%N)) as [->|Hx0].
    + rewrite pretty_N_go_0. lia.
    + rewrite pretty_N_go_step by lia.
      assert (x `div` 10 < 10 ^ N.of_nat k)%N as Hdiv.
      { apply N.Div0.div_lt_upper_bound.
        rewrite Nat2N.inj_succ, N.pow_succ_r' in Hx. lia. }
      specialize (IH _ (String (pretty_N_char (x `mod` 10)) s) Hdiv).
      simpl in IH. lia.
Qed.

Lemma pretty_fret_width (f : Z) :
  0 ≤ f < 100000 → (String.length (pretty f) ≤ 5)%nat.
Proof.
  intros Hf. destruct f as [|p|p]; [simpl; lia| |lia].
  unfold pretty, pretty_Z, pretty, pretty_N.
  destruct (decide (N.pos p = 0%N)); [done|].
  apply (pretty_N_go_length 5 (N.pos p) ""). simpl. lia.
Qed.

Lemma filter_chunk_shift m :
  filter (λ c, (c mod PER_LINE = 0)%nat) (seq 8 m)
  = Nat.add 8 <$> filter (λ c, (c mod PER_LINE = 0)%nat) (seq 0 m).
Proof.
  change (seq 8 m) with (seq (8 + 0) m).
  rewrite <- (fmap_add_seq 8 0 m). generalize (seq 0 m). intros l.
  induction l as [|c l IH]; [done|].
  rewrite fmap_cons, !filter_cons, IH.
  assert ((8 + c) mod PER_LINE = c mod PER_LINE)%nat as Hmod.
  { unfold PER_LINE. replace (8 + c)%nat with (c + 1 * 8)%nat by lia.
    apply Nat.Div0.mod_add. }
  rewrite Hmod.
  by destruct (decide (c mod PER_LINE = 0)%nat).
Qed.

Lemma chunkStarts_step n :
  (0 < n)%nat → chunkStarts n = 0%nat :: (Nat.add 8 <$> chunkStarts (n - 8)).
Proof.
  intros Hn. unfold chunkStarts.
  destruct (decide (n ≤ 8)%nat) as [Hle|Hgt].
  - replace (n - 8)%nat with 0%nat by lia.
    assert (n = 1 ∨ n = 2 ∨ n = 3 ∨ n = 4 ∨ n = 5 ∨ n = 6 ∨ n = 7 ∨ n = 8)%nat
      as Hc by lia.
    by destruct Hc as [->|[->|[->|[->|[->|[->|[->| ->]]]]]]].
  - replace n with (8 + (n - 8))%nat at 1 by lia.
    rewrite seq_app, filter_app. change (0 + 8)%nat with 8%nat.
    by rewrite filter_chunk_shift.
Qed.

Lemma blocksOf_step evs :
  evs ≠ [] → blocksOf evs = take PER_LINE evs :: blocksOf (drop PER_LINE evs).
Proof.
  intros Hne. unfold blocksOf.
  rewrite chunkStarts_step by (destruct evs; [done|simpl; lia]).
  rewrite fmap_cons, drop_0, length_drop. f_equal.
  rewrite <- list_fmap_compose. apply list_fmap_ext. intros _ c _. simpl.
  by rewrite drop_drop.
Qed.

Lemma blocksOf_shape n : ∀ evs,
  (length evs ≤ n)%nat →
  concat (blocksOf evs) = evs
  ∧ ∀ i b, blocksOf evs !! i = Some b →
      (0 < length b ≤ PER_LINE)%nat
      ∧ ((S i < length (blocksOf evs))%nat → length b = PER_LINE).
Proof.
  induction n as [|n IH]; intros evs Hlen.
  - destruct evs; [|simpl in Hlen; lia]. split; [done|]. by intros i b.
  - destruct (decide (evs = [])) as [->|Hne].
    { split; [done|]. by intros i b. }
    rewrite (blocksOf_step _ Hne).
    assert (0 < length evs)%nat as Hpos by (destruct evs; [done|simpl; lia]).
    destruct (IH (drop PER_LINE evs)) as [Hcat Hshape].
    { rewrite length_drop. unfold PER_LINE. lia. }
    split.
    + simpl. by rewrite Hcat, take_drop.
    + intros [|i] b; simpl.
      * intros [= <-]. rewrite length_take. split; [unfold PER_LINE; lia|].
        intros Hmore.
        destruct (blocksOf (drop PER_LINE evs)) as [|b' bs] eqn:E;
          [simpl in Hmore; lia|].
        assert (drop PER_LINE evs ≠ []) as Hd by (by intros Hd; rewrite Hd in E).
        assert (PER_LINE < length evs)%nat.
        { destruct (decide (PER_LINE < length evs)%nat); [done|].
          exfalso. apply Hd. apply drop_ge. lia. }
        lia.
      * intros Hb. destruct (Hshape i b Hb) as [H1 H2]. split; [done|].
        intros Hmore. apply H2. lia.
Qed.

(** C8.  For events whose positions are all defined, with labels in ASCII
    and frets that are safe integers, not negative, the rendered text is
    the lines of the blocks joined by newlines, where the blocks cut the
    sequence into consecutive runs of 8 events (the last one of 1 to 8), and
    each block gives: the label row (four spaces, then each label filled
    with spaces to 6 characters) exactly when one of its events carries a
    label; the six string rows in order, each the string letter, a pipe,
    one column per event, a pipe; one empty line.  A column is a dash, then
    the fret in decimal (or a dash when the string has no position) filled
    with dashes to 5 characters: 6 characters in all for frets below
    100000.  The single event with position (string 4, fret 3) renders with
    the digit in row A only. *)
Theorem renderAsciiTab_blocks (tabEvents : list TabEvent) :
  Forall definedEvent tabEvents →
  Forall printable tabEvents →
  renderAsciiTab tabEvents
  = Ok (String.concat newline (concat (specBlock <$> blocksOf tabEvents)))
  ∧ concat (blocksOf tabEvents) = tabEvents
  ∧ (∀ i b, blocksOf tabEvents !! i = Some b →
       (0 < length b ≤ 8)%nat
       ∧ ((S i < length (blocksOf tabEvents))%nat → length b = 8%nat))
  ∧ (∀ s ev, ev ∈ tabEvents →
             String.length (specCell s ev)
             = (1 + String.length (fretText s ev) `max` 5)%nat)
  ∧ (∀ s ev, ev ∈ tabEvents →
             (∀ p, positionOn s ev = Some p → 0 ≤ p_fret p < 100000) →
             String.length (specCell s ev) = 6%nat)
  ∧ renderAsciiTab [a3]
    = Ok (String.concat newline
            ["e|------|"; "B|------|"; "G|------|"; "D|------|";
             "A|-3----|"; "E|------|"; ""]).
Proof.
  intros Hdef _.
  assert (∀ s ev, String.length (specCell s ev)
                  = (1 + String.length (fretText s ev) `max` 5)%nat) as Hcell.
  { intros s ev. unfold specCell. rewrite length_append, length_padEnd.
    done. }
  split; [|split; [|split; [|split; [by intros s ev _|split]]]].
  - unfold renderAsciiTab. by rewrite (renderLines_spec _ Hdef).
  - by apply (blocksOf_shape (length tabEvents)).
  - by apply (blocksOf_shape (length tabEvents)).
  - intros s ev _ Hfret. rewrite Hcell. unfold fretText.
    destruct (positionOn s ev) as [p|]; [|done].
    pose proof (pretty_fret_width _ (Hfret p eq_refl)). lia.
  - by vm_compute.
Qed.

Lemma renderAsciiTab_blocks_witness :
  renderAsciiTab [em7Labelled; a3]
  = Ok (String.concat newline
          (concat (specBlock <$> blocksOf [em7Labelled; a3]))).
Proof.
  apply (renderAsciiTab_blocks [em7Labelled; a3]).
  - repeat constructor; by eexists.
  - repeat constructor; simpl; unfold safeInteger; lia.
Defined.

(** * Further properties *)

(** ** Shared lemmas: the loops of the optimizer and of the mapper *)

Lemma fretboardLoop_acc tuning evs acc last :
  fretboardLoop tuning evs acc last
  = (rs ← fretboardLoop tuning evs [] last; Ok (acc ++ rs)).
Proof.
  revert acc last. induction evs as [|ev evs IH]; intros acc last; simpl.
  - by rewrite app_nil_r.
  - destruct (mapEvent tuning last ev) as [r|]; [simpl|done].
    rewrite (IH (acc ++ [r])), (IH [r]).
    destruct (fretboardLoop tuning evs [] (tab_positions r)); [simpl|done].
    by rewrite <- app_assoc.
Qed.

Lemma fretboardLoop_cons tuning ev evs last :
  fretboardLoop tuning (ev :: evs) [] last
  = (r ← mapEvent tuning last ev;
     rs ← fretboardLoop tuning evs [] (tab_positions r);
     Ok (r :: rs)).
Proof.
  simpl. destruct (mapEvent tuning last ev) as [r|]; [simpl|done].
  by rewrite fretboardLoop_acc.
Qed.

(** Every event of a mapped sequence is the mapped event of its input
    event, for some last positions. *)
Lemma fretboardLoop_events tuning evs : ∀ last rs,
  fretboardLoop tuning evs [] last = Ok rs →
  Forall2 (λ ev r, ∃ prev, mapEvent tuning prev ev = Ok r) evs rs.
Proof.
  induction evs as [|ev evs IH]; intros last rs.
  - intros [= <-]. constructor.
  - rewrite fretboardLoop_cons.
    destruct (mapEvent tuning last ev) as [r|] eqn:Er; [simpl|done].
    destruct (fretboardLoop tuning evs [] (tab_positions r)) as [rs'|] eqn:Ers;
      [simpl|done].
    intros [= <-]. constructor; [by exists last|by eapply IH].
Qed.

Lemma mapEvent_inv tuning prev ev r :
  mapEvent tuning prev ev = Ok r →
  ∃ css,
    mapE (λ n, getCandidates n tuning maxFret_default) (notesOf ev) = Ok css
    ∧ optimizeChord css prev = Ok (tab_positions r)
    ∧ tab_time r = time ev ∧ tab_duration r = duration ev
    ∧ tab_chord r = chordOrNull (chord ev).
Proof.
  unfold mapEvent.
  destruct (mapE _ (notesOf ev)) as [css|]; [simpl|done].
  destruct (optimizeChord css prev) as [best|] eqn:E; [simpl|done].
  intros [= <-]. by exists css.
Qed.

(** What the loop of the single-pitch path returns is the initial [best] or
    one of the candidates. *)
Lemma singleLoop_elem last cands : ∀ best k b,
  singleLoop last cands best k = Ok b → b = best ∨ ∃ c, c ∈ cands ∧ b = Some c.
Proof.
  induction cands as [|c cands IH]; intros best k b; simpl.
  - intros [= <-]. by left.
  - destruct (singleCost c last) as [cost|]; [simpl|done].
    destruct (ltb cost k); intros [H|(c' & Hc' & ->)]%IH.
    + right. exists c. split; [left|done].
    + right. exists c'. split; [by right|done].
    + by left.
    + right. exists c'. split; [by right|done].
Qed.

(** Every state of the beam holds one position per pitch. *)
Lemma beamSearch_positions css :
  Forall (λ s, Forall2 (λ p cs, p ∈ cs) (positions s) css) (beamSearch css).
Proof.
  induction css as [|cs css IH] using rev_ind.
  - repeat constructor.
  - rewrite beamSearch_snoc. apply Forall_forall. intros s' Hs'.
    apply beamStep_elem in Hs'. rewrite expandBeam_bind in Hs'.
    apply list_elem_of_bind in Hs' as (s & Hs' & Hs).
    apply list_elem_of_omap in Hs' as (c & Hc & Hs').
    eapply Forall_forall in IH; [|done].
    unfold expandOne in Hs'.
    destruct (decide _); [done|]. destruct (5 <? _); [done|].
    injection Hs' as <-. simpl. apply Forall2_app; [done|].
    by repeat constructor.
Qed.

Lemma fretboardLoop_app tuning evs1 evs2 : ∀ prev,
  fretboardLoop tuning (evs1 ++ evs2) [] prev
  = (rs1 ← fretboardLoop tuning evs1 [] prev;
     rs2 ← fretboardLoop tuning evs2 [] (lastOf prev rs1);
     Ok (rs1 ++ rs2)).
Proof.
  induction evs1 as [|ev evs1 IH]; intros prev.
  - simpl. unfold lastOf. simpl.
    by destruct (fretboardLoop tuning evs2 [] prev).
  - rewrite <- app_comm_cons, !fretboardLoop_cons.
    destruct (mapEvent tuning prev ev) as [r|]; [simpl|done].
    rewrite IH.
    destruct (fretboardLoop tuning evs1 [] (tab_positions r)) as [rs1|];
      [simpl|done].
    replace (lastOf prev (r :: rs1)) with (lastOf (tab_positions r) rs1).
    + by destruct (fretboardLoop tuning evs2 [] _).
    + unfold lastOf. rewrite last_cons. by destruct (last rs1).
Qed.

Lemma mapE_length {A B} (f : A → Exc B) l r :
  mapE f l = Ok r → length r = length l.
Proof.
  revert r. induction l as [|x l IH]; intros r; simpl.
  - by intros [= <-].
  - destruct (f x); [simpl|done]. destruct (mapE f l); [simpl|done].
    intros [= <-]. simpl. f_equal. by apply IH.
Qed.

(** The chord path does not read the last positions. *)
Lemma optimizeChord_chord_any css prev prev' :
  length css ≠ 1%nat → optimizeChord css prev = optimizeChord css prev'.
Proof. by destruct css as [|cs1 [|cs2 css]]. Qed.

Lemma mapEvent_chord_any tuning ev prev prev' :
  length (notesOf ev) ≠ 1%nat →
  mapEvent tuning prev ev = mapEvent tuning prev' ev.
Proof.
  intros Hlen. unfold mapEvent.
  destruct (mapE _ (notesOf ev)) as [css|] eqn:E; [simpl|done].
  apply mapE_length in E.
  rewrite (optimizeChord_chord_any css prev prev'); [done|congruence].
Qed.

Lemma foldE_fails {A B} (f : A → B → Exc A) l x :
  x ∈ l → (∀ a, f a x = TypeError) → ∀ a, foldE f l a = TypeError.
Proof.
  intros Hx Hf. induction l as [|y l IH]; intros a.
  - by apply elem_of_nil in Hx.
  - simpl. apply elem_of_cons in Hx as [<-|Hx]; [by rewrite Hf|].
    destruct (f a y); [simpl|done]. by apply IH.
Qed.

(** The loop of the mapper when no single pitch is out of reach: nothing
    is [undefined]. *)
Lemma fretboardLoop_defined tuning t evs :
  TUNINGS !! tuning = Some t →
  Forall (λ ev, ¬ unreachableSingle (notes t) ev) evs →
  ∀ prev, Forall is_Some prev →
    ∃ rs, fretboardLoop tuning evs [] prev = Ok rs ∧ Forall definedEvent rs.
Proof.
  intros Ht Hevs prev Hprev.
  destruct (fretboardLoop_threaded tuning t evs Ht [] prev Hprev Hevs)
    as (rs & Hrs & Hthr).
  exists rs. split; [done|]. clear Hrs. revert prev rs Hprev Hthr.
  induction Hevs as [|ev evs Hev Hevs IH]; intros prev [|r rs] Hprev;
    simpl; try done.
  intros [(_ & _ & _ & Hopt) Hthr].
  assert (definedEvent r) as Hr.
  { destruct (optimizeChord_defined
                (candidateSetsOf (notes t) maxFret_default (notesOf ev))
                prev Hprev) as [ps Hps].
    - intros Heq. apply Hev. unfold candidateSetsOf in Heq.
      destruct (notesOf ev) as [|n [|n' ns]] eqn:En; try done.
      exists n. split; [done|]. by injection Heq.
    - rewrite Hps in Hopt. injection Hopt as Hopt. unfold definedEvent.
      rewrite <- Hopt. apply fmap_Some_defined. }
  constructor; [done|]. by apply (IH (tab_positions r)).
Qed.

Lemma gridColumn_defined ev :
  definedEvent ev → ∃ cells, gridColumn ev = Ok cells.
Proof.
  intros Hev. unfold gridColumn, gridCell. simpl.
  rewrite !(findByString_defined _ _ Hev). simpl. by eexists.
Qed.

(** ** The candidate generator: ranges, tunings, fret bounds *)

Lemma getCandidates_preset midiNote tuning t maxFret :
  TUNINGS !! tuning = Some t →
  getCandidates midiNote tuning maxFret
  = Ok (getCandidates_open midiNote (notes t) maxFret).
Proof. intros Ht. unfold getCandidates. by rewrite Ht. Qed.

Lemma getCandidates_open_some midiNote open maxFret s o :
  0 ≤ s < 6 → open !! Z.to_nat s = Some o → 0 ≤ midiNote - o ≤ maxFret →
  getCandidates_open midiNote open maxFret ≠ [].
Proof.
  intros Hs Ho Hf Hnil.
  assert (mkPos s (midiNote - o) ∈ getCandidates_open midiNote open maxFret)
    as Hin.
  { apply getCandidates_open_elem. simpl. split; [done|]. split; [|done].
    rewrite Ho. f_equal. lia. }
  rewrite Hnil in Hin. by apply elem_of_nil in Hin.
Qed.

(** X1.  The range of the instrument.  With the default bound of 22 frets
    a pitch has a candidate exactly when it lies between the lowest open
    string and 22 frets above the highest: 40 to 86 in standard tuning, 38
    to 86 in drop D, 39 to 85 a half step down.  Outside the range the
    generator returns the empty list. *)
Theorem reachable_pitches_of_the_presets (midiNote : Z) :
  (getCandidates midiNote "standard" maxFret_default = Ok []
   ↔ ¬ 40 ≤ midiNote ≤ 86)
  ∧ (getCandidates midiNote "dropD" maxFret_default = Ok []
     ↔ ¬ 38 ≤ midiNote ≤ 86)
  ∧ (getCandidates midiNote "halfDown" maxFret_default = Ok []
     ↔ ¬ 39 ≤ midiNote ≤ 85).
Proof.
  rewrite (getCandidates_preset _ "standard"
             (mkTuning "Standard" [64; 59; 55; 50; 45; 40])) by done.
  rewrite (getCandidates_preset _ "dropD"
             (mkTuning "Drop D" [64; 59; 55; 50; 45; 38])) by done.
  rewrite (getCandidates_preset _ "halfDown"
             (mkTuning "½ Step Down" [63; 58; 54; 49; 44; 39])) by done.
  unfold maxFret_default. simpl notes.
  split; [|split]; split.
  - intros [= Hnil] Hr. revert Hnil.
    destruct (decide (midiNote ≤ 62)); [|destruct (decide (midiNote ≤ 81))].
    + apply (getCandidates_open_some _ _ _ 5 40); [lia|done|lia].
    + apply (getCandidates_open_some _ _ _ 1 59); [lia|done|lia].
    + apply (getCandidates_open_some _ _ _ 0 64); [lia|done|lia].
  - intros Hr. f_equal. apply getCandidates_open_none.
    intros s o Hs%list_elem_of_lookup_2. each_elem Hs lia.
  - intros [= Hnil] Hr. revert Hnil.
    destruct (decide (midiNote ≤ 60)); [|destruct (decide (midiNote ≤ 81))].
    + apply (getCandidates_open_some _ _ _ 5 38); [lia|done|lia].
    + apply (getCandidates_open_some _ _ _ 1 59); [lia|done|lia].
    + apply (getCandidates_open_some _ _ _ 0 64); [lia|done|lia].
  - intros Hr. f_equal. apply getCandidates_open_none.
    intros s o Hs%list_elem_of_lookup_2. each_elem Hs lia.
  - intros [= Hnil] Hr. revert Hnil.
    destruct (decide (midiNote ≤ 61)); [|destruct (decide (midiNote ≤ 80))].
    + apply (getCandidates_open_some _ _ _ 5 39); [lia|done|lia].
    + apply (getCandidates_open_some _ _ _ 1 58); [lia|done|lia].
    + apply (getCandidates_open_some _ _ _ 0 63); [lia|done|lia].
  - intros Hr. f_equal. apply getCandidates_open_none.
    intros s o Hs%list_elem_of_lookup_2. each_elem Hs lia.
Qed.

Lemma candidateAt_shift midiNote open maxFret k s :
  candidateAt (midiNote + k) ((λ o, o + k) <$> open) maxFret s
  = candidateAt midiNote open maxFret s.
Proof.
  unfold candidateAt. rewrite list_lookup_fmap.
  destruct (open !! Z.to_nat s) as [o|]; simpl; [|done].
  by replace (midiNote + k - (o + k)) with (midiNote - o) by lia.
Qed.

(** X2.  Retuning every string by [k] semitones moves every pitch by [k]:
    the candidates of [midiNote + k] on the retuned strings are the
    candidates of [midiNote] on the original ones.  So the half-step-down
    preset maps a pitch as the standard preset maps the pitch a semitone
    higher. *)
Theorem retuning_shifts_the_pitches (midiNote maxFret k : Z) (open : list Z) :
  getCandidates_open (midiNote + k) ((λ o, o + k) <$> open) maxFret
  = getCandidates_open midiNote open maxFret
  ∧ getCandidates midiNote "halfDown" maxFret
    = getCandidates (midiNote + 1) "standard" maxFret.
Proof.
  assert (∀ n o, getCandidates_open (n + k) ((λ o, o + k) <$> o) maxFret
                 = getCandidates_open n o maxFret) as Hshift.
  { intros n o. rewrite !getCandidates_open_omap.
    apply list_omap_ext, Forall_Forall2_diag, Forall_forall. intros s _.
    apply candidateAt_shift. }
  split; [apply Hshift|].
  rewrite (getCandidates_preset _ "standard"
             (mkTuning "Standard" [64; 59; 55; 50; 45; 40])) by done.
  rewrite (getCandidates_preset _ "halfDown"
             (mkTuning "½ Step Down" [63; 58; 54; 49; 44; 39])) by done.
  f_equal. simpl notes. clear Hshift.
  rewrite !getCandidates_open_omap.
  apply list_omap_ext, Forall_Forall2_diag, Forall_forall. intros s Hs.
  unfold candidateAt.
  each_elem Hs ltac:(simpl;
    match goal with
    | |- context [midiNote + 1 - ?a] =>
        replace (midiNote + 1 - a) with (midiNote - (a - 1)) by lia
    end; done).
Qed.

Lemma filter_omap_candidateAt midiNote open m m' (l : list Z) :
  m ≤ m' →
  filter (λ p, p_fret p ≤ m) (omap (candidateAt midiNote open m') l)
  = omap (candidateAt midiNote open m) l.
Proof.
  intros Hm. induction l as [|s l IH]; [done|]. csimpl.
  destruct (candidateAt midiNote open m' s) as [p|] eqn:E';
    destruct (candidateAt midiNote open m s) as [q|] eqn:E.
  - apply candidateAt_Some in E as (Hs & Ho & Hf).
    apply candidateAt_Some in E' as (Hs' & Ho' & Hf').
    assert (p = q) as ->.
    { destruct p, q. simpl in *. f_equal; [congruence|].
      rewrite Ho in Ho'. injection Ho'. lia. }
    rewrite filter_cons, decide_True by lia. by rewrite IH.
  - rewrite filter_cons, decide_False; [done|]. intros Hle.
    apply candidateAt_Some in E' as (Hs' & Ho' & Hf').
    assert (candidateAt midiNote open m s = Some p) as H.
    { apply candidateAt_Some. repeat split; (done || lia). }
    by rewrite H in E.
  - apply candidateAt_Some in E as (Hs & Ho & Hf).
    assert (candidateAt midiNote open m' s = Some q) as H.
    { apply candidateAt_Some. repeat split; (done || lia). }
    by rewrite H in E'.
  - done.
Qed.

(** X3.  The fret bound only filters.  The candidates under a bound are,
    in the same order, the candidates under any larger bound whose fret is
    within the smaller one; there are never more than six. *)
Theorem lower_fret_bound_filters_the_candidates (midiNote : Z) (open : list Z)
    (maxFret maxFret' : Z) :
  maxFret ≤ maxFret' →
  getCandidates_open midiNote open maxFret
  = filter (λ p, p_fret p ≤ maxFret)
      (getCandidates_open midiNote open maxFret')
  ∧ (length (getCandidates_open midiNote open maxFret') ≤ 6)%nat.
Proof.
  intros Hm. rewrite !getCandidates_open_omap. split.
  - symmetry. by apply filter_omap_candidateAt.
  - etrans; [apply omap_length_le|]. done.
Qed.

Lemma lower_fret_bound_filters_the_candidates_witness :
  getCandidates_open 64 standardOpen 12
  = filter (λ p, p_fret p ≤ 12) (getCandidates_open 64 standardOpen 22).
Proof.
  apply (lower_fret_bound_filters_the_candidates 64 standardOpen 12 22). lia.
Defined.

Lemma fretboardLoop_unknown tuning evs :
  TUNINGS !! tuning = None →
  ∀ prev, fretboardLoop tuning evs [] prev = TypeError
          ↔ Exists (λ ev, notesOf ev ≠ []) evs.
Proof.
  intros Ht. induction evs as [|ev evs IH]; intros prev.
  - split; [done|]. by intros ?%Exists_nil.
  - rewrite fretboardLoop_cons, Exists_cons. unfold mapEvent.
    destruct (notesOf ev) as [|n ns] eqn:En.
    + simpl. split.
      * intros H. right. apply (IH []).
        by destruct (fretboardLoop tuning evs [] []).
      * intros [?|H]; [done|]. apply (IH []) in H. by rewrite H.
    + simpl.
      assert (getCandidates n tuning maxFret_default = TypeError) as ->
        by (unfold getCandidates; by rewrite Ht).
      split; [|done]. intros _. by left.
Qed.

(** X4.  A tuning that is not a preset.  A key other than ["standard"],
    ["dropD"] and ["halfDown"] makes the generator throw for every pitch,
    and makes the mapper throw as soon as one event holds a pitch; a
    sequence of events without pitches is still mapped, to events without
    positions. *)
Theorem unknown_tuning_throws (tuning : string) :
  tuning ∉ ["standard"; "dropD"; "halfDown"] →
  (∀ midiNote maxFret, getCandidates midiNote tuning maxFret = TypeError)
  ∧ (∀ events, fretboardMap events tuning = TypeError
               ↔ Exists (λ ev, notesOf ev ≠ []) events)
  ∧ (∀ events rs, fretboardMap events tuning = Ok rs →
       Forall (λ r, tab_positions r = []) rs).
Proof.
  intros Hkey.
  assert (TUNINGS !! tuning = None) as Ht.
  { unfold TUNINGS. rewrite !lookup_insert_ne; [done|..];
      intros <-; apply Hkey; rewrite !elem_of_cons; tauto. }
  split; [|split].
  - intros midiNote maxFret. unfold getCandidates. by rewrite Ht.
  - intros events. by apply fretboardLoop_unknown.
  - intros events rs Hrs.
    assert (¬ Exists (λ ev, notesOf ev ≠ []) events) as Hnone.
    { intros H%(fretboardLoop_unknown tuning events Ht []).
      unfold fretboardMap in Hrs. by rewrite H in Hrs. }
    apply fretboardLoop_events in Hrs. clear Ht Hkey.
    induction Hrs as [|ev r evs rs (prev & Hr) _ IH]; [constructor|].
    constructor.
    + apply mapEvent_inv in Hr as (css & Hcss & Hopt & _).
      destruct (notesOf ev) as [|n ns] eqn:En.
      * injection Hcss as <-. by injection Hopt.
      * destruct Hnone. left. by rewrite En.
    + apply IH. intros H. apply Hnone. by right.
Qed.

Lemma unknown_tuning_throws_witness :
  getCandidates 40 "drop_d" 22 = TypeError
  ∧ (fretboardMap [silent; openE] "drop_d" = TypeError
     ↔ Exists (λ ev, notesOf ev ≠ []) [silent; openE]).
Proof.
  destruct (unknown_tuning_throws "drop_d") as (H1 & H2 & _).
  - rewrite !elem_of_cons, elem_of_nil. intuition discriminate.
  - split; [apply H1|apply H2].
Defined.

(** ** The optimizer: failures and sizes *)

Lemma mapE_moveDistance_fails c last :
  mapE (moveDistance c) last = TypeError ↔ None ∈ last.
Proof.
  induction last as [|[lp|] last IH]; simpl.
  - split; [done|]. by intros ?%elem_of_nil.
  - destruct (mapE (moveDistance c) last); simpl.
    + split; [done|]. intros [?|H]%elem_of_cons; [done|]. by apply IH in H.
    + split; [|done]. intros _. right. by apply IH.
  - split; [|done]. intros _. left.
Qed.

Lemma singleCost_fails c last :
  singleCost c last = TypeError ↔ None ∈ last.
Proof.
  unfold singleCost. destruct last as [|lp last].
  - simpl. split; [done|]. by intros ?%elem_of_nil.
  - change (0 <? length (lp :: last))%nat with true. cbv iota.
    rewrite <- (mapE_moveDistance_fails c).
    destruct (mapE (moveDistance c) (lp :: last)); simpl; by split.
Qed.

Lemma singleLoop_fails last cands best k :
  singleLoop last cands best k = TypeError ↔ cands ≠ [] ∧ None ∈ last.
Proof.
  revert best k. induction cands as [|c cands IH]; intros best k; simpl.
  - split; [done|]. by intros [? _].
  - destruct (singleCost c last) as [cost|] eqn:E; simpl.
    + assert (None ∉ last) as Hlast.
      { intros H%(singleCost_fails c). by rewrite H in E. }
      destruct (ltb cost k); rewrite IH; split; intros [_ H]; done.
    + apply singleCost_fails in E. by split.
Qed.

(** X5.  The one failure of the optimizer.  [optimizeChord] throws exactly
    when it is given a single candidate set that is not empty, and last
    positions among which one is [undefined]: the chord path, the empty
    event and the single pitch without candidate never throw. *)
Theorem optimizeChord_throws_iff (candidateSets : list (list Position))
    (lastPositions : list (option Position)) :
  optimizeChord candidateSets lastPositions = TypeError
  ↔ ∃ cands, candidateSets = [cands] ∧ cands ≠ [] ∧ None ∈ lastPositions.
Proof.
  destruct candidateSets as [|cs1 [|cs2 css]].
  - split; [done|]. by intros (? & ? & _).
  - unfold optimizeChord.
    pose proof (singleLoop_fails lastPositions cs1 (head cs1) Infinity) as H.
    destruct (singleLoop lastPositions cs1 (head cs1) Infinity); simpl.
    + split; [done|]. intros (? & [= <-] & H1 & H2).
      by destruct H as [_ H]; specialize (H (conj H1 H2)).
    + split; [|done]. intros _. exists cs1. split; [done|]. by apply H.
  - rewrite optimizeChord_chord. split; [done|]. by intros (? & ? & _).
Qed.

Lemma firstCandidates_length css :
  length (firstCandidates css) = length (filter (λ cs, cs ≠ []) css).
Proof.
  unfold firstCandidates. induction css as [|cs css IH]; [done|].
  rewrite filter_cons. destruct (decide (cs ≠ [])) as [Hne|He].
  - destruct cs as [|c cs]; [done|]. simpl. by f_equal.
  - destruct cs as [|c cs]; [done|]. by destruct He.
Qed.

Lemma survivor_sets_nonempty (ps : list Position) css :
  Forall2 (λ p cs, p ∈ cs) ps css → filter (λ cs, cs ≠ []) css = css.
Proof.
  induction 1 as [|p cs ps css Hp _ IH]; [done|].
  rewrite filter_cons, decide_True, IH; [done|].
  intros ->. by apply elem_of_nil in Hp.
Qed.

(** X6.  The size of the result.  When [optimizeChord] returns, a single
    candidate set gives an array of one entry, and any other number of sets
    gives one position for every candidate set that is not empty: never
    more entries than pitches, and as many when every pitch has a
    candidate. *)
Theorem optimizeChord_result_size (candidateSets : list (list Position))
    (lastPositions best : list (option Position)) :
  optimizeChord candidateSets lastPositions = Ok best →
  length best
  = (if decide (length candidateSets = 1%nat) then 1%nat
     else length (filter (λ cs, cs ≠ []) candidateSets))
  ∧ (length best ≤ length candidateSets)%nat
  ∧ (Forall (λ cs, cs ≠ []) candidateSets →
       length best = length candidateSets ∧ Forall is_Some best).
Proof.
  intros Hbest.
  assert (∀ sets : list (list Position), Forall (λ cs, cs ≠ []) sets →
            filter (λ cs : list Position, cs ≠ []) sets = sets) as Hall.
  { clear. induction 1 as [|cs css Hcs _ IH]; [done|].
    rewrite filter_cons, decide_True by done. by rewrite IH. }
  destruct candidateSets as [|cs1 [|cs2 css]].
  - injection Hbest as <-. by repeat split.
  - unfold optimizeChord in Hbest.
    destruct (singleLoop _ _ _ _) as [b|] eqn:E; [simpl in Hbest|done].
    injection Hbest as <-. split; [done|]. split; [done|].
    intros [Hne _]%Forall_cons. split; [done|]. repeat constructor.
    apply singleLoop_elem in E as [->|(c & _ & ->)]; [|done].
    by destruct cs1.
  - rewrite decide_False by (simpl; lia).
    set (sets := cs1 :: cs2 :: css) in *.
    assert (2 ≤ length sets)%nat as Hlen by (simpl; lia). clearbody sets.
    assert (length best = length (filter (λ cs, cs ≠ []) sets)
            ∧ Forall is_Some best) as [Hsize Hsome].
    { destruct (beamSearch sets) as [|s beam] eqn:E.
      - rewrite (optimizeChord_fallback _ _ Hlen E) in Hbest.
        injection Hbest as <-.
        split; [|apply fmap_Some_defined].
        by rewrite length_fmap, firstCandidates_length.
      - rewrite (optimizeChord_survivor _ _ _ _ Hlen E) in Hbest.
        injection Hbest as <-.
        split; [|apply fmap_Some_defined].
        pose proof (beamSearch_positions sets) as H. rewrite E in H.
        apply Forall_cons in H as [H _].
        rewrite (survivor_sets_nonempty _ _ H), length_fmap.
        by eapply Forall2_length. }
    split; [done|]. split.
    + rewrite Hsize. apply length_filter.
    + intros H. by rewrite Hsize, (Hall _ H).
Qed.

Lemma optimizeChord_result_size_witness :
  length [Some (mkPos 0 0); Some (mkPos 1 0)] = 2%nat.
Proof.
  apply (optimizeChord_result_size [[mkPos 0 0]; []; [mkPos 1 0]] []
           [Some (mkPos 0 0); Some (mkPos 1 0)]).
  by vm_compute.
Defined.

(** ** The single-pitch path: which candidate wins *)

Lemma single_firstMin cands prior :
  cands ≠ [] → Forall (λ c, 0 ≤ p_fret c) cands →
  ∃ i best,
    firstMin (λ c, specSingleCost c prior) cands i best
    ∧ optimizeChord [cands] (Some <$> prior) = Ok [Some best].
Proof.
  intros Hne Hall. destruct cands as [|c rest]; [done|]. clear Hne.
  unfold optimizeChord. simpl. rewrite singleCost_spec. simpl.
  assert (specSingleCost c prior ≠ S754_nan) as Hnan.
  { apply specSingleCost_not_nan. by apply Forall_cons in Hall as [? _]. }
  assert (firstMin (λ c, specSingleCost c prior) [c] 0 c) as Hfirst.
  { split; [done|]. split.
    - intros c' ->%list_elem_of_singleton. apply ltb_irrefl.
    - intros j c' Hj. lia. }
  destruct (singleLoop_firstMin prior rest [c] 0%nat c Hall Hfirst)
    as (i & best & Hmin & Hloop).
  exists i, best. split; [done|].
  destruct (ltb (specSingleCost c prior) Infinity) eqn:E.
  - by rewrite Hloop.
  - rewrite <- (not_lt_Infinity _ Hnan E). by rewrite Hloop.
Qed.

Lemma onFretboard_fretboard p : onFretboard p → p ∈ fretboard.
Proof.
  intros [Hs Hf]. unfold fretboard.
  apply list_elem_of_bind. exists (p_string p). split.
  - apply list_elem_of_bind. exists (p_fret p). split.
    + destruct p. simpl. left.
    + apply elem_of_seqZ. lia.
  - apply elem_of_seqZ. lia.
Qed.

Lemma firstCost_order f f' :
  0 ≤ f ≤ 22 → 0 ≤ f' ≤ 22 → ltb (firstCost f) (firstCost f') = (f <? f').
Proof.
  intros Hf Hf'.
  assert (forallb (λ a, forallb (λ b,
            bool_decide (ltb (firstCost a) (firstCost b) = (a <? b)))
            (seqZ 0 23)) (seqZ 0 23) = true) as H by by vm_compute.
  rewrite forallb_forall in H.
  assert (∀ x, 0 ≤ x ≤ 22 → In x (seqZ 0 23)) as Hin.
  { intros x Hx. apply list_elem_of_In, elem_of_seqZ. lia. }
  specialize (H f (Hin f Hf)). rewrite forallb_forall in H.
  specialize (H f' (Hin f' Hf')).
  by apply bool_decide_eq_true in H.
Qed.

(** X7.  The first note goes to the lowest fret.  With no position before
    it, a single pitch whose candidates lie within frets 0 to 22 is given
    the candidate of lowest fret, the first one in candidate order if two
    share that fret: an open string whenever one sounds the pitch. *)
Theorem first_note_takes_the_lowest_fret (cands : list Position) :
  cands ≠ [] →
  Forall (λ c, 0 ≤ p_fret c ≤ 22) cands →
  ∃ i best,
    optimizeChord [cands] [] = Ok [Some best]
    ∧ cands !! i = Some best
    ∧ (∀ c, c ∈ cands → p_fret best ≤ p_fret c)
    ∧ (∀ j c, (j < i)%nat → cands !! j = Some c → p_fret best < p_fret c).
Proof.
  intros Hne Hall.
  assert (∀ c, specSingleCost c [] = firstCost (p_fret c)) as Hcost by done.
  destruct (single_firstMin cands [] Hne)
    as (i & best & (Hi & Hmin & Hfst) & Hopt).
  { eapply Forall_impl; [done|]. simpl. lia. }
  assert (0 ≤ p_fret best ≤ 22) as Hbest.
  { apply list_elem_of_lookup_2 in Hi. by eapply Forall_forall in Hall. }
  exists i, best. split; [done|]. split; [done|]. split.
  - intros c Hc. specialize (Hmin c Hc). rewrite !Hcost in Hmin.
    eapply Forall_forall in Hall; [|exact Hc].
    rewrite firstCost_order in Hmin by done. lia.
  - intros j c Hj Hc. specialize (Hfst j c Hj Hc). rewrite !Hcost in Hfst.
    apply list_elem_of_lookup_2 in Hc.
    eapply Forall_forall in Hall; [|exact Hc].
    rewrite firstCost_order in Hfst by done. lia.
Qed.

Lemma first_note_takes_the_lowest_fret_witness :
  ∃ i best,
    optimizeChord [[mkPos 1 5; mkPos 2 9; mkPos 0 0]] [] = Ok [Some best]
    ∧ [mkPos 1 5; mkPos 2 9; mkPos 0 0] !! i = Some best
    ∧ (∀ c, c ∈ [mkPos 1 5; mkPos 2 9; mkPos 0 0] → p_fret best ≤ p_fret c)
    ∧ (∀ j c, (j < i)%nat → [mkPos 1 5; mkPos 2 9; mkPos 0 0] !! j = Some c →
              p_fret best < p_fret c).
Proof.
  apply (first_note_takes_the_lowest_fret [mkPos 1 5; mkPos 2 9; mkPos 0 0]).
  - done.
  - repeat constructor; simpl; lia.
Defined.

Lemma stay_is_cheapest p c :
  onFretboard p → onFretboard c → c ≠ p →
  ltb (specSingleCost p [p]) (specSingleCost c [p]) = true.
Proof.
  intros Hp%onFretboard_fretboard Hc%onFretboard_fretboard Hne.
  assert (forallb (λ p, forallb (λ c,
            bool_decide (c = p)
            || ltb (specSingleCost p [p]) (specSingleCost c [p]))
            fretboard) fretboard = true) as H by by vm_compute.
  rewrite forallb_forall in H.
  specialize (H p). rewrite forallb_forall in H.
  specialize (H (proj1 (list_elem_of_In _ _) Hp) c
                (proj1 (list_elem_of_In _ _) Hc)).
  apply orb_true_iff in H as [H|H]; [|done].
  by apply bool_decide_eq_true_1 in H.
Qed.

Lemma single_stays cands p :
  Forall onFretboard cands → p ∈ cands →
  optimizeChord [cands] [Some p] = Ok [Some p].
Proof.
  intros Hall Hp.
  destruct (single_firstMin cands [p]) as (i & best & (Hi & Hmin & _) & Hopt).
  { intros ->. by apply elem_of_nil in Hp. }
  { eapply Forall_impl; [done|]. intros c [_ Hc]. lia. }
  change (Some <$> [p]) with [Some p] in Hopt. rewrite Hopt.
  destruct (decide (best = p)) as [->|Hne]; [done|].
  specialize (Hmin p Hp). apply list_elem_of_lookup_2 in Hi.
  rewrite stay_is_cheapest in Hmin;
    [done| |by eapply Forall_forall in Hall|done].
  by eapply Forall_forall in Hall.
Qed.

(** X8.  A repeated note keeps its position.  In a preset tuning, when two
    consecutive events hold the same single pitch and the mapping returns,
    the two mapped events have the same positions: the hand does not move
    for a note that is played again, whatever was played before. *)
Theorem repeated_note_keeps_its_position (evs : list NoteEvent)
    (e1 e2 : NoteEvent) (n : Z) (tuning : string) (t : Tuning)
    (rs : list TabEvent) :
  TUNINGS !! tuning = Some t →
  notesOf e1 = [n] → notesOf e2 = [n] →
  fretboardMap (evs ++ [e1; e2]) tuning = Ok rs →
  ∃ rs0 r1 r2,
    rs = rs0 ++ [r1; r2]
    ∧ fretboardMap evs tuning = Ok rs0
    ∧ tab_positions r2 = tab_positions r1.
Proof.
  intros Ht He1 He2. unfold fretboardMap. rewrite fretboardLoop_app.
  destruct (fretboardLoop tuning evs [] []) as [rs0|]; [|done].
  cbn -[fretboardLoop]. rewrite !fretboardLoop_cons.
  destruct (mapEvent tuning (lastOf [] rs0) e1) as [r1|] eqn:E1; [|done].
  cbn -[fretboardLoop]. rewrite fretboardLoop_cons.
  destruct (mapEvent tuning (tab_positions r1) e2) as [r2|] eqn:E2; [|done].
  cbn. intros [= <-]. exists rs0, r1, r2. split; [done|]. split; [done|].
  apply mapEvent_inv in E1 as (css1 & Hcss1 & Hopt1 & _).
  apply mapEvent_inv in E2 as (css2 & Hcss2 & Hopt2 & _).
  rewrite He1, (mapE_getCandidates _ _ _ _ Ht) in Hcss1.
  rewrite He2, (mapE_getCandidates _ _ _ _ Ht) in Hcss2.
  injection Hcss1 as <-. injection Hcss2 as <-.
  unfold candidateSetsOf in Hopt1, Hopt2. cbn [map] in Hopt1, Hopt2.
  set (cands := getCandidates_open n (notes t) maxFret_default) in *.
  assert (Forall onFretboard cands) as Hbox.
  { apply Forall_forall. intros c Hc. apply getCandidates_open_elem in Hc.
    unfold onFretboard, maxFret_default in *. lia. }
  unfold optimizeChord in Hopt1.
  destruct (singleLoop (lastOf [] rs0) cands (head cands) Infinity)
    as [b|] eqn:Eb; [|done].
  cbn in Hopt1. injection Hopt1 as Hopt1. rewrite <- Hopt1 in Hopt2 |- *.
  apply singleLoop_elem in Eb as [->|(c & Hc & ->)].
  - clearbody cands. destruct cands as [|c cands']; [by injection Hopt2|].
    cbn [head] in Hopt2 |- *.
    rewrite single_stays in Hopt2; [by injection Hopt2|done|left].
  - rewrite single_stays in Hopt2; [by injection Hopt2|done|done].
Qed.

Lemma repeated_note_keeps_its_position_witness :
  ∃ rs0 r1 r2,
    [mkTabEvent c0_5 c0_5 [Some (mkPos 5 0)] None;
     mkTabEvent c0_5 c0_5 [Some (mkPos 5 0)] None]
    = rs0 ++ [r1; r2]
    ∧ fretboardMap [] "standard" = Ok rs0
    ∧ tab_positions r2 = tab_positions r1.
Proof.
  apply (repeated_note_keeps_its_position [] openE openE 40 "standard"
           (mkTuning "Standard" standardOpen)); by vm_compute.
Defined.

(** ** The chord path: when the beam does not cut *)

(** X9.  Small chords are mapped at the least cost.  For a chord of two
    pitches or more, with candidates on the six strings at safe frets, when
    the sizes of the candidate sets before the last multiply to at most 20
    the beam never cuts: if an assignment on distinct strings within span 5
    exists, [optimizeChord] returns such an assignment, and no such
    assignment costs less under the chord cost model, costs being compared
    as the finite binary64 values they are. *)
Theorem small_chords_are_mapped_at_least_cost (css : list (list Position))
    (last : list (option Position)) (ps : list Position) :
  (2 ≤ length css)%nat →
  Forall (Forall wfPosition) css →
  Forall (Forall safeFret) css →
  (product (length <$> take (length css - 1) css) ≤ 20)%nat →
  feasible css ps →
  ∃ best,
    optimizeChord css last = Ok (Some <$> best)
    ∧ feasible css best
    ∧ scaled (pathCost best) ≤ scaled (pathCost ps)
    ∧ ltb (sub (pathCost ps) (pathCost best)) zero = false.
Proof.
  intros Hlen Hwf Hsafe Hprod Hps.
  destruct css as [|cs css _] using rev_ind; [simpl in Hlen; lia|].
  rewrite length_app in Hlen, Hprod. simpl in Hlen, Hprod.
  replace (length css + 1 - 1)%nat with (length css) in Hprod by lia.
  rewrite take_app_length in Hprod.
  pose proof Hwf as Hwf'.
  apply Forall_app in Hwf as [Hwf Hcs]. rewrite Forall_singleton in Hcs.
  apply Forall_app in Hsafe as [Hsafe Hcsafe].
  rewrite Forall_singleton in Hcsafe.
  pose proof (beamSearch_good css Hwf) as Hgood.
  pose proof (beamSearch_cost_bound css Hwf Hsafe) as Hcost.
  pose proof (expandBeam_spec css _ _ Hwf Hcs Hgood) as Hexp.
  assert (Forall (λ s, magBound 102 (cost s))
            (specExpand (beamSearch css) cs)) as Hbound.
  { apply Forall_forall. intros s' Hs'.
    apply specExpand_elem in Hs' as (s & c & Hs & Hc & Ha & ->).
    eapply Forall_forall in Hgood; [|done].
    eapply Forall_forall in Hcost; [|done].
    pose proof (goodState_at_most_six _ _ Hwf Hgood) as Hsix.
    pose proof (specChild_cost_bound css cs s c Hwf Hcs Hcsafe Hgood Hc Ha Hcost)
      as Hb.
    eapply magBound_mono; [|exact Hb]. rewrite length_app. simpl. lia. }
  assert (∀ a b, a ∈ specExpand (beamSearch css) cs →
            b ∈ specExpand (beamSearch css) cs →
            cmpNeg a b = bool_decide (scaled (cost a) < scaled (cost b)))
    as Hcmp.
  { intros a b Ha Hb.
    eapply Forall_forall in Ha; [|exact Hbound].
    eapply Forall_forall in Hb; [|exact Hbound].
    by apply (cmpNeg_scaled 102). }
  pose proof (sortByCost_sorted _ Hcmp) as Hsorted.
  assert (beamSearch (css ++ [cs])
          = take 20 (sortByCost (specExpand (beamSearch css) cs))) as Hstep.
  { rewrite beamSearch_snoc. unfold beamStep. by rewrite Hexp. }
  (* the state of [ps] is among the states expanded at the last pitch *)
  pose proof Hps as Hfeas.
  apply feasible_snoc_inv in Hps as (ps' & c & -> & Hps' & Hc & Hfree).
  destruct (beamSearch_complete css Hwf Hprod ps' Hps') as (s0 & Hs0 & Hpos).
  pose proof Hgood as Hgood0. eapply Forall_forall in Hgood0; [|exact Hs0].
  assert (admissible s0 c) as Hadm.
  { split; rewrite Hpos; [done|].
    by destruct Hfeas as (_ & _ & Hspan). }
  assert (specChild s0 c ∈ specExpand (beamSearch css) cs) as Hchild.
  { apply specExpand_elem. by exists s0, c. }
  pose proof (goodState_child css cs s0 c Hwf Hcs Hgood0 Hc Hadm)
    as (_ & _ & _ & _ & Hcost0).
  (* the first state of the sorted expansion *)
  pose proof Hchild as Hin.
  rewrite <- (sortByCost_perm (specExpand (beamSearch css) cs)) in Hin.
  destruct (sortByCost (specExpand (beamSearch css) cs)) as [|s rest] eqn:Es;
    [by apply elem_of_nil in Hin|].
  simpl in Hstep.
  assert (s ∈ specExpand (beamSearch css) cs) as Hs.
  { rewrite <- (sortByCost_perm (specExpand (beamSearch css) cs)), Es. left. }
  assert (goodState (css ++ [cs]) s) as Hgs.
  { pose proof (beamSearch_good (css ++ [cs]) Hwf') as H.
    rewrite Hstep in H. by apply Forall_cons in H as [H _]. }
  assert (costLe s (specChild s0 c)) as Hle.
  { apply StronglySorted_inv in Hsorted as [_ Hall].
    apply elem_of_cons in Hin as [->|Hin]; [unfold costLe; lia|].
    by eapply Forall_forall in Hall. }
  unfold costLe in Hle. rewrite Hcost0 in Hle. simpl in Hle.
  rewrite Hpos in Hle.
  destruct Hgs as (Hg1 & Hg2 & Hg3 & Hg4 & Hg5). rewrite Hg5 in Hle.
  exists (positions s). split; [|split; [|split]].
  - apply (optimizeChord_survivor _ _ s (take 19 rest)); [|done].
    rewrite length_app. simpl. lia.
  - by repeat split.
  - done.
  - eapply Forall_forall in Hbound as Hb1; [|exact Hs].
    eapply Forall_forall in Hbound as Hb2; [|exact Hchild].
    rewrite Hg5 in Hb1. rewrite Hcost0 in Hb2. simpl in Hb2.
    rewrite Hpos in Hb2.
    rewrite (sub_negative 102) by (done || lia).
    apply bool_decide_eq_false. lia.
Qed.

Lemma small_chords_are_mapped_at_least_cost_witness :
  ∃ best,
    optimizeChord [[mkPos 0 0; mkPos 1 5]; [mkPos 1 0; mkPos 2 4]] []
    = Ok (Some <$> best)
    ∧ feasible [[mkPos 0 0; mkPos 1 5]; [mkPos 1 0; mkPos 2 4]] best
    ∧ scaled (pathCost best) ≤ scaled (pathCost [mkPos 1 5; mkPos 2 4])
    ∧ ltb (sub (pathCost [mkPos 1 5; mkPos 2 4]) (pathCost best)) zero = false.
Proof.
  apply (small_chords_are_mapped_at_least_cost
           [[mkPos 0 0; mkPos 1 5]; [mkPos 1 0; mkPos 2 4]] []
           [mkPos 1 5; mkPos 2 4]).
  - simpl. lia.
  - repeat constructor; simpl; lia.
  - repeat constructor; unfold safeFret; simpl; lia.
  - simpl. lia.
  - split; [|split].
    + repeat constructor; (apply list_elem_of_In; simpl; tauto).
    + repeat constructor; rewrite ?elem_of_cons, ?elem_of_nil; simpl;
        intuition discriminate.
    + by vm_compute.
Defined.

(** ** The sequence mapper: what is mapped, and in which order *)

Lemma firstCandidates_sound open maxFret pitches :
  Forall2 (λ p n, p ∈ getCandidates_open n open maxFret)
    (firstCandidates (candidateSetsOf open maxFret pitches))
    (filter (λ n, getCandidates_open n open maxFret ≠ []) pitches).
Proof.
  induction pitches as [|n pitches IH]; [constructor|].
  unfold firstCandidates, candidateSetsOf in *. rewrite filter_cons.
  cbn [map omap list_omap].
  destruct (decide (getCandidates_open n open maxFret ≠ [])) as [Hne|He].
  - destruct (getCandidates_open n open maxFret) as [|c cs] eqn:E; [done|].
    simpl. constructor; [|done]. rewrite E. left.
  - destruct (getCandidates_open n open maxFret) as [|c cs] eqn:E; [done|].
    by destruct He.
Qed.

Lemma optimizeChord_sound open maxFret pitches last r :
  optimizeChord (candidateSetsOf open maxFret pitches) last = Ok r →
  Forall2 (λ p n, p ∈ getCandidates_open n open maxFret)
    (omap id r)
    (filter (λ n, getCandidates_open n open maxFret ≠ []) pitches).
Proof.
  destruct pitches as [|n [|n' pitches]].
  - intros [= <-]. constructor.
  - unfold optimizeChord, candidateSetsOf. simpl.
    destruct (singleLoop _ _ _ _) as [b|] eqn:E; [simpl|done].
    intros [= <-]. apply singleLoop_elem in E.
    rewrite filter_cons, filter_nil.
    destruct (decide (getCandidates_open n open maxFret ≠ [])) as [Hne|He].
    + destruct E as [->|(c' & Hc' & ->)]; simpl; [|by repeat constructor].
      destruct (getCandidates_open n open maxFret) as [|c cs] eqn:Ec; [done|].
      simpl. repeat constructor. rewrite Ec. left.
    + destruct (getCandidates_open n open maxFret) as [|c cs];
        [|by destruct He].
      destruct E as [->|(c' & Hc' & _)]; [constructor|].
      by apply elem_of_nil in Hc'.
  - assert (2 ≤ length (candidateSetsOf open maxFret (n :: n' :: pitches)))%nat
      as Hlen by (simpl; lia).
    revert Hlen. generalize (n :: n' :: pitches). clear. intros ns Hlen Hr.
    assert (∀ ps : list Position, omap id (Some <$> ps) = ps) as Hid.
    { induction ps; simpl; [done|]. by f_equal. }
    destruct (beamSearch (candidateSetsOf open maxFret ns)) as [|s beam] eqn:E.
    + rewrite (optimizeChord_fallback _ _ Hlen E) in Hr. injection Hr as <-.
      rewrite Hid. apply firstCandidates_sound.
    + rewrite (optimizeChord_survivor _ _ _ _ Hlen E) in Hr. injection Hr as <-.
      rewrite Hid.
      pose proof (beamSearch_positions (candidateSetsOf open maxFret ns)) as H.
      rewrite E in H. apply Forall_cons in H as [H _]. clear E.
      revert H. generalize (positions s). clear.
      intros ps. revert ps. induction ns as [|n ns IH]; intros ps H.
      * apply Forall2_nil_inv_r in H as ->. constructor.
      * unfold candidateSetsOf in H. simpl in H.
        apply Forall2_cons_inv_r in H as (p & ps' & Hp & H & ->).
        rewrite filter_cons.
        destruct (decide (getCandidates_open n open maxFret ≠ [])) as [Hne|He].
        -- constructor; [done|]. by apply IH.
        -- destruct (getCandidates_open n open maxFret); [|by destruct He].
           by apply elem_of_nil in Hp.
Qed.

(** X10.  What is mapped is what was played.  When [fretboardMap] returns
    for a preset tuning, the positions of every mapped event, the
    [undefined] ones left out, sound the pitches of the input event that
    some string reaches, in the order of the pitches: each is on one of the
    six strings, at a fret from 0 to 22, and the open pitch of its string
    plus its fret is the pitch. *)
Theorem mapped_positions_sound_the_pitches (events : list NoteEvent)
    (tuning : string) (t : Tuning) (rs : list TabEvent) :
  TUNINGS !! tuning = Some t →
  fretboardMap events tuning = Ok rs →
  Forall2 (λ ev r,
     Forall2 (λ p n, 0 ≤ p_string p < 6 ∧ 0 ≤ p_fret p ≤ 22
                     ∧ pitchOf (notes t) p = Some n)
       (chosen r) (filter (reachable (notes t)) (notesOf ev)))
    events rs.
Proof.
  intros Ht Hrs. apply fretboardLoop_events in Hrs.
  eapply Forall2_impl; [exact Hrs|]. clear Hrs.
  intros ev r (prev & (css & Hcss & Hbest & _)%mapEvent_inv).
  rewrite (mapE_getCandidates _ _ _ _ Ht) in Hcss. injection Hcss as <-.
  apply optimizeChord_sound in Hbest.
  eapply Forall2_impl; [exact Hbest|]. clear Hbest.
  intros p n (Hs & Ho & Hf)%getCandidates_open_elem.
  split; [done|]. split; [done|].
  unfold pitchOf. rewrite Ho. simpl. f_equal. lia.
Qed.

Lemma mapped_positions_sound_the_pitches_witness :
  Forall2 (λ ev r,
     Forall2 (λ p n, 0 ≤ p_string p < 6 ∧ 0 ≤ p_fret p ≤ 22
                     ∧ pitchOf standardOpen p = Some n)
       (chosen r) (filter (reachable standardOpen) (notesOf ev)))
    [openE; lowNote]
    [mkTabEvent c0_5 c0_5 [Some (mkPos 5 0)] None;
     mkTabEvent zero c0_5 [None] None].
Proof.
  apply (mapped_positions_sound_the_pitches [openE; lowNote] "standard"
           (mkTuning "Standard" standardOpen)); by vm_compute.
Defined.

(** X11.  The loop is causal.  Mapping a sequence followed by another maps
    the first sequence as it is mapped alone, then the second one from the
    positions of the last event before it: an event never changes the
    mapping of the events before it, and a failure among the first events
    is a failure of the whole. *)
Theorem fretboardMap_is_causal (evs1 evs2 : list NoteEvent) (tuning : string) :
  fretboardMap (evs1 ++ evs2) tuning
  = (rs1 ← fretboardMap evs1 tuning;
     rs2 ← fretboardLoop tuning evs2 [] (lastOf [] rs1);
     Ok (rs1 ++ rs2))
  ∧ (∀ rs, fretboardMap (evs1 ++ evs2) tuning = Ok rs →
       fretboardMap evs1 tuning = Ok (take (length evs1) rs))
  ∧ (fretboardMap evs1 tuning = TypeError →
       fretboardMap (evs1 ++ evs2) tuning = TypeError).
Proof.
  unfold fretboardMap. rewrite fretboardLoop_app.
  split; [done|]. split.
  - intros rs.
    destruct (fretboardLoop tuning evs1 [] []) as [rs1|] eqn:E1; [simpl|done].
    destruct (fretboardLoop tuning evs2 [] _) as [rs2|]; [simpl|done].
    intros [= <-]. apply fretboardLoop_events, Forall2_length in E1.
    by rewrite E1, take_app_length.
  - by intros ->.
Qed.

(** X12.  A chord restarts the threading.  An event that has no pitch, or
    more than one, is mapped without reading the positions before it: the
    sequence from that event on is mapped as if it stood alone. *)
Theorem chord_event_restarts_the_threading (evs1 evs2 : list NoteEvent)
    (ev : NoteEvent) (tuning : string) :
  length (notesOf ev) ≠ 1%nat →
  (∀ prev, mapEvent tuning prev ev = mapEvent tuning [] ev)
  ∧ fretboardMap (evs1 ++ ev :: evs2) tuning
    = (rs1 ← fretboardMap evs1 tuning;
       rs2 ← fretboardMap (ev :: evs2) tuning;
       Ok (rs1 ++ rs2)).
Proof.
  intros Hlen. split; [intros prev; by apply mapEvent_chord_any|].
  unfold fretboardMap. rewrite fretboardLoop_app.
  destruct (fretboardLoop tuning evs1 [] []) as [rs1|]; [|done].
  cbn -[fretboardLoop]. rewrite !fretboardLoop_cons.
  by rewrite (mapEvent_chord_any tuning ev (lastOf [] rs1) []).
Qed.

Lemma chord_event_restarts_the_threading_witness :
  fretboardMap ([openE] ++ silent :: [openE]) "standard"
  = (rs1 ← fretboardMap [openE] "standard";
     rs2 ← fretboardMap (silent :: [openE]) "standard";
     Ok (rs1 ++ rs2)).
Proof.
  apply (chord_event_restarts_the_threading [openE] [openE] silent "standard").
  simpl. lia.
Defined.

(** ** From the pitches to the tab *)

(** X13.  From the pitches to the tab, nothing fails.  For a preset tuning
    and a sequence in which no single-pitch event has a pitch out of reach,
    the mapping returns, every position of every mapped event is defined,
    and both views of the result are built: the ASCII text and every column
    of the grid. *)
Theorem map_then_render_never_fails (events : list NoteEvent)
    (tuning : string) (t : Tuning) :
  TUNINGS !! tuning = Some t →
  Forall (λ ev, ¬ unreachableSingle (notes t) ev) events →
  ∃ rs text,
    fretboardMap events tuning = Ok rs
    ∧ Forall definedEvent rs
    ∧ renderAsciiTab rs = Ok text
    ∧ Forall (λ r, ∃ cells, gridColumn r = Ok cells) rs.
Proof.
  intros Ht Hevs.
  destruct (fretboardLoop_defined tuning t events Ht Hevs [] (Forall_nil_2 _))
    as (rs & Hrs & Hdef).
  exists rs. eexists. split; [done|]. split; [done|]. split.
  - unfold renderAsciiTab. by rewrite (renderLines_spec _ Hdef).
  - eapply Forall_impl; [exact Hdef|]. apply gridColumn_defined.
Qed.

Lemma map_then_render_never_fails_witness :
  ∃ rs text,
    fretboardMap [openE; silent; unlabelled] "standard" = Ok rs
    ∧ Forall definedEvent rs
    ∧ renderAsciiTab rs = Ok text
    ∧ Forall (λ r, ∃ cells, gridColumn r = Ok cells) rs.
Proof.
  apply (map_then_render_never_fails [openE; silent; unlabelled] "standard"
           (mkTuning "Standard" standardOpen)); [by vm_compute|].
  repeat (apply Forall_cons; split);
    [intros (n & [= <-] & Hc); by vm_compute in Hc
    |by intros (n & [=] & _)
    |intros (n & [= <-] & Hc); by vm_compute in Hc
    |apply Forall_nil_2].
Defined.

Lemma unreachable_positions tuning t ev prev r :
  TUNINGS !! tuning = Some t →
  unreachableSingle (notes t) ev →
  mapEvent tuning prev ev = Ok r → tab_positions r = [None].
Proof.
  intros Ht (n & Hn & Hc) (css & Hcss & Hbest & _)%mapEvent_inv.
  rewrite (mapE_getCandidates _ _ _ _ Ht), Hn in Hcss.
  injection Hcss as <-. unfold candidateSetsOf in Hbest. simpl in Hbest.
  rewrite Hc in Hbest. by injection Hbest.
Qed.

Lemma chunkStarts_cover n i :
  (i < n)%nat → ∃ chunk, chunk ∈ chunkStarts n ∧ (chunk ≤ i < chunk + 8)%nat.
Proof.
  intros Hi. exists (8 * (i / 8))%nat.
  pose proof (Nat.div_mod_eq i 8). pose proof (Nat.mod_upper_bound i 8).
  split; [|lia].
  unfold chunkStarts. apply list_elem_of_filter. split.
  - unfold PER_LINE. by rewrite Nat.mul_comm, Nat.Div0.mod_mul.
  - apply elem_of_seq. lia.
Qed.

Lemma renderChunk_undefined tabEvents chunk r :
  r ∈ take PER_LINE (drop chunk tabEvents) → tab_positions r = [None] →
  ∀ lines, renderChunk tabEvents lines chunk = TypeError.
Proof.
  intros Hr Hpos lines. unfold renderChunk.
  assert (∀ lines, foldE (λ lines s,
              row ← renderRow (take PER_LINE (drop chunk tabEvents)) s;
              Ok (lines ++ [row])) (seqZ 0 6) lines = TypeError) as H.
  { apply (foldE_fails _ _ 0); [by left|]. intros a. unfold renderRow.
    rewrite (foldE_fails _ _ r); [done|done|].
    intros row. unfold rowStep. by rewrite Hpos. }
  by rewrite H.
Qed.

(** X14.  One pitch out of reach breaks both views.  When the mapping has
    returned, for a preset tuning, the mapped sequence of a sequence with a
    single-pitch event whose pitch no string reaches: the ASCII text is not
    built, [renderAsciiTab] throws, and so does the cell of the first string
    in the grid column of that event. *)
Theorem unreachable_pitch_breaks_the_views (events : list NoteEvent)
    (tuning : string) (t : Tuning) (rs : list TabEvent) :
  TUNINGS !! tuning = Some t →
  fretboardMap events tuning = Ok rs →
  Exists (unreachableSingle (notes t)) events →
  renderAsciiTab rs = TypeError
  ∧ Exists (λ r, gridCell r 0 = TypeError ∧ gridColumn r = TypeError) rs.
Proof.
  intros Ht Hrs Hex. apply fretboardLoop_events in Hrs.
  assert (∃ r, r ∈ rs ∧ tab_positions r = [None]) as (r & Hr & Hpos).
  { clear -Ht Hrs Hex.
    induction Hrs as [|ev r evs rs (prev & Hev) _ IH].
    - by apply Exists_nil in Hex.
    - apply Exists_cons in Hex as [Hex|Hex].
      + exists r. split; [left|]. by eapply unreachable_positions.
      + destruct (IH Hex) as (r' & Hr' & Hpos). exists r'.
        split; [by right|done]. }
  split.
  - apply list_elem_of_lookup in Hr as [i Hi].
    destruct (chunkStarts_cover (length rs) i) as (chunk & Hchunk & Hrange).
    { by eapply lookup_lt_Some. }
    unfold renderAsciiTab, renderLines.
    rewrite (foldE_fails _ _ chunk); [done|done|].
    apply (renderChunk_undefined _ _ r); [|done].
    apply list_elem_of_lookup. exists (i - chunk)%nat.
    rewrite lookup_take_lt by (unfold PER_LINE; lia).
    rewrite lookup_drop. by replace (chunk + (i - chunk))%nat with i by lia.
  - apply Exists_exists. exists r. split; [done|].
    unfold gridColumn, gridCell. simpl. by rewrite Hpos.
Qed.

Lemma unreachable_pitch_breaks_the_views_witness :
  renderAsciiTab [mkTabEvent c0_5 c0_5 [Some (mkPos 5 0)] None;
                  mkTabEvent zero c0_5 [None] None] = TypeError.
Proof.
  apply (unreachable_pitch_breaks_the_views [openE; lowNote] "standard"
           (mkTuning "Standard" standardOpen)); [by vm_compute..|].
  apply Exists_cons_tl, Exists_cons_hd. exists 30. by vm_compute.
Defined.

Lemma withChords_from events : ∀ rs i,
  Forall2 (λ ev r, tab_chord r = chordOrNull (chord ev)) (drop i events) rs →
  mapEi (λ m i,
           match events !! i with
           | Some ev =>
               Ok (mkTabEvent (tab_time m) (tab_duration m) (tab_positions m)
                              (chordOrNull (chord ev)))
           | None => TypeError
           end) i rs = Ok rs.
Proof.
  induction rs as [|r rs IH]; intros i H; [done|].
  apply Forall2_cons_inv_r in H as (ev & evs & Hr & Hrs & Hdrop).
  simpl.
  assert (events !! i = Some ev) as ->.
  { rewrite <- (Nat.add_0_r i), <- lookup_drop. by rewrite Hdrop. }
  simpl. rewrite IH.
  - simpl. destruct r. simpl in *. by rewrite Hr.
  - replace (drop (S i) events) with evs; [done|].
    replace (S i) with (i + 1)%nat by lia.
    by rewrite <- drop_drop, Hdrop.
Qed.

(** X15.  [go] labels the mapped events a second time, with the labels they
    already have.  Whenever [fretboardMap] returns, the pass that copies
    [d.events[i].chord || null] onto the mapped events returns the mapped
    events unchanged, and does not fail. *)
Theorem withChords_changes_nothing (events : list NoteEvent)
    (tuning : string) (rs : list TabEvent) :
  fretboardMap events tuning = Ok rs → withChords events rs = Ok rs.
Proof.
  intros Hrs. apply fretboardLoop_events in Hrs.
  apply withChords_from. rewrite drop_0.
  eapply Forall2_impl; [exact Hrs|].
  by intros ev r (prev & (css & _ & _ & _ & _ & Hc)%mapEvent_inv).
Qed.

Lemma withChords_changes_nothing_witness :
  withChords [unlabelled; lowNote]
    [mkTabEvent zero c0_5 [Some (mkPos 5 0)] None;
     mkTabEvent zero c0_5 [None] None]
  = Ok [mkTabEvent zero c0_5 [Some (mkPos 5 0)] None;
        mkTabEvent zero c0_5 [None] None].
Proof.
  apply (withChords_changes_nothing [unlabelled; lowNote] "standard").
  by vm_compute.
Defined.

(** ** The renderer: widths, lines, blocks *)

Lemma length_concat_cells (cells : list string) (w : nat) :
  Forall (λ c, String.length c = w) cells →
  String.length (String.concat "" cells) = (w * length cells)%nat.
Proof.
  induction 1 as [|c cells Hc _ IH]; [simpl; lia|].
  rewrite concat_empty_cons, length_append, IH, Hc. simpl. lia.
Qed.

Lemma positionOn_chosen s ev p :
  positionOn s ev = Some p → p ∈ chosen ev ∧ p_string p = s.
Proof.
  unfold positionOn, chosen. intros H.
  assert (p ∈ filter (λ p, p_string p = s) (omap id (tab_positions ev))) as Hp.
  { destruct (filter _ _) as [|q l]; [done|]. injection H as ->. left. }
  by apply list_elem_of_filter in Hp as [? ?].
Qed.

(** X16.  The string rows line up.  For a block of events with defined
    positions and frets below 100000, the row of each of the six strings is
    [3 + 6 * k] characters long, [k] being the number of events: the six
    rows of a block have the same length, and the column of the i-th event
    starts at the same place in each. *)
Theorem string_rows_are_aligned (slice : list TabEvent) (s : Z) (row : string) :
  Forall definedEvent slice →
  Forall (λ ev, Forall (λ p, 0 ≤ p_fret p < 100000) (chosen ev)) slice →
  0 ≤ s < 6 →
  renderRow slice s = Ok row →
  String.length row = (3 + 6 * length slice)%nat.
Proof.
  intros Hdef Hfret Hs.
  rewrite renderRow_spec; [|done|rewrite !elem_of_cons; lia].
  intros [= <-]. unfold specRow.
  rewrite !length_append, (length_concat_cells _ 6).
  - rewrite length_map.
    assert (String.length (stringLetter s) = 1%nat) as ->; [|simpl; lia].
    assert (s = 0 ∨ s = 1 ∨ s = 2 ∨ s = 3 ∨ s = 4 ∨ s = 5) as H by lia.
    by destruct H as [->|[->|[->|[->|[->| ->]]]]].
  - apply Forall_map, Forall_forall. intros ev Hev. simpl.
    eapply Forall_forall in Hfret; [|exact Hev].
    unfold specCell. rewrite length_append, length_padEnd. unfold fretText.
    destruct (positionOn s ev) as [p|] eqn:E; [|done].
    apply positionOn_chosen in E as [Hp _].
    eapply Forall_forall in Hfret; [|exact Hp].
    pose proof (pretty_fret_width _ Hfret). simpl. lia.
Qed.

Lemma string_rows_are_aligned_witness :
  String.length "A|-3-----3----|" = (3 + 6 * length [a3; a3])%nat.
Proof.
  apply (string_rows_are_aligned [a3; a3] 4).
  - repeat constructor; by eexists.
  - repeat constructor; simpl; lia.
  - lia.
  - by vm_compute.
Defined.

Lemma blocksOf_nil : blocksOf [] = [].
Proof. done. Qed.

Lemma blocksOf_length n : ∀ evs : list TabEvent,
  (length evs ≤ n)%nat → length (blocksOf evs) = ((length evs + 7) / 8)%nat.
Proof.
  induction n as [n IH] using lt_wf_ind. intros evs Hn.
  destruct evs as [|ev evs]; [done|].
  rewrite blocksOf_step by done.
  change (length (take PER_LINE (ev :: evs)
                  :: blocksOf (drop PER_LINE (ev :: evs))))
    with (S (length (blocksOf (drop PER_LINE (ev :: evs))))).
  rewrite (IH (n - 1)%nat);
    [|simpl in *; lia|rewrite length_drop; simpl in *; lia].
  rewrite length_drop. unfold PER_LINE.
  assert (1 ≤ length (ev :: evs))%nat by (simpl; lia).
  generalize dependent (length (ev :: evs)). intros k _ ?.
  destruct (decide (k ≤ 8)%nat).
  - replace (k - 8 + 7)%nat with 7%nat by lia.
    change (7 / 8)%nat with 0%nat.
    assert ((k + 7) / 8 = 1)%nat as ->; [|done].
    symmetry. apply (Nat.div_unique (k + 7) 8 1 (k - 1)); lia.
  - replace (k + 7)%nat with ((k - 8 + 7) + 1 * 8)%nat by lia.
    rewrite Nat.div_add by lia. lia.
Qed.

Lemma length_specBlock b :
  length (specBlock b)
  = (7 + if decide (Exists carriesLabel b) then 1 else 0)%nat.
Proof.
  unfold specBlock. rewrite length_app. destruct (decide _); simpl; lia.
Qed.

(** X17.  The lines of the tab.  The events are cut into blocks of 8, the
    last one shorter: [ceil(n / 8)] blocks for [n] events.  Every block
    gives seven lines, the six string rows and an empty line, and one more,
    the label row, when one of its events carries a label.  No event, no
    line: the text is empty. *)
Theorem lines_of_the_tab (tabEvents : list TabEvent) (lines : list string) :
  Forall definedEvent tabEvents →
  renderLines tabEvents = Ok lines →
  length (blocksOf tabEvents) = ((length tabEvents + 7) / 8)%nat
  ∧ length lines
    = (7 * length (blocksOf tabEvents)
       + length (filter (Exists carriesLabel) (blocksOf tabEvents)))%nat
  ∧ renderAsciiTab [] = Ok "".
Proof.
  intros Hdef. rewrite (renderLines_spec _ Hdef). intros [= <-].
  split; [by apply (blocksOf_length (length tabEvents))|]. split; [|done].
  induction (blocksOf tabEvents) as [|b bs IH]; [done|].
  rewrite fmap_cons, concat_cons, length_app, IH, length_specBlock.
  rewrite filter_cons. destruct (decide (Exists carriesLabel b)); simpl; lia.
Qed.

Lemma lines_of_the_tab_witness :
  length (blocksOf [a3; a3]) = ((length [a3; a3] + 7) / 8)%nat.
Proof.
  eapply (lines_of_the_tab [a3; a3]).
  - repeat constructor; by eexists.
  - by vm_compute.
Defined.

Lemma blocksOf_app k : ∀ a b : list TabEvent,
  length a = (8 * k)%nat → blocksOf (a ++ b) = blocksOf a ++ blocksOf b.
Proof.
  induction k as [|k IH]; intros a b Hlen.
  - by destruct a.
  - assert (a ≠ []) as Ha by (intros ->; simpl in Hlen; lia).
    assert (a ++ b ≠ []) as Hab by (intros [-> _]%app_eq_nil; done).
    rewrite (blocksOf_step (a ++ b) Hab), (blocksOf_step a Ha).
    unfold PER_LINE.
    rewrite take_app_le, drop_app_le by lia.
    rewrite <- app_comm_cons. f_equal. apply IH. rewrite length_drop. lia.
Qed.

Lemma concat_join sep (l1 l2 : list string) :
  l1 ≠ [] → l2 ≠ [] →
  String.concat sep (l1 ++ l2)
  = String.concat sep l1 +:+ sep +:+ String.concat sep l2.
Proof.
  intros H1 H2. induction l1 as [|x l1 IH]; [done|].
  destruct l1 as [|x' l1].
  - destruct l2; [done|]. done.
  - change (String.concat sep ((x :: x' :: l1) ++ l2))
      with (x +:+ sep +:+ String.concat sep ((x' :: l1) ++ l2)).
    rewrite IH by done.
    change (String.concat sep (x :: x' :: l1))
      with (x +:+ sep +:+ String.concat sep (x' :: l1)).
    by rewrite !append_assoc.
Qed.

Lemma specBlocks_nonempty (evs : list TabEvent) :
  evs ≠ [] → concat (specBlock <$> blocksOf evs) ≠ [].
Proof.
  intros Hne. rewrite blocksOf_step by done.
  rewrite fmap_cons, concat_cons. unfold specBlock.
  destruct (decide _); simpl; done.
Qed.

(** X18.  Rendering goes block by block.  When the first of two sequences
    holds a whole number of blocks of 8 events, the lines of the two
    sequences in a row are the lines of the first followed by the lines of
    the second, and the text is the two texts joined by a newline. *)
Theorem rendering_goes_block_by_block (a b : list TabEvent) :
  (length a mod 8 = 0)%nat →
  Forall definedEvent (a ++ b) →
  ∃ la lb,
    renderLines a = Ok la
    ∧ renderLines b = Ok lb
    ∧ renderLines (a ++ b) = Ok (la ++ lb)
    ∧ (a ≠ [] → b ≠ [] →
       renderAsciiTab (a ++ b)
       = Ok (String.concat newline la +:+ newline
             +:+ String.concat newline lb)).
Proof.
  intros Hmod Hdef. pose proof Hdef as Hab.
  apply Forall_app in Hdef as [Ha Hb].
  assert (blocksOf (a ++ b) = blocksOf a ++ blocksOf b) as Hblocks.
  { apply (blocksOf_app (length a / 8)).
    pose proof (Nat.div_mod_eq (length a) 8). lia. }
  exists (concat (specBlock <$> blocksOf a)),
         (concat (specBlock <$> blocksOf b)).
  split; [by apply renderLines_spec|]. split; [by apply renderLines_spec|].
  assert (renderLines (a ++ b)
          = Ok (concat (specBlock <$> blocksOf a)
                ++ concat (specBlock <$> blocksOf b))) as Hlines.
  { rewrite (renderLines_spec _ Hab), Hblocks, fmap_app.
    by rewrite concat_app. }
  split; [done|]. intros Hane Hbne. unfold renderAsciiTab.
  rewrite Hlines. cbn. f_equal.
  by apply concat_join; apply specBlocks_nonempty.
Qed.

Lemma rendering_goes_block_by_block_witness :
  ∃ la lb,
    renderLines (replicate 8 a3) = Ok la
    ∧ renderLines [a3] = Ok lb
    ∧ renderLines (replicate 8 a3 ++ [a3]) = Ok (la ++ lb)
    ∧ (replicate 8 a3 ≠ [] → [a3] ≠ [] →
       renderAsciiTab (replicate 8 a3 ++ [a3])
       = Ok (String.concat newline la +:+ newline
             +:+ String.concat newline lb)).
Proof.
  apply (rendering_goes_block_by_block (replicate 8 a3) [a3]).
  - done.
  - repeat constructor; by eexists.
Defined.

(** ** What the views display *)

Lemma positionOn_first s ev p :
  p ∈ chosen ev → p_string p = s →
  ∃ q, positionOn s ev = Some q ∧ q ∈ chosen ev ∧ p_string q = s.
Proof.
  intros Hp Hs. unfold positionOn, chosen in *.
  assert (p ∈ filter (λ p, p_string p = s) (omap id (tab_positions ev))) as H.
  { by apply list_elem_of_filter. }
  destruct (filter _ _) as [|q l] eqn:E; [by apply elem_of_nil in H|].
  exists q. split; [done|].
  assert (q ∈ filter (λ p, p_string p = s) (omap id (tab_positions ev))) as Hq.
  { rewrite E. left. }
  by apply list_elem_of_filter in Hq as [? ?].
Qed.

Lemma shown_elem ev p :
  p ∈ shown ev ↔ 0 ≤ p_string p < 6 ∧ positionOn (p_string p) ev = Some p.
Proof.
  unfold shown. rewrite list_elem_of_omap. split.
  - intros (s & Hs & Hp). pose proof (positionOn_chosen _ _ _ Hp) as [_ <-].
    split; [|done]. rewrite !elem_of_cons, elem_of_nil in Hs. lia.
  - intros [Hs Hp]. exists (p_string p). split; [|done].
    rewrite !elem_of_cons. lia.
Qed.

Lemma shown_strings_sorted ev (l : list Z) :
  StronglySorted Z.lt l →
  StronglySorted Z.lt (strings (omap (λ s, positionOn s ev) l)).
Proof.
  induction 1 as [|s l _ IH Hall]; [constructor|]. csimpl.
  destruct (positionOn s ev) as [p|] eqn:E; [|done].
  apply positionOn_chosen in E as [_ Hs]. unfold strings in *. csimpl.
  constructor; [done|]. apply Forall_forall. intros x Hx.
  apply list_elem_of_fmap in Hx as (q & -> & Hq).
  apply list_elem_of_omap in Hq as (s' & Hs' & Hq).
  apply positionOn_chosen in Hq as [_ ->].
  eapply Forall_forall in Hall; [|done]. lia.
Qed.

Lemma sorted_lt_NoDup (l : list Z) : StronglySorted Z.lt l → NoDup l.
Proof.
  induction 1 as [|x l _ IH Hall]; constructor; [|done].
  intros Hin. eapply Forall_forall in Hall; [|done]. lia.
Qed.

Lemma shown_NoDup ev : NoDup (strings (shown ev)).
Proof.
  apply sorted_lt_NoDup, shown_strings_sorted.
  repeat (constructor; [|repeat (constructor; [lia|]); constructor]).
  constructor.
Qed.

(** X19.  What the two views display.  For a mapped event with defined
    positions, the grid column and the ASCII column show, for each of the
    six strings, the fret of the first position on that string.  Every
    position of the event is displayed exactly when the positions are on
    pairwise distinct strings among the six; a second position on a string,
    as the fallback of the optimizer may return, is never displayed. *)
Theorem views_display_first_position_per_string (ev : TabEvent) :
  definedEvent ev →
  gridColumn ev
  = Ok ((λ s, p_fret <$> positionOn s ev) <$> [0; 1; 2; 3; 4; 5])
  ∧ (∀ s row, rowStep s row ev
              = Ok (row +:+ "-" +:+ padEnd (fretText s ev) 5 "-"))
  ∧ shown ev ⊆ chosen ev
  ∧ (shown ev ≡ₚ chosen ev
     ↔ NoDup (strings (chosen ev))
       ∧ Forall (λ p, 0 ≤ p_string p < 6) (chosen ev)).
Proof.
  intros Hdef. split; [|split; [|split]].
  - unfold gridColumn, gridCell. simpl.
    rewrite !(findByString_defined _ _ Hdef). simpl. unfold positionOn.
    repeat (f_equal; [by destruct (head _)|]). done.
  - intros s row. by rewrite (rowStep_spec _ _ _ Hdef).
  - intros p [_ Hp]%shown_elem. by apply positionOn_chosen in Hp as [? _].
  - split.
    + intros Hperm. split.
      * unfold strings. rewrite <- Hperm. apply shown_NoDup.
      * rewrite <- Hperm. apply Forall_forall. by intros p [? _]%shown_elem.
    + intros [Hnd Hrange]. apply NoDup_Permutation.
      * eapply NoDup_fmap_1, shown_NoDup.
      * by eapply NoDup_fmap_1.
      * intros p. rewrite shown_elem. split.
        -- intros [_ Hp]. by apply positionOn_chosen in Hp as [? _].
        -- intros Hp. split; [by eapply Forall_forall in Hrange|].
           destruct (positionOn_first (p_string p) ev p Hp eq_refl)
             as (q & Hq & Hqin & Hqs).
           rewrite Hq. f_equal.
           apply list_elem_of_lookup in Hp as [i Hi].
           apply list_elem_of_lookup in Hqin as [j Hj].
           assert (i = j) as ->; [|congruence].
           eapply (NoDup_lookup (strings (chosen ev))); [done|..].
           ++ unfold strings. rewrite list_lookup_fmap, Hi. done.
           ++ unfold strings. rewrite list_lookup_fmap, Hj. simpl. by f_equal.
Qed.

Lemma views_display_first_position_per_string_witness :
  gridColumn (mkTabEvent zero c0_5 [Some (mkPos 0 3); Some (mkPos 0 8)] None)
  = Ok [Some 3; None; None; None; None; None].
Proof.
  apply (views_display_first_position_per_string
           (mkTabEvent zero c0_5 [Some (mkPos 0 3); Some (mkPos 0 8)] None)).
  repeat constructor; by eexists.
Defined.

(** ** The application: the platform of the URL *)

(** The decimal literals of the cost model are the quotients that [dec]
    computes. *)
Remark dec_literals :
  dec 1 10 = c0_1 ∧ dec 5 100 = c0_05 ∧ dec 3 10 = c0_3 ∧ dec 2 10 = c0_2
  ∧ dec 5 10 = c0_5 ∧ dec 0 1 = zero.
Proof. by vm_compute. Qed.

Lemma prefix_spec n : ∀ h, String.prefix n h = true ↔ ∃ b, h = n +:+ b.
Proof.
  induction n as [|x n IH]; intros h.
  - split; [|by destruct h]. intros _. by exists h.
  - destruct h as [|y h]; simpl.
    + split; [done|]. by intros [b Hb].
    + destruct (ascii_dec x y) as [->|Hne].
      * rewrite IH. split; intros [b Hb]; exists b.
        -- by rewrite Hb.
        -- rewrite append_cons in Hb. by injection Hb.
      * split; [done|]. intros [b Hb]. rewrite append_cons in Hb.
        injection Hb as Hxy _. by destruct Hne.
Qed.

Lemma includes_spec n : ∀ h, includes h n = true ↔ occurs n h.
Proof.
  unfold occurs. induction h as [|y h IH].
  - cbn [includes]. rewrite orb_false_r, prefix_spec. split.
    + intros [b Hb]. by exists "", b.
    + intros ([|x a] & b & Hab); [by exists b|done].
  - cbn [includes]. rewrite orb_true_iff, IH, prefix_spec. split.
    + intros [[b Hb]|(a & b & Hab)].
      * by exists "", b.
      * exists (String y a), b. by rewrite append_cons, Hab.
    + intros ([|x a] & b & Hab).
      * left. by exists b.
      * right. exists a, b. rewrite append_cons in Hab. by injection Hab.
Qed.

Lemma includes_false n h : includes h n = false ↔ ¬ occurs n h.
Proof.
  rewrite <- includes_spec. by destruct (includes h n).
Qed.

(** X20.  The platform read off the URL.  The URL is searched for the three
    marks in a fixed order, as they are written, lower case: it is a TikTok
    URL when [tiktok] occurs in it, else a YouTube URL when [youtu] does,
    else an Instagram URL when [instagram] does, else of no platform.  For
    every platform found the table of platforms has an entry, and the line
    of the processing view is built for every URL that is not empty. *)
Theorem platform_of_the_url (url : string) :
  (platform url = Some "tiktok" ↔ occurs "tiktok" url)
  ∧ (platform url = Some "youtube"
     ↔ occurs "youtu" url ∧ ¬ occurs "tiktok" url)
  ∧ (platform url = Some "instagram"
     ↔ occurs "instagram" url ∧ ¬ occurs "tiktok" url ∧ ¬ occurs "youtu" url)
  ∧ (platform url = None
     ↔ ¬ occurs "tiktok" url ∧ ¬ occurs "youtu" url
       ∧ ¬ occurs "instagram" url)
  ∧ (∀ k, platform url = Some k → ∃ m, getE platMeta k = Ok m)
  ∧ (∀ demo, url ≠ "" → ∃ text, processingText url demo = Ok text).
Proof.
  assert (∀ k, platform url = Some k → ∃ m, getE platMeta k = Ok m) as Hmeta.
  { intros k. unfold platform.
    destruct (includes url "tiktok"); [intros [= <-]; by eexists|].
    destruct (includes url "youtu"); [intros [= <-]; by eexists|].
    destruct (includes url "instagram"); [intros [= <-]; by eexists|done]. }
  split; [|split; [|split; [|split; [|split; [done|]]]]].
  5:{ intros demo Hne. unfold processingText.
      rewrite bool_decide_eq_true_2 by done.
      destruct (platform url) as [k|] eqn:E; [|by eexists].
      destruct (Hmeta k eq_refl) as [m ->]. by eexists. }
  all: unfold platform; rewrite <- ?includes_false, <- ?includes_spec.
  all: destruct (includes url "tiktok"), (includes url "youtu"),
         (includes url "instagram"); intuition congruence.
Qed.

(** ** The application: playback *)

(** The period of the interval is half a beat: 250 ms at 120 beats a
    minute, 300 ms at 100, and [344.82758620689657] ms at 87. *)
Remark intervalMs_of_the_demos :
  intervalMs (Tab.mk "" 120 "" []) = ofZ 250
  ∧ intervalMs (Tab.mk "" 100 "" []) = ofZ 300
  ∧ intervalMs (Tab.mk "" 87 "" [])
    = S754_finite false 6066271049798621 (-44).
Proof. by vm_compute. Qed.

Lemma afterTicks_S tab k st :
  afterTicks tab (S k) st = intervalTick tab (afterTicks tab k st).
Proof. done. Qed.

Lemma togglePlay_start st :
  playing st = false →
  togglePlay st = mkPlayer (startIdx st) true (Some (startIdx st)).
Proof.
  intros Hp. unfold togglePlay, startIdx. rewrite Hp.
  destruct (Z.ltb_spec (activeIdx st) 0); (f_equal; [lia|f_equal; lia]).
Qed.

Lemma playing_after tab st (k : nat) :
  playing st = false →
  startIdx st + Z.of_nat k < Z.of_nat (length (Tab.events tab)) →
  afterTicks tab k (togglePlay st)
  = mkPlayer (startIdx st + Z.of_nat k) true (Some (startIdx st + Z.of_nat k)).
Proof.
  intros Hp. induction k as [|k IH]; intros Hk.
  - rewrite togglePlay_start by done. simpl. by rewrite Z.add_0_r.
  - rewrite afterTicks_S, IH by lia. unfold intervalTick. simpl.
    destruct (Z.leb_spec (Z.of_nat (length (Tab.events tab)))
                (startIdx st + Z.of_nat k + 1)); [lia|].
    f_equal; [lia|f_equal; lia].
Qed.

(** X21.  Playback runs through the tab and stops.  Started while nothing
    plays, playback makes the active column the one it starts from, the
    active column or the first one, and every firing of the interval moves
    it one event further; the firing that would leave the tab clears the
    active column, stops playback and drops the interval, and later
    firings change nothing.  It always stops: after at most as many
    firings as there are events, one at least.  A click on a column while
    the tab plays does not redirect playback: the next firing goes where it
    would have gone. *)
Theorem playback_runs_to_the_end (tab : Tab.t) (st : Player) :
  playing st = false →
  (∀ k : nat,
     startIdx st + Z.of_nat k < Z.of_nat (length (Tab.events tab)) →
     afterTicks tab k (togglePlay st)
     = mkPlayer (startIdx st + Z.of_nat k) true
                (Some (startIdx st + Z.of_nat k)))
  ∧ (∀ k : nat,
       (0 < k)%nat →
       Z.of_nat (length (Tab.events tab)) ≤ startIdx st + Z.of_nat k →
       afterTicks tab k (togglePlay st) = mkPlayer (-1) false None)
  ∧ (∀ (ci : Z) (st' : Player),
       is_Some (timerIdx st') →
       intervalTick tab (onTap ci st') = intervalTick tab st').
Proof.
  intros Hp. split; [intros k; by apply playing_after|].
  split;
    [|by intros ci st' [idx Hidx]; unfold intervalTick; simpl; rewrite Hidx].
  induction k as [|k IH]; [lia|]. intros _ Hk.
  rewrite afterTicks_S.
  destruct (decide (startIdx st + Z.of_nat k
                    < Z.of_nat (length (Tab.events tab)))) as [Hlt|Hge].
  - rewrite playing_after by done. unfold intervalTick. simpl.
    destruct (Z.leb_spec (Z.of_nat (length (Tab.events tab)))
                (startIdx st + Z.of_nat k + 1)); [done|lia].
  - destruct k as [|k].
    + rewrite togglePlay_start by done. unfold intervalTick. simpl.
      destruct (Z.leb_spec (Z.of_nat (length (Tab.events tab)))
                  (startIdx st + 1)); [done|lia].
    + rewrite IH by lia. done.
Qed.

Lemma playback_runs_to_the_end_witness :
  afterTicks (Tab.mk "" 120 "standard" [a3; a3; a3]) 3
    (togglePlay (mkPlayer (-1) false None))
  = mkPlayer (-1) false None.
Proof.
  apply (playback_runs_to_the_end (Tab.mk "" 120 "standard" [a3; a3; a3])
           (mkPlayer (-1) false None)); [done|lia|unfold startIdx; simpl; lia].
Defined.

(** X22.  Pause and resume.  Pressing the button while the tab plays stops
    at the active column and drops the interval; pressing it again resumes
    from that column: playing [k] events, pausing, resuming and playing [j]
    more leaves the player where [k + j] events played in a row do. *)
Theorem pause_then_resume (tab : Tab.t) (st : Player) (k j : nat) :
  playing st = false →
  startIdx st + Z.of_nat k < Z.of_nat (length (Tab.events tab)) →
  togglePlay (afterTicks tab k (togglePlay st))
  = mkPlayer (startIdx st + Z.of_nat k) false None
  ∧ afterTicks tab j
      (togglePlay (togglePlay (afterTicks tab k (togglePlay st))))
    = afterTicks tab (k + j) (togglePlay st).
Proof.
  intros Hp Hk. rewrite playing_after by done. split; [reflexivity|].
  unfold afterTicks at 2. rewrite Nat.add_comm, Nat.iter_add.
  fold (afterTicks tab k (togglePlay st)).
  rewrite (playing_after tab st k) by done.
  unfold togglePlay. cbn.
  destruct (Z.ltb_spec (startIdx st + Z.of_nat k) 0); [|reflexivity].
  unfold startIdx in *. lia.
Qed.

Lemma pause_then_resume_witness :
  togglePlay (afterTicks (Tab.mk "" 120 "standard" [a3; a3; a3]) 1
                (togglePlay (mkPlayer (-1) false None)))
  = mkPlayer (startIdx (mkPlayer (-1) false None) + Z.of_nat 1) false None.
Proof.
  apply (pause_then_resume (Tab.mk "" 120 "standard" [a3; a3; a3])
           (mkPlayer (-1) false None) 1 0); [done|unfold startIdx; simpl; lia].
Defined.

(** ** The application: the demos *)

(** X23.  The demos.  The table holds three demos, and [go] builds a tab for
    each of them.  In each, every event is fully mapped in the tuning of
    the demo: one position for every pitch, all defined, on pairwise
    distinct strings; the tab carries the title, the tempo and the tuning
    of the demo, and its ASCII text is built. *)
Theorem demos_are_fully_mapped (demo : string) (d : Demo.t) :
  DEMOS !! demo = Some d →
  demo ∈ ["wonderwall"; "blues"; "fingerpick"]
  ∧ ∃ tab text,
      goTab demo = Ok tab
      ∧ fretboardMap (Demo.events d) (Demo.tuning d) = Ok (Tab.events tab)
      ∧ Tab.title tab = Demo.title d
      ∧ Tab.bpm tab = Demo.bpm d
      ∧ Tab.tuning tab = Demo.tuning d
      ∧ Forall2 (λ ev r,
           tab_positions r = Some <$> chosen r
           ∧ length (chosen r) = length (notesOf ev)
           ∧ NoDup (strings (chosen r)))
          (Demo.events d) (Tab.events tab)
      ∧ copyAscii (Some tab) = Ok (Some text).
Proof.
  intros Hd. unfold DEMOS in Hd.
  repeat (apply lookup_insert_Some in Hd as [[<- <-]|[_ Hd]];
    [split; [rewrite !elem_of_cons; tauto|];
     eexists; eexists;
     split; [by vm_compute|];
     split; [by vm_compute|];
     split; [done|]; split; [done|]; split; [done|];
     split; [|by vm_compute];
     apply (bool_decide_unpack _); by vm_compute|]).
  by rewrite lookup_empty in Hd.
Qed.

Lemma demos_are_fully_mapped_witness :
  ∃ tab text,
    goTab "blues" = Ok tab
    ∧ fretboardMap (Demo.events blues) (Demo.tuning blues) = Ok (Tab.events tab)
    ∧ Tab.title tab = Demo.title blues
    ∧ Tab.bpm tab = Demo.bpm blues
    ∧ Tab.tuning tab = Demo.tuning blues
    ∧ Forall2 (λ ev r,
         tab_positions r = Some <$> chosen r
         ∧ length (chosen r) = length (notesOf ev)
         ∧ NoDup (strings (chosen r)))
        (Demo.events blues) (Tab.events tab)
    ∧ copyAscii (Some tab) = Ok (Some text).
Proof.
  apply (demos_are_fully_mapped "blues" blues). by vm_compute.
Defined.

(** ** The integers of the model and the numbers of the code *)

Lemma sameNumber_eq x y : sameNumber x y = true → x = y.
Proof.
  destruct x as [s|s| |s m e], y as [s'|s'| |s' m' e']; simpl; try done.
  - by intros ->%Bool.eqb_prop.
  - by intros ->%Bool.eqb_prop.
  - intros [[->%Bool.eqb_prop ->%Pos.eqb_eq]%andb_true_iff
             ->%Z.eqb_eq]%andb_true_iff. done.
Qed.

(** For every MIDI pitch and every open string of a preset, the binary64
    subtraction of line 16 gives the integer that [getCandidates_step]
    computes, and the test against the default fret bound is the test on
    integers. *)
Remark midi_frets_are_exact (midiNote o : Z) :
  0 ≤ midiNote ≤ 127 → o ∈ presetPitches →
  fret64 midiNote o = ofZ (midiNote - o)
  ∧ withinFrets64 (fret64 midiNote o) (ofZ maxFret_default)
    = (0 <=? midiNote - o) && (midiNote - o <=? maxFret_default).
Proof.
  intros Hn Ho.
  assert (forallb (λ n, forallb (λ o,
            sameNumber (fret64 n o) (ofZ (n - o))
            && Bool.eqb (withinFrets64 (fret64 n o) (ofZ maxFret_default))
                 ((0 <=? n - o) && (n - o <=? maxFret_default)))
            presetPitches) (seqZ 0 128) = true) as H by by vm_compute.
  rewrite forallb_forall in H.
  assert (In midiNote (seqZ 0 128)) as Hin
    by (apply list_elem_of_In, elem_of_seqZ; lia).
  specialize (H midiNote Hin). rewrite forallb_forall in H.
  specialize (H o (proj1 (list_elem_of_In _ _) Ho)).
  apply andb_true_iff in H as [H1 H2].
  apply sameNumber_eq in H1. apply Bool.eqb_prop in H2. done.
Qed.

(** Between two positions of the fretboard, the movement of line 29
    computed operation by operation in binary64 is the integer that
    [moveDistance] computes. *)
Remark fretboard_movement_is_exact (c lp : Position) :
  onFretboard c → onFretboard lp →
  movement64 c lp = ofZ (movement c lp)
  ∧ moveDistance c (Some lp) = Ok (movement c lp).
Proof.
  intros Hc%onFretboard_fretboard Hlp%onFretboard_fretboard.
  split; [|unfold moveDistance, movement; f_equal; lia].
  assert (forallb (λ c, forallb (λ lp,
            sameNumber (movement64 c lp) (ofZ (movement c lp)))
            fretboard) fretboard = true) as H by by vm_compute.
  rewrite forallb_forall in H.
  specialize (H c (proj1 (list_elem_of_In _ _) Hc)).
  rewrite forallb_forall in H.
  specialize (H lp (proj1 (list_elem_of_In _ _) Hlp)).
  by apply sameNumber_eq in H.
Qed.
